(** * A shallow embedding of the RAG pipeline core

    The development follows the TypeScript sources:
    - [src/utils/textChunker.ts]          (module [TextChunker]),
    - [src/processors/semanticChunker.ts] and [config/embeddings.ts]
                                          (module [SemanticChunker]),
    - the embedding service [OpenAIEmbeddingService]  (module [Embedding]),
    - the vector store service [SupabaseVectorService] (module [Retrieval]).

    Conventions of the embedding.
    - A JavaScript string is a list of 8-bit code units ([list ascii]).
    - A JavaScript number that is a score is an exact rational ([Q]); counts
      and lengths are [nat], 32-bit hash words and time stamps are [Z].
      Where the value of a score depends on the rounding of the doubles
      ([calculateQuality], [calculateImportance]) the operations round as
      IEEE 754 does ([Num.double]); a final relevance score may be [NaN]
      ([Num.JsNumber]).
    - The outside world (tokenizer, embedding endpoint, vector store, clock,
      [Math.sqrt], the order in which the engine's [sort] leaves elements it
      cannot compare) is passed explicitly. *)

From Stdlib Require Import QArith Qpower Qround Qabs ZArith List Ascii String Lia Lqa
  Sorted Permutation.
From stdpp Require Import base decidable list sets gmap strings pretty sorting.

Open Scope nat_scope.

(** ** JavaScript strings *)

Module Js.

Definition str : Type := list ascii.

Definition lit (s : string) : str := list_ascii_of_string s.

Definition code (c : ascii) : N := N_of_ascii c.

(** [\s] of a regular expression, and the characters [trim] removes. *)
Definition isSpace (c : ascii) : bool :=
  let n := code c in
  (((9 <=? n) && (n <=? 13)) || (n =? 32) || (n =? 160))%N.

(** Line terminators: what [.] refuses and where [^] matches under [/m]. *)
Definition isLineTerminator (c : ascii) : bool :=
  let n := code c in ((n =? 10) || (n =? 13))%N.

Definition isUpper (c : ascii) : bool :=
  let n := code c in
  (((65 <=? n) && (n <=? 90)) ||
   ((192 <=? n) && (n <=? 222) && negb (n =? 215)))%N.

Definition lowerChar (c : ascii) : ascii :=
  if isUpper c then ascii_of_N (code c + 32) else c.

Definition toLowerCase (s : str) : str := map lowerChar s.

Definition isAsciiLetter (c : ascii) : bool :=
  let n := code c in
  (((65 <=? n) && (n <=? 90)) || ((97 <=? n) && (n <=? 122)))%N.

Definition eqc (a b : ascii) : bool := Ascii.eqb a b.

Fixpoint dropWhile {A} (p : A -> bool) (l : list A) : list A :=
  match l with
  | [] => []
  | x :: l' => if p x then dropWhile p l' else l
  end.

Fixpoint takeWhile {A} (p : A -> bool) (l : list A) : list A :=
  match l with
  | [] => []
  | x :: l' => if p x then x :: takeWhile p l' else []
  end.

Definition trimStart (s : str) : str := dropWhile isSpace s.
Definition trimEnd (s : str) : str := rev (dropWhile isSpace (rev s)).
Definition trim (s : str) : str := trimEnd (trimStart s).

(** [parts.join(sep)] *)
Fixpoint join (sep : str) (parts : list str) : str :=
  match parts with
  | [] => []
  | [p] => p
  | p :: rest => p ++ sep ++ join sep rest
  end.

(** [s.split(/\s+/)]: the pieces between maximal runs of white space.  [cur]
    is the piece being read (reversed), [gap] tells that the previous
    character was white space. *)
Fixpoint split_ws_go (cur : str) (gap : bool) (s : str) : list str :=
  match s with
  | [] => [rev cur]
  | c :: s' =>
      if isSpace c then
        if gap then split_ws_go [] true s'
        else rev cur :: split_ws_go [] true s'
      else split_ws_go (c :: cur) false s'
  end.

Definition split_ws (s : str) : list str := split_ws_go [] false s.

(** [s.split(/[...]+/)] for a character class [p]; same shape as [split_ws]. *)
Fixpoint split_runs_go (p : ascii -> bool) (cur : str) (gap : bool) (s : str)
  : list str :=
  match s with
  | [] => [rev cur]
  | c :: s' =>
      if p c then
        if gap then split_runs_go p [] true s'
        else rev cur :: split_runs_go p [] true s'
      else split_runs_go p (c :: cur) false s'
  end.

Definition split_runs (p : ascii -> bool) (s : str) : list str :=
  split_runs_go p [] false s.

Fixpoint startsWith (pre s : str) : bool :=
  match pre, s with
  | [], _ => true
  | _ :: _, [] => false
  | a :: pre', b :: s' => if eqc a b then startsWith pre' s' else false
  end.

(** [s.includes(sub)] *)
Fixpoint includes (sub s : str) : bool :=
  if startsWith sub s then true
  else match s with
       | [] => false
       | _ :: s' => includes sub s'
       end.

(** The non white space characters of a string, in order. *)
Definition nonSpace (s : str) : str := List.filter (fun c => negb (isSpace c)) s.

(** Number of distinct elements of a list: the [size] of [new Set(l)]. *)
Definition setSize `{Countable A} (l : list A) : nat :=
  size (list_to_set l : gset A).

End Js.

Import Js.

(** ** JavaScript numbers as rationals *)

Module Num.

Local Open Scope Q_scope.

Definition ltb (a b : Q) : bool := negb (Qle_bool b a).
Definition leb (a b : Q) : bool := Qle_bool a b.
Definition eqb (a b : Q) : bool := Qeq_bool a b.

Definition min (a b : Q) : Q := if leb a b then a else b.
Definition max (a b : Q) : Q := if leb a b then b else a.

Definition ofNat (n : nat) : Q := inject_Z (Z.of_nat n).

(** Truthiness of an optional number: defined and not zero. *)
Definition truthy (o : option Q) : bool :=
  match o with
  | Some q => negb (eqb q 0)
  | None => false
  end.

(** [o || d] on numbers. *)
Definition orElse (o : option Q) (d : Q) : Q :=
  match o with
  | Some q => if eqb q 0 then d else q
  | None => d
  end.

(** *** Doubles

    A double is a rational number [m * 2^e] with [|m| < 2^53] and
    [-1074 <= e].  The result of an operation on doubles is the double
    nearest to the exact result, the one with the even [m] when two are
    equally near.  Overflow is left out: the numbers rounded here are
    scores and ratios of lengths, far below the largest double. *)

(** The multiple of [2^e] nearest to [q]. *)
Definition roundAt (e : Z) (q : Q) : Q :=
  let scaled := q * 2 ^ (- e) in
  let low := Qfloor scaled in
  let rest := scaled - inject_Z low in
  let m :=
    if ltb rest (1 # 2) then low
    else if ltb (1 # 2) rest then (low + 1)%Z
    else if Z.even low then low else (low + 1)%Z in
  inject_Z m * 2 ^ e.

(** The exponent of the last place of the doubles around [q <> 0]: the [e]
    with [2^52 <= |q| / 2^e < 2^53], and -1074 for the denormal numbers. *)
Definition lastPlace (q : Q) : Z :=
  let a := Qabs q in
  let e := (Z.log2 (Qnum a) - Z.log2 (Zpos (Qden a)) - 52)%Z in
  let e := if ltb (a * 2 ^ (- e)) (2 ^ 52) then (e - 1)%Z else e in
  Z.max e (-1074).

(** The double nearest to [q], as a reduced fraction: the value of a decimal
    literal, and the rounding of every result. *)
Definition double (q : Q) : Q :=
  if eqb q 0 then 0 else Qred (roundAt (lastPlace q) q).

(** [a + b], [a - b] and [a / b] on doubles. *)
Definition dadd (a b : Q) : Q := double (a + b).
Definition dsub (a b : Q) : Q := double (a - b).
Definition ddiv (a b : Q) : Q := double (a / b).

(** *** Numbers that may be [NaN] *)

Inductive JsNumber :=
  | Finite (q : Q)
  | NaN.

(** [a * b] *)
Definition times (a b : JsNumber) : JsNumber :=
  match a, b with
  | Finite x, Finite y => Finite (x * y)
  | _, _ => NaN
  end.

Definition isNumber (a : JsNumber) : bool :=
  match a with
  | Finite _ => true
  | NaN => false
  end.

(** The number a value is, where it is one. *)
Definition numberOf (a : JsNumber) : Q :=
  match a with
  | Finite q => q
  | NaN => 0
  end.

End Num.

Import Num.

(** ** Data model *)

(** [ChunkPosition] of semanticChunker.ts. *)
Record ChunkPosition := {
  documentIndex : nat;
  sectionIndex : nat;
  paragraphIndex : nat;
  startOffset : nat;
  endOffset : nat
}.

(** [ChunkMetadata]: [section] and [title] are optional in the interface;
    [createdAt] is the time value the ISO string is printed from. *)
Record ChunkMetadata := {
  cm_source : str;
  cm_title : option str;
  cm_section : option str;
  cm_readability : Q;
  cm_language : str;
  cm_createdAt : Z
}.

Inductive RelationType := parent | child | sibling | reference.

Record ChunkRelationship := {
  rel_type : RelationType;
  targetChunkId : str;
  strength : Q
}.

(** [SemanticChunk] *)
Record SemanticChunk := {
  chunk_id : str;
  chunk_content : str;
  chunk_tokens : nat;
  chunk_contentType : str;
  chunk_importance : Q;
  chunk_position : ChunkPosition;
  chunk_metadata : ChunkMetadata;
  chunk_relationships : list ChunkRelationship
}.

(** [EmbeddingQuality] *)
Record EmbeddingQuality := {
  textQuality : Q;
  semanticCoherence : Q;
  informationDensity : Q;
  uniqueness : Q;
  retrievalOptimization : Q;
  overallScore : Q
}.

(** [EmbeddingMetadata], with the fields later stages read. *)
Record EmbeddingMetadata := {
  em_chunkId : str;
  em_contentType : str;
  em_importance : Q;
  em_position : ChunkPosition;
  em_isHeader : bool;
  em_model : str;
  em_timestamp : Z
}.

(** [EnhancedEmbedding] *)
Record EnhancedEmbedding := {
  emb_id : str;
  emb_embedding : list Q;
  emb_text : str;
  emb_tokens : nat;
  emb_source : str;
  emb_metadata : EmbeddingMetadata;
  emb_quality : EmbeddingQuality
}.

(** [DocumentMetadata]: stored as JSON, so a reader finds every field
    optional. *)
Record DocumentMetadata := {
  dm_chunkId : option str;
  dm_contentType : option str;
  dm_importance : option Q;
  dm_tokens : option nat;
  dm_section : option str;
  dm_textQuality : option Q;
  dm_semanticCoherence : option Q;
  dm_informationDensity : option Q;
  dm_overallQuality : option Q;
  dm_model : option str;
  dm_timestamp : option Z
}.

(** [Omit<VectorDocument, 'id' | 'created_at'>]: what is sent to the store. *)
Record NewDocument := {
  nd_content : str;
  nd_embedding : list Q;
  nd_source : str;
  nd_metadata : DocumentMetadata
}.

(** [VectorDocument]: a stored row. *)
Record VectorDocument := {
  vd_id : str;
  vd_content : str;
  vd_embedding : list Q;
  vd_source : str;
  vd_metadata : DocumentMetadata;
  vd_created_at : Z
}.

(** A row returned by the [match_documents] remote procedure. *)
Record MatchRow := {
  mr_id : str;
  mr_content : str;
  mr_source : str;
  mr_metadata : DocumentMetadata;
  mr_similarity : Q;
  mr_created_at : Z
}.

(** [SearchResult] *)
Record SearchResult := {
  sr_id : str;
  sr_content : str;
  sr_source : str;
  sr_metadata : DocumentMetadata;
  sr_similarity : Q;
  sr_rank : nat;
  sr_relevanceScore : JsNumber;
  sr_created_at : Z
}.

(** [BoostFactors] *)
Record BoostFactors := {
  bf_importance : Q;
  bf_recency : Q;
  bf_quality : Q;
  bf_contentType : gmap str Q;
  bf_source : gmap str Q
}.

(** [SearchOptions], with the fields [similaritySearch] reads.  [limit] is a
    JavaScript number; integers are enough to see what [slice] does with it. *)
Record SearchOptions := {
  so_limit : Z;
  so_threshold : Q;
  so_rerankResults : bool;
  so_diversityThreshold : Q;
  so_boostFactors : BoostFactors
}.

(** A thrown or returned error value: the code prints [error.message] when
    [error instanceof Error] and ['Unknown error'] otherwise. *)
Record JsError := {
  instanceofError : bool;
  message : str
}.

Definition errorText (e : JsError) : str :=
  if instanceofError e then message e else lit "Unknown error".

(** The answer of the store client: [{ data, error }]. *)
Inductive StoreReply (A : Type) :=
  | StoreError (error : JsError)
  | StoreData (data : option A).
Arguments StoreError {A} error.
Arguments StoreData {A} data.

(** The vector store as the service sees it. *)
Record Store := {
  rpc_match_documents : list Q -> Q -> Z -> StoreReply (list MatchRow);
  select_all : nat -> StoreReply (list VectorDocument);
  insert_select_id : list NewDocument -> StoreReply (list str)
}.

(** ** Arrays *)

Module Arr.

(** [l.slice(0, e)] for an integer [e]: a negative end counts from the back. *)
Definition slice0 {A} (l : list A) (e : Z) : list A :=
  let len := Z.of_nat (length l) in
  let k := if (e <? 0)%Z then Z.max (len + e) 0 else Z.min e len in
  take (Z.to_nat k) l.

(** [l.sort(cmp)]: the sort is stable, and [x] stays before [y] unless
    [cmp x y > 0].  Insertion from the right keeps equal elements in their
    original order. *)
Fixpoint insertBy {A} (cmp : A -> A -> Q) (x : A) (l : list A) : list A :=
  match l with
  | [] => [x]
  | y :: l' => if leb (cmp x y) 0 then x :: l else y :: insertBy cmp x l'
  end.

Definition sortBy {A} (cmp : A -> A -> Q) (l : list A) : list A :=
  fold_right (insertBy cmp) [] l.

(** The comparator [(a, b) => key(b) - key(a)] of a descending sort. *)
Definition descending {A} (key : A -> Q) (a b : A) : Q := (key b - key a)%Q.

(** The order a descending sort on [key] establishes. *)
Definition notBelow {A} (key : A -> Q) (a b : A) : Prop := (key b <= key a)%Q.

(** [l.map((x, index) => f index x)] *)
Fixpoint mapi_from {A B} (f : nat -> A -> B) (i : nat) (l : list A) : list B :=
  match l with
  | [] => []
  | x :: l' => f i x :: mapi_from f (S i) l'
  end.

Definition mapi {A B} (f : nat -> A -> B) (l : list A) : list B := mapi_from f 0 l.

(** The elements of [l] taken at the given positions, when these are the
    positions of [l] in some order; [l] itself otherwise. *)
Definition reorder {A} (positions : list nat) (l : list A) : list A :=
  if bool_decide (positions ≡ₚ seq 0 (length l))
  then omap (fun i => l !! i) positions
  else l.

End Arr.

Import Arr.

(** ** The vector store service ([SupabaseVectorService]) *)

Module Retrieval.

Local Open Scope Q_scope.

(** *** Upload *)

(** [ToInt32] *)
Definition toInt32 (z : Z) : Z :=
  ((z + 2147483648) mod 4294967296 - 2147483648)%Z.

(** One round of [hashContent]: [hash = ((hash << 5) - hash) + char] and
    [hash = hash & hash]. *)
Definition hashStep (hash : Z) (c : ascii) : Z :=
  let char := Z.of_N (code c) in
  let hash := (toInt32 (Z.shiftl hash 5) - hash + char)%Z in
  toInt32 (Z.land hash hash).

(** [hashContent]; the key is the decimal print of this integer. *)
Definition hashContent (content : str) : Z := fold_left hashStep content 0%Z.

(** [filterDuplicates]: [seen] is [contentHashes], [unique] is
    [uniqueDocuments]. *)
Fixpoint filterDuplicates_from (seen : gset Z) (unique : list NewDocument)
    (documents : list NewDocument) : list NewDocument :=
  match documents with
  | [] => unique
  | doc :: rest =>
      let contentHash := hashContent (nd_content doc) in
      if decide (contentHash ∈ seen)
      then filterDuplicates_from seen unique rest
      else filterDuplicates_from ({[contentHash]} ∪ seen) (unique ++ [doc]) rest
  end.

Definition filterDuplicates (documents : list NewDocument) : list NewDocument :=
  filterDuplicates_from ∅ [] documents.

Definition convertToDocumentMetadata (e : EnhancedEmbedding) : DocumentMetadata :=
  {| dm_chunkId := Some (em_chunkId (emb_metadata e));
     dm_contentType := Some (em_contentType (emb_metadata e));
     dm_importance := Some (em_importance (emb_metadata e));
     dm_tokens := Some (emb_tokens e);
     dm_section := if em_isHeader (emb_metadata e) then Some (emb_text e) else None;
     dm_textQuality := Some (textQuality (emb_quality e));
     dm_semanticCoherence := Some (semanticCoherence (emb_quality e));
     dm_informationDensity := Some (informationDensity (emb_quality e));
     dm_overallQuality := Some (overallScore (emb_quality e));
     dm_model := Some (em_model (emb_metadata e));
     dm_timestamp := Some (em_timestamp (emb_metadata e)) |}.

Definition toDocument (e : EnhancedEmbedding) : NewDocument :=
  {| nd_content := emb_text e;
     nd_embedding := emb_embedding e;
     nd_source := emb_source e;
     nd_metadata := convertToDocumentMetadata e |}.

Record BatchUpload := {
  uploaded : nat;
  failed : nat;
  uploadedIds : list str;
  duplicatesSkipped : nat;
  upload_errors : list str
}.

(** [uploadBatch] *)
Definition uploadBatch (store : Store) (embeddings : list EnhancedEmbedding)
  : BatchUpload :=
  let documents := map toDocument embeddings in
  let uniqueDocuments := filterDuplicates documents in
  let duplicatesSkipped := (length documents - length uniqueDocuments)%nat in
  match uniqueDocuments with
  | [] => {| uploaded := 0; failed := 0; uploadedIds := [];
             duplicatesSkipped := duplicatesSkipped; upload_errors := [] |}
  | _ :: _ =>
      match insert_select_id store uniqueDocuments with
      | StoreError error =>
          {| uploaded := 0; failed := length embeddings; uploadedIds := [];
             duplicatesSkipped := duplicatesSkipped;
             upload_errors := [errorText error] |}
      | StoreData (Some data) =>
          {| uploaded := length data; failed := 0; uploadedIds := data;
             duplicatesSkipped := duplicatesSkipped; upload_errors := [] |}
      | StoreData None =>
          {| uploaded := 0; failed := 0; uploadedIds := [];
             duplicatesSkipped := duplicatesSkipped; upload_errors := [] |}
      end
  end.

(** *** Query *)

Section Query.

(** [Math.sqrt] *)
Variable sqrt : Q -> Q.

(** [clock k] is what the [k]-th reading of [Date.now()] returns. *)
Variable clock : nat -> Z.

(** The order [Array.prototype.sort] gives to elements whose comparator is
    not consistent, which the language leaves to the engine:
    [engineOrder scores] lists the positions of the results with these
    scores in the order in which the engine returns them. *)
Variable engineOrder : list JsNumber -> list nat.

(** The loop of [cosineSimilarity]: [(dotProduct, normA, normB)] after the
    indices in [is]. *)
Definition cosineStep (a b : list Q) (acc : Q * Q * Q) (i : nat) : Q * Q * Q :=
  let '(dotProduct, normA, normB) := acc in
  let x := nth i a 0 in
  let y := nth i b 0 in
  (dotProduct + x * y, normA + x * x, normB + y * y).

Definition cosineSums (a b : list Q) : Q * Q * Q :=
  fold_left (cosineStep a b) (seq 0 (length a)) (0, 0, 0).

Definition cosineSimilarity (a b : list Q) : Q :=
  if negb (length a =? length b)%nat then 0
  else
    let '(dotProduct, normA, normB) := cosineSums a b in
    if eqb normA 0 || eqb normB 0 then 0
    else dotProduct / (sqrt normA * sqrt normB).

Definition msPerDay : Q := 1000 * 60 * 60 * 24.

(** The body of the [map] in [rerankResults], with the clock reading [now]. *)
Definition rerankOne (now : Z) (result : SearchResult) : SearchResult :=
  let score := sr_similarity result in
  let score :=
    match dm_importance (sr_metadata result) with
    | Some importance =>
        if truthy (Some importance) then score * (1 + importance * 0.2) else score
    | None => score
    end in
  let score :=
    match dm_overallQuality (sr_metadata result) with
    | Some overallQuality =>
        if truthy (Some overallQuality) then score * (1 + overallQuality * 0.1) else score
    | None => score
    end in
  let daysSinceCreation := inject_Z (now - sr_created_at result) / msPerDay in
  let score := if ltb daysSinceCreation 30 then score * 1.05 else score in
  {| sr_id := sr_id result; sr_content := sr_content result;
     sr_source := sr_source result; sr_metadata := sr_metadata result;
     sr_similarity := sr_similarity result; sr_rank := sr_rank result;
     sr_relevanceScore := Finite score; sr_created_at := sr_created_at result |}.

Definition rerankResults (results : list SearchResult) : list SearchResult :=
  mapi (fun i result => rerankOne (clock i) result) results.

(** [textSimilarity]: Jaccard index of the two word sets. *)
Definition wordSet (text : str) : gset str :=
  list_to_set (split_ws (toLowerCase text)).

Definition textSimilarity (text1 text2 : str) : Q :=
  let words1 := wordSet text1 in
  let words2 := wordSet text2 in
  ofNat (size (words1 ∩ words2)) / ofNat (size (words1 ∪ words2)).

(** [diversifyResults]: [diversified] is the list built so far. *)
Fixpoint diversify_from (threshold : Q) (diversified results : list SearchResult)
  : list SearchResult :=
  match results with
  | [] => diversified
  | result :: rest =>
      let shouldInclude :=
        negb (existsb (fun existing =>
                ltb threshold (textSimilarity (sr_content result) (sr_content existing)))
              diversified) in
      diversify_from threshold
        (if shouldInclude then diversified ++ [result] else diversified) rest
  end.

Definition diversifyResults (results : list SearchResult) (threshold : Q)
  : list SearchResult :=
  diversify_from threshold [] results.

(** The names a plain object inherits from [Object.prototype]. *)
Definition prototypeMembers : list str :=
  map lit [ "constructor"; "hasOwnProperty"; "isPrototypeOf"; "propertyIsEnumerable";
            "toLocaleString"; "toString"; "valueOf"; "__proto__";
            "__defineGetter__"; "__defineSetter__"; "__lookupGetter__";
            "__lookupSetter__" ]%string.

(** [table[key] || 1.0] as a factor, where a missing [key] reads the property
    ["undefined"].  The table is a plain object whose own properties, the
    entries of the finite map, are numbers.  A name the table does not hold
    itself reads the member of [Object.prototype] of that name where there
    is one: a function (an object for [__proto__]), which is truthy and
    [NaN] as a factor. *)
Definition boostLookup (table : gmap str Q) (key : option str) : JsNumber :=
  let name := default (lit "undefined") key in
  match table !! name with
  | Some boost => Finite (orElse (Some boost) 1)
  | None => if bool_decide (name ∈ prototypeMembers) then NaN else Finite 1
  end.

Definition boostOne (boostFactors : BoostFactors) (result : SearchResult)
  : SearchResult :=
  let boost := Finite 1 in
  let boost := times boost (boostLookup (bf_contentType boostFactors)
                                        (dm_contentType (sr_metadata result))) in
  let boost := times boost (boostLookup (bf_source boostFactors)
                                        (Some (sr_source result))) in
  let boost :=
    match dm_overallQuality (sr_metadata result) with
    | Some overallQuality =>
        if truthy (Some overallQuality)
        then times boost (Finite (1 + (overallQuality - 0.5) * bf_quality boostFactors))
        else boost
    | None => boost
    end in
  {| sr_id := sr_id result; sr_content := sr_content result;
     sr_source := sr_source result; sr_metadata := sr_metadata result;
     sr_similarity := sr_similarity result; sr_rank := sr_rank result;
     sr_relevanceScore := times (sr_relevanceScore result) boost;
     sr_created_at := sr_created_at result |}.

Definition applyBoostFactors (results : list SearchResult) (boostFactors : BoostFactors)
  : list SearchResult :=
  map (boostOne boostFactors) results.

Definition ofMatchRow (index : nat) (item : MatchRow) : SearchResult :=
  {| sr_id := mr_id item; sr_content := mr_content item;
     sr_source := mr_source item; sr_metadata := mr_metadata item;
     sr_similarity := mr_similarity item; sr_rank := index + 1;
     sr_relevanceScore := Finite (mr_similarity item);
     sr_created_at := mr_created_at item |}.

Definition ofDocument (queryEmbedding : list Q) (item : VectorDocument) : SearchResult :=
  let similarity := cosineSimilarity queryEmbedding (vd_embedding item) in
  {| sr_id := vd_id item; sr_content := vd_content item;
     sr_source := vd_source item; sr_metadata := vd_metadata item;
     sr_similarity := similarity; sr_rank := 0;
     sr_relevanceScore := Finite similarity; sr_created_at := vd_created_at item |}.

Definition setRank (index : nat) (result : SearchResult) : SearchResult :=
  {| sr_id := sr_id result; sr_content := sr_content result;
     sr_source := sr_source result; sr_metadata := sr_metadata result;
     sr_similarity := sr_similarity result; sr_rank := index + 1;
     sr_relevanceScore := sr_relevanceScore result;
     sr_created_at := sr_created_at result |}.

(** [fallbackSimilaritySearch]; [None] stands for the exception it throws. *)
Definition fallbackSimilaritySearch (store : Store) (queryEmbedding : list Q)
    (options : SearchOptions) : option (list SearchResult) :=
  match select_all store 1000 with
  | StoreError _ => None
  | StoreData None => None
  | StoreData (Some data) =>
      let results := map (ofDocument queryEmbedding) data in
      let results :=
        List.filter (fun item => leb (so_threshold options) (sr_similarity item)) results in
      let results := sortBy (descending sr_similarity) results in
      let results := slice0 results (so_limit options) in
      Some (mapi setRank results)
  end.

(** [vectorSimilaritySearch] *)
Definition vectorSimilaritySearch (store : Store) (queryEmbedding : list Q)
    (options : SearchOptions) : option (list SearchResult) :=
  match rpc_match_documents store queryEmbedding (so_threshold options)
          (so_limit options * 2)%Z with
  | StoreError _ => fallbackSimilaritySearch store queryEmbedding options
  | StoreData data => Some (mapi ofMatchRow (default [] data))
  end.

(** [results.sort((a, b) => b.relevanceScore - a.relevanceScore)].  When
    every score is a number this is the stable descending sort.  With a
    [NaN] among the scores the comparator gives [NaN], which [sort] reads as
    0; such a comparator is not consistent in general, and the order is then
    left to the engine. *)
Definition sortByScore (results : list SearchResult) : list SearchResult :=
  if forallb (fun r => isNumber (sr_relevanceScore r)) results
  then sortBy (descending (fun r => numberOf (sr_relevanceScore r))) results
  else reorder (engineOrder (map sr_relevanceScore results)) results.

(** [similaritySearch]; [searchOpts] is the merged option record. *)
Definition similaritySearch (store : Store) (queryEmbedding : list Q)
    (searchOpts : SearchOptions) : list SearchResult :=
  match vectorSimilaritySearch store queryEmbedding searchOpts with
  | None => []
  | Some vectorResults =>
      let results := vectorResults in
      let results :=
        if so_rerankResults searchOpts then rerankResults results else results in
      let results :=
        if ltb 0 (so_diversityThreshold searchOpts)
        then diversifyResults results (so_diversityThreshold searchOpts)
        else results in
      let results := applyBoostFactors results (so_boostFactors searchOpts) in
      let results := sortByScore results in
      slice0 results (so_limit searchOpts)
  end.

(** The results of [similaritySearch] as they reach the final sort. *)
Definition boosted (store : Store) (queryEmbedding : list Q)
    (searchOpts : SearchOptions) : list SearchResult :=
  match vectorSimilaritySearch store queryEmbedding searchOpts with
  | None => []
  | Some vectorResults =>
      let results := vectorResults in
      let results :=
        if so_rerankResults searchOpts then rerankResults results else results in
      let results :=
        if ltb 0 (so_diversityThreshold searchOpts)
        then diversifyResults results (so_diversityThreshold searchOpts)
        else results in
      applyBoostFactors results (so_boostFactors searchOpts)
  end.

End Query.

(** *** Vocabulary of the properties *)

(** The key under which [filterDuplicates] files a document. *)
Definition contentKey (doc : NewDocument) : Z := hashContent (nd_content doc).

(** The square of the Euclidean norm of a vector. *)
Fixpoint sumSquares (a : list Q) : Q :=
  match a with
  | [] => 0
  | x :: a' => x * x + sumSquares a'
  end.

(** The body of the loop of [cosineSimilarity] on a pair of entries. *)
Definition pairStep (acc : Q * Q * Q) (xy : Q * Q) : Q * Q * Q :=
  let '(dotProduct, normA, normB) := acc in
  (dotProduct + fst xy * snd xy, normA + fst xy * fst xy, normB + snd xy * snd xy).

(** [a.relevanceScore > b.relevanceScore]: the strict order on results by
    final score. *)
Definition scoreAbove (a b : SearchResult) : Prop :=
  match sr_relevanceScore a, sr_relevanceScore b with
  | Finite x, Finite y => y < x
  | _, _ => False
  end.

(** [a.relevanceScore >= b.relevanceScore]: the order of a list sorted by
    final score in descending order.  No comparison holds of [NaN]. *)
Definition scoreNotBelow (a b : SearchResult) : Prop :=
  match sr_relevanceScore a, sr_relevanceScore b with
  | Finite x, Finite y => y <= x
  | _, _ => False
  end.

(** A row reads numbers from the boost tables: neither its content type nor
    its source is the name of a member the table inherits. *)
Definition readsNumbers (boostFactors : BoostFactors) (source : str)
    (metadata : DocumentMetadata) : Prop :=
  boostLookup (bf_contentType boostFactors) (dm_contentType metadata) <> NaN /\
  boostLookup (bf_source boostFactors) (Some source) <> NaN.

(** A result whose score is a number and which reads numbers from the boost
    tables. *)
Definition numeric (boostFactors : BoostFactors) (r : SearchResult) : Prop :=
  isNumber (sr_relevanceScore r) = true /\
  readsNumbers boostFactors (sr_source r) (sr_metadata r).

(** The rows a query gets from the store read numbers from the boost
    tables of the options. *)
Definition numericCandidates (store : Store) (queryEmbedding : list Q)
    (options : SearchOptions) : Prop :=
  (forall rows,
     rpc_match_documents store queryEmbedding (so_threshold options)
       (so_limit options * 2)%Z = StoreData (Some rows) ->
     Forall (fun row => readsNumbers (so_boostFactors options) (mr_source row)
                          (mr_metadata row)) rows) /\
  (forall documents,
     select_all store 1000 = StoreData (Some documents) ->
     Forall (fun d => readsNumbers (so_boostFactors options) (vd_source d)
                        (vd_metadata d)) documents).

(** The rows a query gets from the store carry pairwise different ids, as
    the rows of a table keyed by [id] do. *)
Definition distinctCandidates (store : Store) (queryEmbedding : list Q)
    (options : SearchOptions) : Prop :=
  (forall rows,
     rpc_match_documents store queryEmbedding (so_threshold options)
       (so_limit options * 2)%Z = StoreData (Some rows) ->
     NoDup (map mr_id rows)) /\
  (forall documents,
     select_all store 1000 = StoreData (Some documents) ->
     NoDup (map vd_id documents)).

(** *** Sample data *)

Definition noFields : DocumentMetadata :=
  {| dm_chunkId := None; dm_contentType := None; dm_importance := None;
     dm_tokens := None; dm_section := None; dm_textQuality := None;
     dm_semanticCoherence := None; dm_informationDensity := None;
     dm_overallQuality := None; dm_model := None; dm_timestamp := None |}.

(** The defaults the constructor of the service gives to a search. *)
Definition defaultBoostFactors : BoostFactors :=
  {| bf_importance := 1.2; bf_recency := 1.1; bf_quality := 1.3;
     bf_contentType :=
       list_to_map [ (lit "heading", 1.4); (lit "paragraph", 1.0); (lit "list", 1.1);
                     (lit "table", 1.2); (lit "code", 1.3) ];
     bf_source := ∅ |}.

Definition defaultSearchOptions : SearchOptions :=
  {| so_limit := 10; so_threshold := 0.78; so_rerankResults := true;
     so_diversityThreshold := 0.7; so_boostFactors := defaultBoostFactors |}.

Definition withLimit (limit : Z) (o : SearchOptions) : SearchOptions :=
  {| so_limit := limit; so_threshold := so_threshold o;
     so_rerankResults := so_rerankResults o;
     so_diversityThreshold := so_diversityThreshold o;
     so_boostFactors := so_boostFactors o |}.

Definition sampleRow (id content : string) (similarity : Q) : MatchRow :=
  {| mr_id := lit id; mr_content := lit content; mr_source := lit "notes.md";
     mr_metadata := noFields; mr_similarity := similarity;
     mr_created_at := 1700000000000 |}.

(** A store whose remote procedure finds the given rows. *)
Definition storeFinding (rows : list MatchRow) : Store :=
  {| rpc_match_documents := fun _ _ _ => StoreData (Some rows);
     select_all := fun _ => StoreData (Some []);
     insert_select_id := fun documents =>
       StoreData (Some (map (fun d => lit "id-" ++ nd_content d) documents)) |}.

Definition sampleClock (k : nat) : Z := (1700000500000 + Z.of_nat k)%Z.

(** A stand-in for [Math.sqrt] where no root is taken. *)
Definition sampleSqrt (x : Q) : Q := x.

Definition twoEqualRows : list MatchRow :=
  [ sampleRow "r1" "alpha beta gamma" 0.9; sampleRow "r2" "delta epsilon zeta" 0.9 ].

Definition threeRows : list MatchRow :=
  [ sampleRow "r1" "alpha beta gamma" 0.95; sampleRow "r2" "delta epsilon zeta" 0.9;
    sampleRow "r3" "eta theta iota" 0.85 ].

(** Two rows under one id. *)
Definition sameIdRows : list MatchRow :=
  [ sampleRow "r1" "alpha beta gamma" 0.95; sampleRow "r1" "delta epsilon zeta" 0.9 ].

(** Three rows, the first from a file named [constructor]. *)
Definition inheritedRows : list MatchRow :=
  [ {| mr_id := lit "r1"; mr_content := lit "alpha beta gamma";
       mr_source := lit "constructor"; mr_metadata := noFields; mr_similarity := 0.8;
       mr_created_at := 1700000000000 |};
    sampleRow "r2" "delta epsilon zeta" 0.9; sampleRow "r3" "eta theta iota" 0.95 ].

(** An engine that leaves the elements it cannot compare in their places. *)
Definition stableOrder (scores : list JsNumber) : list nat := seq 0 (length scores).

Definition sampleQuality : EmbeddingQuality :=
  {| textQuality := 0.5; semanticCoherence := 0.8; informationDensity := 1;
     uniqueness := 0.4; retrievalOptimization := 0.9; overallScore := 0.745 |}.

Definition sampleEmbedding (id text : string) : EnhancedEmbedding :=
  {| emb_id := lit id; emb_embedding := [0.1; 0.2]; emb_text := lit text;
     emb_tokens := 3; emb_source := lit "notes.md";
     emb_metadata :=
       {| em_chunkId := lit id; em_contentType := lit "paragraph";
          em_importance := 0.6;
          em_position := {| documentIndex := 0; sectionIndex := 0; paragraphIndex := 0;
                            startOffset := 0; endOffset := 0 |};
          em_isHeader := false; em_model := lit "text-embedding-3-small";
          em_timestamp := 1700000000000 |};
     emb_quality := sampleQuality |}.

End Retrieval.

(** ** More string operations *)

Module Text.

Definition newline : ascii := ascii_of_N 10.
Definition carriageReturn : ascii := ascii_of_N 13.
Definition space : ascii := " "%char.

Definition isNewline (c : ascii) : bool := eqc c newline.

Definition isSentenceEnd (c : ascii) : bool :=
  eqc c "."%char || eqc c "!"%char || eqc c "?"%char.

(** The last [k] elements: [l.slice(-k)] for [0 < k <= l.length]. *)
Definition lastN {A} (k : nat) (l : list A) : list A := drop (length l - k) l.

(** Position just after the last newline of a list, if it has one. *)
Fixpoint afterLastNewline (run : str) : option nat :=
  match run with
  | [] => None
  | c :: run' =>
      match afterLastNewline run' with
      | Some n => Some (S n)
      | None => if isNewline c then Some 1 else None
      end
  end.

(** Where a match of [/\n\s*\n/] that starts with the newline just read
    stops: [\s*] takes the white space that follows, giving back up to its
    last newline.  The result counts the characters after the first newline. *)
Definition breakLength (s : str) : option nat :=
  afterLastNewline (takeWhile isSpace s).

(** [s.split(/\n\s*\n/)]: [skip] characters of the current separator remain
    to be dropped. *)
Fixpoint split_paragraphs_go (cur : str) (skip : nat) (s : str) : list str :=
  match s with
  | [] => [rev cur]
  | c :: s' =>
      match skip with
      | S k => split_paragraphs_go cur k s'
      | O =>
          if isNewline c then
            match breakLength s' with
            | Some n => rev cur :: split_paragraphs_go [] n s'
            | None => split_paragraphs_go (c :: cur) 0 s'
            end
          else split_paragraphs_go (c :: cur) 0 s'
      end
  end.

Definition split_paragraphs (s : str) : list str := split_paragraphs_go [] 0 s.

(** [s.split(/(?<=[.!?])\s+/)]: a run of white space separates when the
    character before it ends a sentence.  [prevEnd] tells that the previous
    character was one of [.!?], [gap] that a separator is being skipped. *)
Fixpoint split_sentences_go (cur : str) (prevEnd gap : bool) (s : str) : list str :=
  match s with
  | [] => [rev cur]
  | c :: s' =>
      if isSpace c then
        if gap then split_sentences_go cur false true s'
        else if prevEnd then rev cur :: split_sentences_go [] false true s'
        else split_sentences_go (c :: cur) false false s'
      else split_sentences_go (c :: cur) (isSentenceEnd c) false s'
  end.

Definition split_sentences (s : str) : list str := split_sentences_go [] false false s.

(** [s.split('\n')] *)
Fixpoint split_lines_go (cur : str) (s : str) : list str :=
  match s with
  | [] => [rev cur]
  | c :: s' =>
      if isNewline c then rev cur :: split_lines_go [] s'
      else split_lines_go (c :: cur) s'
  end.

Definition split_lines (s : str) : list str := split_lines_go [] s.

(** [p => p.trim().length > 0], also the truthiness of [p.trim()] *)
Definition notBlank (p : str) : bool :=
  match trim p with
  | [] => false
  | _ :: _ => true
  end.

(** [s.replace(/\r\n/g, '\n')] *)
Fixpoint replaceCRLF (s : str) : str :=
  match s with
  | [] => []
  | c :: s' =>
      match s' with
      | d :: s'' =>
          if eqc c carriageReturn && eqc d newline then newline :: replaceCRLF s''
          else c :: replaceCRLF s'
      | [] => [c]
      end
  end.

(** [s.replace(/\r/g, '\n')] *)
Definition replaceCR (s : str) : str :=
  map (fun c => if eqc c carriageReturn then newline else c) s.

(** [s.replace(/\n{3,}/g, '\n\n')]: [run] newlines were just read. *)
Fixpoint collapseNewlines_go (run : nat) (s : str) : str :=
  match s with
  | [] => repeat newline (Nat.min run 2)
  | c :: s' =>
      if isNewline c then collapseNewlines_go (S run) s'
      else repeat newline (Nat.min run 2) ++ c :: collapseNewlines_go 0 s'
  end.

Definition collapseNewlines (s : str) : str := collapseNewlines_go 0 s.

(** [s.indexOf(sub, from)]; [None] is [-1]. *)
Fixpoint indexOf_go (sub s : str) (i : nat) : option nat :=
  if startsWith sub s then Some i
  else match s with
       | [] => None
       | _ :: s' => indexOf_go sub s' (S i)
       end.

Definition indexOfFrom (sub s : str) (from : nat) : option nat :=
  indexOf_go sub (drop from s) (Nat.min from (length s)).

(** [s.match(/[.!?]\s*$/)] as a test *)
Definition endsSentence (s : str) : bool :=
  match dropWhile isSpace (rev s) with
  | c :: _ => isSentenceEnd c
  | [] => false
  end.

End Text.

Import Text.

(** ** Shared configuration ([config/embeddings.ts]) *)

Module Config.

(** [EMBEDDING_CONFIG.maxTokensPerChunk] *)
Definition maxTokensPerChunk : nat := 512.

(** [CHUNKING_CONFIG.maxTokens] and [CHUNKING_CONFIG.minTokens] *)
Definition maxTokens : nat := 512.
Definition minTokens : nat := 100.

(** [estimateTokenCount]: [Math.ceil(text.length / 4)] *)
Definition estimateTokenCount (text : str) : nat := (length text + 3) / 4.

(** [CONTENT_TYPES] *)
Definition HEADING : str := lit "heading".
Definition PARAGRAPH : str := lit "paragraph".
Definition LIST : str := lit "list".
Definition TABLE : str := lit "table".
Definition CODE : str := lit "code".
Definition QUOTE : str := lit "quote".
Definition FORMULA : str := lit "formula".
Definition REFERENCE : str := lit "reference".

(** [IMPORTANCE_LEVELS]: the doubles the literals stand for. *)
Definition CRITICAL : Q := double 1.0%Q.
Definition HIGH : Q := double 0.8%Q.
Definition MEDIUM : Q := double 0.6%Q.
Definition LOW : Q := double 0.4%Q.
Definition MINIMAL : Q := double 0.2%Q.

Definition sizeMap : gmap str nat :=
  list_to_map
    [ (HEADING, 256); (PARAGRAPH, 512); (LIST, 384); (TABLE, 768);
      (CODE, 1024); (QUOTE, 256); (FORMULA, 128); (REFERENCE, 384) ].

(** [getOptimalChunkSize]: [sizeMap[contentType] || CHUNKING_CONFIG.maxTokens] *)
Definition getOptimalChunkSize (contentType : str) : nat :=
  match sizeMap !! contentType with
  | Some 0 => maxTokens
  | Some n => n
  | None => maxTokens
  end.

End Config.

(** ** The embedding service ([OpenAIEmbeddingService]) *)

Module Embedding.

Import Config.
Local Open Scope Q_scope.

(** [EmbeddingOptions] *)
Record EmbeddingOptions := {
  model : str;
  dimensions : option nat;
  batchSize : nat;
  maxRetries : nat;
  retryDelay : Q;
  qualityThreshold : Q;
  optimizeForRetrieval : bool;
  includeMetadata : bool
}.

(** What [client.embeddings.create] answers: an exception, or a response
    whose [data] and [usage.total_tokens] may be missing. *)
Record ApiResponse := {
  data : option (list (list Q));
  total_tokens : option nat
}.

Inductive ApiReply :=
  | ApiThrows (e : JsError)
  | ApiReturns (r : ApiResponse).

(** The state of the outside world a call goes through: how many requests
    were sent, how many times the clock was read, and the delays slept. *)
Record World := {
  requests : nat;
  readings : nat;
  slept : list Q
}.

Definition initialWorld : World := {| requests := 0; readings := 0; slept := [] |}.

(** Computations that read and change the world and may throw. *)
Definition M (A : Type) : Type := World -> (JsError + A) * World.

Definition ret {A} (a : A) : M A := fun w => (inr a, w).

Definition bind {A B} (c : M A) (k : A -> M B) : M B :=
  fun w =>
    match c w with
    | (inl e, w') => (inl e, w')
    | (inr a, w') => k a w'
    end.

Definition throw {A} (e : JsError) : M A := fun w => (inl e, w).

Definition tryCatch {A} (c : M A) (handler : JsError -> M A) : M A :=
  fun w =>
    match c w with
    | (inl e, w') => handler e w'
    | (inr a, w') => (inr a, w')
    end.

Notation "'do' x <- c1 ; c2" := (bind c1 (fun x => c2))
  (at level 10, x name, c1 at level 100, c2 at level 200).
Notation "'exec' c1 ; c2" := (bind c1 (fun _ => c2))
  (at level 10, c1 at level 100, c2 at level 200).

Definition newError (m : string) : JsError :=
  {| instanceofError := true; message := lit m |}.

Section Service.

(** [endpoint k input] is the reply to the request sent after [k] earlier
    ones; [clock k] is the [k]-th reading of the clock. *)
Variable endpoint : nat -> list str -> ApiReply.
Variable clock : nat -> Z.
Variable options : EmbeddingOptions.

Definition dateNow : M Z :=
  fun w => (inr (clock (readings w)),
            {| requests := requests w; readings := S (readings w); slept := slept w |}).

Definition sleep (ms : Q) : M unit :=
  fun w => (inr tt,
            {| requests := requests w; readings := readings w;
               slept := slept w ++ [ms] |}).

Definition create (input : list str) : M ApiResponse :=
  fun w =>
    let w' := {| requests := S (requests w); readings := readings w;
                 slept := slept w |} in
    match endpoint (requests w) input with
    | ApiThrows e => (inl e, w')
    | ApiReturns r => (inr r, w')
    end.

(** The loop of [optimizeTextForEmbedding] that keeps whole sentences while
    they fit. *)
Fixpoint truncateSentences (maxTokens : nat) (truncated : str) (tokens : nat)
    (sentences : list str) : str :=
  match sentences with
  | [] => truncated
  | sentence :: rest =>
      let sentenceTokens := estimateTokenCount sentence in
      if (maxTokens <? tokens + sentenceTokens)%nat then truncated
      else
        truncateSentences maxTokens
          (truncated ++ (match truncated with [] => [] | _ => lit ". " end)
                     ++ trim sentence)
          (tokens + sentenceTokens)%nat rest
  end.

(** [optimizeTextForEmbedding] *)
Definition optimizeTextForEmbedding (text : str) : str :=
  if negb (optimizeForRetrieval options) then text
  else
    let optimized := trim (join (lit " ") (split_ws text)) in
    let maxTokens := maxTokensPerChunk in
    let estimatedTokens := estimateTokenCount optimized in
    if (maxTokens <? estimatedTokens)%nat then
      let sentences := split_runs isSentenceEnd optimized in
      match truncateSentences maxTokens [] 0 sentences with
      | [] => take (maxTokens * 4) optimized
      | truncated => truncated
      end
    else optimized.

(** [assessSemanticCoherence] *)
Definition assessSemanticCoherence (chunk : SemanticChunk) : Q :=
  let score := 0.7 in
  let score :=
    if bool_decide (chunk_contentType chunk = HEADING) then score + 0.2 else score in
  let score :=
    match cm_section (chunk_metadata chunk) with
    | Some (_ :: _) => score + 0.1
    | _ => score
    end in
  let score := score + chunk_importance chunk * 0.2 in
  min 1.0 score.

(** [assessInformationDensity] *)
Definition assessInformationDensity (text : str) : Q :=
  let words := split_ws text in
  let uniqueWords := setSize (map toLowerCase words) in
  let density := ofNat uniqueWords / ofNat (length words) in
  min 1.0 (density * 2).

(** [assessUniqueness].  For the empty text the source divides zero by zero;
    the quotient of rationals is zero there. *)
Definition assessUniqueness (text : str) : Q :=
  let uniqueChars := setSize (toLowerCase text) in
  let totalChars := length text in
  min 1.0 (ofNat uniqueChars / ofNat (Nat.min totalChars 50)).

(** [calculateEmbeddingQuality] *)
Definition calculateEmbeddingQuality (chunk : SemanticChunk) (embedding : list Q)
    (optimizedText : str) : EmbeddingQuality :=
  let textQuality := min 1.0 (ofNat (chunk_tokens chunk) / ofNat maxTokensPerChunk) in
  let semanticCoherence := assessSemanticCoherence chunk in
  let informationDensity := assessInformationDensity optimizedText in
  let uniqueness := assessUniqueness optimizedText in
  let retrievalOptimization := if optimizeForRetrieval options then 0.9 else 0.7 in
  let overallScore :=
    textQuality * 0.2 +
    semanticCoherence * 0.25 +
    informationDensity * 0.25 +
    uniqueness * 0.15 +
    retrievalOptimization * 0.15 in
  {| textQuality := textQuality;
     semanticCoherence := semanticCoherence;
     informationDensity := informationDensity;
     uniqueness := uniqueness;
     retrievalOptimization := retrievalOptimization;
     overallScore := overallScore |}.

(** [generateEmbeddingMetadata]: the time stamp is a reading of the clock. *)
Definition generateEmbeddingMetadata (chunk : SemanticChunk) : M EmbeddingMetadata :=
  do timestamp <- dateNow ;
  ret {| em_chunkId := chunk_id chunk;
         em_contentType := chunk_contentType chunk;
         em_importance := chunk_importance chunk;
         em_position := chunk_position chunk;
         em_isHeader := bool_decide (chunk_contentType chunk = HEADING);
         em_model := model options;
         em_timestamp := timestamp |}.

(** [createEnhancedEmbedding] *)
Definition createEnhancedEmbedding (chunk : SemanticChunk) (embedding : list Q)
    (optimizedText : str) : M EnhancedEmbedding :=
  do metadata <- generateEmbeddingMetadata chunk ;
  let quality := calculateEmbeddingQuality chunk embedding optimizedText in
  do now <- dateNow ;
  ret {| emb_id := lit "emb_" ++ chunk_id chunk ++ lit "_" ++ lit (pretty now);
         emb_embedding := embedding;
         emb_text := optimizedText;
         emb_tokens := estimateTokenCount optimizedText;
         emb_source := cm_source (chunk_metadata chunk);
         emb_metadata := metadata;
         emb_quality := quality |}.

(** One request of [generateSingleEmbedding]: the body of its [try]. *)
Definition requestSingle (chunk : SemanticChunk) : M (EnhancedEmbedding * nat) :=
  let optimizedText := optimizeTextForEmbedding (chunk_content chunk) in
  do response <- create [optimizedText] ;
  match data response with
  | None | Some [] => throw (newError "No embedding data received")
  | Some (first :: _) =>
      do enhancedEmbedding <- createEnhancedEmbedding chunk first optimizedText ;
      ret (enhancedEmbedding, default 0%nat (total_tokens response))
  end.

(** [generateSingleEmbedding chunk retryCount], by recursion on the retries
    left, [maxRetries - retryCount]: the test [retryCount < maxRetries] holds
    exactly when one is left. *)
Fixpoint generateSingleEmbedding_from (left : nat) (chunk : SemanticChunk)
    (retryCount : nat) : M (EnhancedEmbedding * nat) :=
  tryCatch (requestSingle chunk)
    (fun error =>
       match left with
       | O => throw error
       | S left' =>
           exec sleep (retryDelay options * 2 ^ Z.of_nat retryCount) ;
           generateSingleEmbedding_from left' chunk (S retryCount)
       end).

Definition generateSingleEmbedding (chunk : SemanticChunk)
  : M (EnhancedEmbedding * nat) :=
  generateSingleEmbedding_from (maxRetries options) chunk 0.

(** The result of [processBatch] *)
Record BatchResult := {
  br_embeddings : list EnhancedEmbedding;
  br_tokensUsed : nat;
  br_errors : list str
}.

(** The loop of the batch path over [chunks], [response.data] and [texts]. *)
Fixpoint processResults (chunks : list SemanticChunk) (vectors : list (list Q))
    (texts : list str) (embeddings : list EnhancedEmbedding) (errors : list str)
  : M (list EnhancedEmbedding * list str) :=
  match chunks, vectors, texts with
  | chunk :: chunks', embeddingData :: vectors', text :: texts' =>
      do enhancedEmbedding <- createEnhancedEmbedding chunk embeddingData text ;
      if leb (qualityThreshold options) (overallScore (emb_quality enhancedEmbedding))
      then processResults chunks' vectors' texts' (embeddings ++ [enhancedEmbedding]) errors
      else processResults chunks' vectors' texts' embeddings
             (errors ++ [lit "Low quality embedding for chunk " ++ chunk_id chunk])
  | _, _, _ => ret (embeddings, errors)
  end.

(** The loop of the fallback path: one [generateSingleEmbedding] per chunk. *)
Fixpoint processIndividually (chunks : list SemanticChunk)
    (embeddings : list EnhancedEmbedding) (tokensUsed : nat) (errors : list str)
  : M BatchResult :=
  match chunks with
  | [] => ret {| br_embeddings := embeddings; br_tokensUsed := tokensUsed;
                 br_errors := errors |}
  | chunk :: rest =>
      do step <- tryCatch
                (do result <- generateSingleEmbedding chunk ;
                 ret (embeddings ++ [fst result], (tokensUsed + snd result)%nat, errors))
                (fun individualError =>
                   ret (embeddings, tokensUsed,
                        errors ++ [lit "Individual embedding failed for chunk "
                                   ++ chunk_id chunk ++ lit ": "
                                   ++ errorText individualError])) ;
      let '(embeddings', tokensUsed', errors') := step in
      processIndividually rest embeddings' tokensUsed' errors'
  end.

(** The [try] block of [processBatch]. *)
Definition processBatchRequest (chunks : list SemanticChunk) (texts : list str)
  : M BatchResult :=
  do response <- create texts ;
  match data response with
  | Some vectors =>
      if (length vectors =? length texts)%nat then
        do done <- processResults chunks vectors texts [] [] ;
        ret {| br_embeddings := fst done;
               br_tokensUsed := default 0%nat (total_tokens response);
               br_errors := snd done |}
      else throw (newError "Mismatch between input texts and embedding results")
  | None => throw (newError "Mismatch between input texts and embedding results")
  end.

(** [processBatch] *)
Definition processBatch (chunks : list SemanticChunk) : M BatchResult :=
  let texts := map (fun chunk => optimizeTextForEmbedding (chunk_content chunk)) chunks in
  tryCatch (processBatchRequest chunks texts)
    (fun error => processIndividually chunks [] 0 []).

(** [BatchEmbeddingResult], with the counters of [EmbeddingStatistics]. *)
Record BatchEmbeddingResult := {
  success : bool;
  embeddings : list EnhancedEmbedding;
  errors : list str;
  totalChunks : nat;
  successfulEmbeddings : nat;
  failedEmbeddings : nat;
  totalTokensUsed : nat;
  processingTimeMs : Z
}.

(** The loop of [generateEmbeddings] from index [i], with [fuel] bounding the
    number of batches. *)
Fixpoint generateBatches (fuel : nat) (chunks : list SemanticChunk) (i : nat)
    (embeddings : list EnhancedEmbedding) (errors : list str) (totalTokensUsed : nat)
  : M (list EnhancedEmbedding * list str * nat) :=
  match fuel with
  | O => ret (embeddings, errors, totalTokensUsed)
  | S fuel' =>
      if (i <? length chunks)%nat then
        let batch := take (batchSize options) (drop i chunks) in
        do step <- tryCatch
                  (do batchResult <- processBatch batch ;
                   ret (embeddings ++ br_embeddings batchResult,
                        errors ++ br_errors batchResult,
                        (totalTokensUsed + br_tokensUsed batchResult)%nat))
                  (fun error =>
                     ret (embeddings,
                          errors ++ [lit "Batch "
                                     ++ lit (pretty (i / batchSize options + 1)%nat)
                                     ++ lit " failed: " ++ errorText error],
                          totalTokensUsed)) ;
        exec (if (i + batchSize options <? length chunks)%nat then sleep 100 else ret tt) ;
        let '(embeddings', errors', totalTokensUsed') := step in
        generateBatches fuel' chunks (i + batchSize options)%nat
          embeddings' errors' totalTokensUsed'
      else ret (embeddings, errors, totalTokensUsed)
  end.

(** [generateEmbeddings].  With [batchSize = 0] and a chunk to process the
    loop of the source never advances: there is no result then. *)
Definition generateEmbeddings (chunks : list SemanticChunk)
  : option (M BatchEmbeddingResult) :=
  match batchSize options, chunks with
  | O, _ :: _ => None
  | _, _ =>
      Some (
        do startTime <- dateNow ;
        do out <- generateBatches (length chunks) chunks 0 [] [] 0 ;
        let '(embeddings, errors, totalTokensUsed) := out in
        do endTime <- dateNow ;
        ret {| success := (0 <? length embeddings)%nat;
               embeddings := embeddings;
               errors := errors;
               totalChunks := length chunks;
               successfulEmbeddings := length embeddings;
               failedEmbeddings := (length chunks - length embeddings)%nat;
               totalTokensUsed := totalTokensUsed;
               processingTimeMs := (endTime - startTime)%Z |})
  end.

(** *** Vocabulary of the properties *)

(** The world after one more request, after the two readings of the clock
    that building an embedding takes, and after sleeping the delays [ds]. *)
Definition afterRequest (w : World) : World :=
  {| requests := S (requests w); readings := readings w; slept := slept w |}.

Definition afterBuilding (w : World) : World :=
  {| requests := requests w; readings := S (S (readings w)); slept := slept w |}.

Definition afterSleeping (ds : list Q) (w : World) : World :=
  {| requests := requests w; readings := readings w; slept := slept w ++ ds |}.

(** The embedding [createEnhancedEmbedding] builds when the clock reads [t1]
    and then [t2]. *)
Definition enhancedAt (chunk : SemanticChunk) (embedding : list Q) (optimizedText : str)
    (t1 t2 : Z) : EnhancedEmbedding :=
  {| emb_id := lit "emb_" ++ chunk_id chunk ++ lit "_" ++ lit (pretty t2);
     emb_embedding := embedding;
     emb_text := optimizedText;
     emb_tokens := estimateTokenCount optimizedText;
     emb_source := cm_source (chunk_metadata chunk);
     emb_metadata :=
       {| em_chunkId := chunk_id chunk;
          em_contentType := chunk_contentType chunk;
          em_importance := chunk_importance chunk;
          em_position := chunk_position chunk;
          em_isHeader := bool_decide (chunk_contentType chunk = HEADING);
          em_model := model options;
          em_timestamp := t1 |};
     emb_quality := calculateEmbeddingQuality chunk embedding optimizedText |}.

(** What the [k]-th request, sent for [chunk] alone, yields: the error the
    attempt ends with, or the vector and the tokens used. *)
Definition singleReply (k : nat) (chunk : SemanticChunk) : JsError + (list Q * nat) :=
  match endpoint k [optimizeTextForEmbedding (chunk_content chunk)] with
  | ApiThrows e => inl e
  | ApiReturns r =>
      match data r with
      | Some (first :: _) => inr (first, default 0%nat (total_tokens r))
      | _ => inl (newError "No embedding data received")
      end
  end.

(** The batch request sent in world [w] for [chunks] fails: it throws, or
    does not return one vector per text. *)
Definition batchFails (w : World) (chunks : list SemanticChunk) : Prop :=
  match endpoint (requests w)
          (map (fun chunk => optimizeTextForEmbedding (chunk_content chunk)) chunks) with
  | ApiThrows _ => True
  | ApiReturns r =>
      match data r with
      | Some vectors => length vectors <> length chunks
      | None => True
      end
  end.

(** The delays before the retries [1 .. n]: [retryDelay * 2^(attempt - 1)]. *)
Definition backoff (n : nat) : list Q :=
  map (fun attempt => retryDelay options * 2 ^ (Z.of_nat attempt - 1)) (seq 1 n).

(** The delays slept before the retries that follow [retryCount] failures. *)
Definition delaysFrom (retryCount n : nat) : list Q :=
  map (fun i => retryDelay options * 2 ^ Z.of_nat (retryCount + i)) (seq 0 n).

(** What becomes of a chunk on the fallback path. *)
Inductive Outcome :=
  | Embedded (e : EnhancedEmbedding) (tokens : nat)
  | Failed (report : str).

Definition embeddedOf (os : list Outcome) : list EnhancedEmbedding :=
  omap (fun o => match o with Embedded e _ => Some e | Failed _ => None end) os.

Definition reportsOf (os : list Outcome) : list str :=
  omap (fun o => match o with Embedded _ _ => None | Failed r => Some r end) os.

Definition tokensOf (os : list Outcome) : nat :=
  foldr (fun o n => match o with Embedded _ t => (t + n)%nat | Failed _ => n end) 0%nat os.

(** One chunk on the fallback path, from world [w] to world [w']: either
    the request is answered after [retries <= maxRetries] failed attempts,
    each followed by its delay, or all [maxRetries + 1] attempts fail and
    the chunk is reported by name with the last error. *)
Inductive ChunkRun (w : World) (chunk : SemanticChunk) : Outcome -> World -> Prop :=
  | run_answered (retries : nat) (vector : list Q) (tokens : nat) :
      (retries <= maxRetries options)%nat ->
      (forall i, (i < retries)%nat -> exists e, singleReply (requests w + i) chunk = inl e) ->
      singleReply (requests w + retries) chunk = inr (vector, tokens) ->
      let w1 := {| requests := (requests w + retries + 1)%nat;
                   readings := readings w;
                   slept := slept w ++ backoff retries |} in
      ChunkRun w chunk
        (Embedded (enhancedAt chunk vector (optimizeTextForEmbedding (chunk_content chunk))
                     (clock (readings w)) (clock (S (readings w)))) tokens)
        (afterBuilding w1)
  | run_exhausted (last : JsError) :
      (forall i, (i < maxRetries options)%nat ->
                 exists e, singleReply (requests w + i) chunk = inl e) ->
      singleReply (requests w + maxRetries options) chunk = inl last ->
      ChunkRun w chunk
        (Failed (lit "Individual embedding failed for chunk " ++ chunk_id chunk
                 ++ lit ": " ++ errorText last))
        {| requests := (requests w + maxRetries options + 1)%nat;
           readings := readings w;
           slept := slept w ++ backoff (maxRetries options) |}.

(** The chunks of a batch on the fallback path, one after the other. *)
Inductive FallbackRun : World -> list SemanticChunk -> list Outcome -> World -> Prop :=
  | fallback_done w : FallbackRun w [] [] w
  | fallback_step w chunk o w1 rest os w2 :
      ChunkRun w chunk o w1 ->
      FallbackRun w1 rest os w2 ->
      FallbackRun w (chunk :: rest) (o :: os) w2.

(** Every request is answered with one vector per text. *)
Definition alwaysAnswers : Prop :=
  forall k input, exists vectors tokens,
    endpoint k input = ApiReturns {| data := Some vectors; total_tokens := tokens |} /\
    length vectors = length input.




End Service.


(** The two ratios the text enters the quality score with. *)
Definition wordUniqueness (text : str) : Q :=
  ofNat (setSize (map toLowerCase (split_ws text))) / ofNat (length (split_ws text)).

Definition characterVariety (text : str) : Q :=
  ofNat (setSize (toLowerCase text)) / ofNat (Nat.min (length text) 50).

(** [chunk.metadata.section] is truthy. *)
Definition hasSection (chunk : SemanticChunk) : bool :=
  match cm_section (chunk_metadata chunk) with
  | Some (_ :: _) => true
  | _ => false
  end.

Definition isHeading (chunk : SemanticChunk) : bool :=
  bool_decide (chunk_contentType chunk = HEADING).

(** Two quality records with equal scores. *)
Definition sameQuality (q1 q2 : EmbeddingQuality) : Prop :=
  textQuality q1 == textQuality q2 /\
  semanticCoherence q1 == semanticCoherence q2 /\
  informationDensity q1 == informationDensity q2 /\
  uniqueness q1 == uniqueness q2 /\
  retrievalOptimization q1 == retrievalOptimization q2 /\
  overallScore q1 == overallScore q2.

(** *** Sample data *)

Definition defaultOptions : EmbeddingOptions :=
  {| model := lit "text-embedding-3-small"; dimensions := Some 1536%nat;
     batchSize := 50; maxRetries := 3; retryDelay := 1000; qualityThreshold := 0.7;
     optimizeForRetrieval := true; includeMetadata := true |}.

Definition sampleChunk (id content : string) (importance : Q) : SemanticChunk :=
  {| chunk_id := lit id; chunk_content := lit content;
     chunk_tokens := estimateTokenCount (lit content);
     chunk_contentType := PARAGRAPH; chunk_importance := importance;
     chunk_position := {| documentIndex := 0; sectionIndex := 0; paragraphIndex := 1;
                          startOffset := 0; endOffset := length (lit content) |};
     chunk_metadata := {| cm_source := lit "notes.md"; cm_title := Some (lit "Untitled");
                          cm_section := Some (lit "Content"); cm_readability := 80;
                          cm_language := lit "en"; cm_createdAt := 1700000000000 |};
     chunk_relationships := [] |}.

Definition repetitive : SemanticChunk := sampleChunk "chunk_0_1700000000000" "ok ok ok ok" 0.4.

Definition varied : SemanticChunk :=
  sampleChunk "chunk_1_1700000000000"
    "Quarterly review 2024: revenue grew by 18% (from $4.2M to $5.0M), while customer churn fell below 3%. Key objectives for next quarter: expand the Zurich office, hire six engineers, and adopt weekly planning; budget examples follow." 0.8.

(** Three chunks with one text: two differ in importance only, the third is
    the second under another identifier. *)
Definition minorNote : SemanticChunk :=
  sampleChunk "chunk_2_1700000000000" "Deploy the service before Friday." 0.2.

Definition keyNote : SemanticChunk :=
  sampleChunk "chunk_2_1700000000000" "Deploy the service before Friday." 1.

Definition keyNoteAgain : SemanticChunk :=
  sampleChunk "chunk_7_1700000000900" "Deploy the service before Friday." 1.

Definition sampleClock (k : nat) : Z := (1700000000000 + Z.of_nat k)%Z.

Definition oneVectorPerText (input : list str) : ApiReply :=
  ApiReturns {| data := Some (map (fun _ => [0.6; 0.8]) input);
                total_tokens := Some (length input * 4)%nat |}.

(** An endpoint that answers every request. *)
Definition healthy (k : nat) (input : list str) : ApiReply := oneVectorPerText input.

(** An endpoint that refuses the first request and answers the later ones. *)
Definition failsFirst (k : nat) (input : list str) : ApiReply :=
  match k with
  | O => ApiThrows (newError "429 rate limit")
  | S _ => oneVectorPerText input
  end.

(** An endpoint that refuses the first [n] requests. *)
Definition failsUntil (n : nat) (k : nat) (input : list str) : ApiReply :=
  if (k <? n)%nat then ApiThrows (newError "503 unavailable") else oneVectorPerText input.

End Embedding.

(** ** The text chunker ([textChunker.ts]) *)

Module TextChunker.

Local Open Scope Q_scope.

Inductive ChunkType := paragraphChunk | sentenceChunk | arbitraryChunk.

(** [TextChunk], with its [metadata] flattened. *)
Record TextChunk := {
  content : str;
  index : nat;
  source : str;
  startChar : nat;
  endChar : nat;
  tokenCount : nat;
  wordCount : nat;
  chunkType : ChunkType;
  quality : Q
}.

(** [ChunkingOptions] *)
Record ChunkingOptions := {
  maxTokens : nat;
  chunkOverlap : nat;
  preserveParagraphs : bool;
  preserveSentences : bool;
  minChunkSize : nat
}.

Definition DEFAULT_CHUNKING_OPTIONS : ChunkingOptions :=
  {| maxTokens := 800; chunkOverlap := 100; preserveParagraphs := true;
     preserveSentences := true; minChunkSize := 50 |}.

(** [calculateQuality], in doubles: a decimal literal is the double nearest
    to it, and every sum, difference and quotient is rounded.  The ratio of
    letters is undefined for the empty text, where neither comparison of the
    source holds. *)
Definition calculateQuality (text : str) : Q :=
  let score := 0.5 in
  let wordCount := length (split_ws text) in
  let score :=
    if (50 <=? wordCount)%nat && (wordCount <=? 200)%nat then dadd score (double 0.2)
    else if (wordCount <? 20)%nat then dsub score (double 0.2)
    else score in
  let sentences := List.filter notBlank (split_runs isSentenceEnd text) in
  let score :=
    if (2 <=? length sentences)%nat then dadd score (double 0.1) else score in
  let score :=
    if includes [newline; newline] text || includes [newline] text
    then dadd score (double 0.1) else score in
  let avgWordLength := ddiv (ofNat (length (nonSpace text))) (ofNat wordCount) in
  let score := if leb 4 avgWordLength then dadd score (double 0.1) else score in
  let score :=
    match text with
    | [] => score
    | _ :: _ =>
        let alphaRatio :=
          ddiv (ofNat (length (List.filter isAsciiLetter text))) (ofNat (length text)) in
        if leb (double 0.7) alphaRatio then dadd score (double 0.1)
        else if ltb alphaRatio 0.5 then dsub score (double 0.2)
        else score
    end in
  Num.max 0 (Num.min 1 score).

Section Chunking.

(** The tokenizer of [js-tiktoken]: the number of tokens of a text, or
    [None] when loading the encoding or encoding the text throws. *)
Variable encode : str -> option nat.

(** [countTokens] *)
Definition countTokens (text : str) : nat :=
  match encode text with
  | Some n => n
  | None => (length text + 3) / 4
  end.

(** The overlap carried into the next chunk: the last [overlap] words. *)
Definition overlapText (overlap : nat) (currentChunk : str) : str :=
  let words := split_ws currentChunk in
  let overlapWords := lastN (Nat.min overlap (length words)) words in
  join [space] overlapWords.

(** The loop of [splitArbitrarily]. *)
Fixpoint splitArbitrarily_from (maxTokens overlap : nat) (words : list str)
    (chunks : list str) (currentChunk : str) : list str :=
  match words with
  | [] =>
      match currentChunk with
      | [] => chunks
      | _ :: _ => chunks ++ [currentChunk]
      end
  | word :: rest =>
      let testChunk :=
        match currentChunk with
        | [] => word
        | _ :: _ => currentChunk ++ [space] ++ word
        end in
      if (countTokens testChunk <=? maxTokens)%nat
      then splitArbitrarily_from maxTokens overlap rest chunks testChunk
      else
        match currentChunk with
        | _ :: _ =>
            let chunks := chunks ++ [currentChunk] in
            if (0 <? overlap)%nat
            then splitArbitrarily_from maxTokens overlap rest chunks
                   (overlapText overlap currentChunk ++ [space] ++ word)
            else splitArbitrarily_from maxTokens overlap rest chunks word
        | [] =>
            splitArbitrarily_from maxTokens overlap rest (chunks ++ [word]) []
        end
  end.

(** [splitArbitrarily] *)
Definition splitArbitrarily (text : str) (maxTokens overlap : nat) : list str :=
  splitArbitrarily_from maxTokens overlap (split_ws text) [] [].

(** The loop of [splitBySentences]. *)
Fixpoint splitBySentences_from (maxTokens overlap : nat) (sentences : list str)
    (chunks : list str) (currentChunk : str) : list str :=
  match sentences with
  | [] =>
      match currentChunk with
      | [] => chunks
      | _ :: _ => chunks ++ [currentChunk]
      end
  | sentence :: rest =>
      let testChunk :=
        match currentChunk with
        | [] => sentence
        | _ :: _ => currentChunk ++ [space] ++ sentence
        end in
      if (countTokens testChunk <=? maxTokens)%nat
      then splitBySentences_from maxTokens overlap rest chunks testChunk
      else
        match currentChunk with
        | _ :: _ =>
            let chunks := chunks ++ [currentChunk] in
            if (0 <? overlap)%nat
            then splitBySentences_from maxTokens overlap rest chunks
                   (overlapText overlap currentChunk ++ [space] ++ sentence)
            else splitBySentences_from maxTokens overlap rest chunks sentence
        | [] =>
            splitBySentences_from maxTokens overlap rest
              (chunks ++ splitArbitrarily sentence maxTokens overlap) []
        end
  end.

(** [splitBySentences] *)
Definition splitBySentences (text : str) (maxTokens overlap : nat) : list str :=
  splitBySentences_from maxTokens overlap
    (List.filter notBlank (split_sentences text)) [] [].

(** The loop of [splitByParagraphs]. *)
Fixpoint splitByParagraphs_from (maxTokens overlap : nat) (paragraphs : list str)
    (chunks : list str) (currentChunk : str) : list str :=
  match paragraphs with
  | [] =>
      match currentChunk with
      | [] => chunks
      | _ :: _ => chunks ++ [currentChunk]
      end
  | paragraph :: rest =>
      let testChunk :=
        match currentChunk with
        | [] => paragraph
        | _ :: _ => currentChunk ++ [newline; newline] ++ paragraph
        end in
      if (countTokens testChunk <=? maxTokens)%nat
      then splitByParagraphs_from maxTokens overlap rest chunks testChunk
      else
        match currentChunk with
        | _ :: _ =>
            let chunks := chunks ++ [currentChunk] in
            if (0 <? overlap)%nat
            then splitByParagraphs_from maxTokens overlap rest chunks
                   (overlapText overlap currentChunk ++ [newline; newline] ++ paragraph)
            else splitByParagraphs_from maxTokens overlap rest chunks paragraph
        | [] =>
            splitByParagraphs_from maxTokens overlap rest
              (chunks ++ splitBySentences paragraph maxTokens overlap) []
        end
  end.

(** [splitByParagraphs] *)
Definition splitByParagraphs (text : str) (maxTokens overlap : nat) : list str :=
  splitByParagraphs_from maxTokens overlap
    (List.filter notBlank (split_paragraphs text)) [] [].

(** The normalisation at the head of [chunkText]. *)
Definition cleanText (text : str) : str :=
  trim (collapseNewlines (replaceCR (replaceCRLF text))).

(** The strategy chosen by [chunkText]. *)
Definition splitText (clean : str) (opts : ChunkingOptions) : list str :=
  if preserveParagraphs opts
  then splitByParagraphs clean (maxTokens opts) (chunkOverlap opts)
  else if preserveSentences opts
  then splitBySentences clean (maxTokens opts) (chunkOverlap opts)
  else splitArbitrarily clean (maxTokens opts) (chunkOverlap opts).

Definition classify (chunkText : str) : ChunkType :=
  if includes [newline; newline] chunkText then paragraphChunk
  else if endsSentence chunkText then sentenceChunk
  else arbitraryChunk.

(** The loop of [chunkText] that attaches the metadata. *)
Fixpoint describe (clean source : str) (textChunks : list str) (i currentPos : nat)
  : list TextChunk :=
  match textChunks with
  | [] => []
  | chunkText :: rest =>
      let startPos := indexOfFrom chunkText clean currentPos in
      let endOf start := (start + length chunkText)%nat in
      let chunk :=
        {| content := chunkText;
           index := i;
           source := source;
           startChar := match startPos with Some p => p | None => currentPos end;
           endChar := match startPos with
                      | Some p => endOf p
                      | None => endOf currentPos
                      end;
           tokenCount := countTokens chunkText;
           wordCount := length (split_ws chunkText);
           chunkType := classify chunkText;
           quality := calculateQuality chunkText |} in
      chunk :: describe clean source rest (S i) (endChar chunk)
  end.

(** The final filter of [chunkText]. *)
Definition bigEnough (opts : ChunkingOptions) (chunk : TextChunk) : bool :=
  (minChunkSize opts <=? tokenCount chunk)%nat || (10 <=? wordCount chunk)%nat.

(** [chunkText]; [opts] is the merged option record. *)
Definition chunkText (text source : str) (opts : ChunkingOptions) : list TextChunk :=
  let clean := cleanText text in
  match clean with
  | [] =>
      [ {| content := clean; index := 0; source := source; startChar := 0;
           endChar := length clean; tokenCount := countTokens clean;
           wordCount := length (split_ws clean); chunkType := paragraphChunk;
           quality := calculateQuality clean |} ]
  | _ :: _ =>
      if (countTokens clean <=? maxTokens opts)%nat then
        [ {| content := clean; index := 0; source := source; startChar := 0;
             endChar := length clean; tokenCount := countTokens clean;
             wordCount := length (split_ws clean); chunkType := paragraphChunk;
             quality := calculateQuality clean |} ]
      else
        let textChunks := splitText clean opts in
        List.filter (bigEnough opts) (describe clean source textChunks 0 0)
  end.

(** *** Vocabulary of the properties *)

(** The final filter of [chunkText], on the text of a chunk. *)
Definition keeps (opts : ChunkingOptions) (chunkText : str) : bool :=
  (minChunkSize opts <=? countTokens chunkText)%nat
  || (10 <=? length (split_ws chunkText))%nat.

(** The text fits in one chunk. *)
Definition fitsInOne (clean : str) (opts : ChunkingOptions) : bool :=
  match clean with
  | [] => true
  | _ :: _ => (countTokens clean <=? maxTokens opts)%nat
  end.

(** A chunk seen as the overlap carried over from the chunk before it,
    followed by the text that is new. *)
Record Piece := {
  carried : str;
  fresh : str
}.

Definition pieceText (p : Piece) : str := carried p ++ fresh p.

Definition freshPiece (s : str) : Piece := {| carried := []; fresh := s |}.

(** The three loops of the splitter, keeping track of what each chunk
    carries over: [sep] joins the pieces, [lower] splits a piece that is too
    long on its own. *)
Fixpoint trace_from (sep : str) (lower : str -> list Piece) (maxTokens overlap : nat)
    (pieces : list str) (chunks : list Piece) (current : Piece) : list Piece :=
  match pieces with
  | [] =>
      match pieceText current with
      | [] => chunks
      | _ :: _ => chunks ++ [current]
      end
  | piece :: rest =>
      let currentChunk := pieceText current in
      let testChunk :=
        match currentChunk with
        | [] => piece
        | _ :: _ => currentChunk ++ sep ++ piece
        end in
      if (countTokens testChunk <=? maxTokens)%nat
      then trace_from sep lower maxTokens overlap rest chunks
             (match currentChunk with
              | [] => freshPiece piece
              | _ :: _ => {| carried := carried current;
                             fresh := fresh current ++ sep ++ piece |}
              end)
      else
        match currentChunk with
        | _ :: _ =>
            if (0 <? overlap)%nat
            then trace_from sep lower maxTokens overlap rest (chunks ++ [current])
                   {| carried := overlapText overlap currentChunk ++ sep;
                      fresh := piece |}
            else trace_from sep lower maxTokens overlap rest (chunks ++ [current])
                   (freshPiece piece)
        | [] =>
            trace_from sep lower maxTokens overlap rest (chunks ++ lower piece)
              (freshPiece [])
        end
  end.

Definition traceArbitrarily (text : str) (maxTokens overlap : nat) : list Piece :=
  trace_from [space] (fun word => [freshPiece word]) maxTokens overlap
    (split_ws text) [] (freshPiece []).

Definition traceBySentences (text : str) (maxTokens overlap : nat) : list Piece :=
  trace_from [space] (fun sentence => traceArbitrarily sentence maxTokens overlap)
    maxTokens overlap (List.filter notBlank (split_sentences text)) [] (freshPiece []).

Definition traceByParagraphs (text : str) (maxTokens overlap : nat) : list Piece :=
  trace_from [newline; newline]
    (fun paragraph => traceBySentences paragraph maxTokens overlap)
    maxTokens overlap (List.filter notBlank (split_paragraphs text)) [] (freshPiece []).

Definition traceText (clean : str) (opts : ChunkingOptions) : list Piece :=
  if preserveParagraphs opts
  then traceByParagraphs clean (maxTokens opts) (chunkOverlap opts)
  else if preserveSentences opts
  then traceBySentences clean (maxTokens opts) (chunkOverlap opts)
  else traceArbitrarily clean (maxTokens opts) (chunkOverlap opts).

End Chunking.

(** What a chunk carries is nothing, or the last [overlap] words of the
    chunk before it followed by white space. *)
Definition carriesFrom (overlap : nat) (previous : option Piece) (p : Piece) : Prop :=
  carried p = [] \/
  exists q joint,
    previous = Some q /\ forallb isSpace joint = true /\
    carried p = overlapText overlap (pieceText q) ++ joint.

Fixpoint carriedOver (overlap : nat) (previous : option Piece) (l : list Piece) : Prop :=
  match l with
  | [] => True
  | p :: l' => carriesFrom overlap previous p /\ carriedOver overlap (Some p) l'
  end.

(** *** Sample data *)

(** The tokenizer that cannot be loaded: [countTokens] estimates. *)
Definition noTokenizer (text : str) : option nat := None.

Definition fourSentences : str :=
  lit "Alpha beta gamma delta. Epsilon zeta eta theta. Iota kappa lambda mu. Nu xi omicron pi.".

Definition smallChunks : ChunkingOptions :=
  {| maxTokens := 10; chunkOverlap := 0; preserveParagraphs := true;
     preserveSentences := true; minChunkSize := 50 |}.

(** Chunks of at most ten tokens, kept from five tokens on. *)
Definition sentenceChunks : ChunkingOptions :=
  {| maxTokens := 10; chunkOverlap := 0; preserveParagraphs := true;
     preserveSentences := true; minChunkSize := 5 |}.

Definition noOverlap : ChunkingOptions :=
  {| maxTokens := 800; chunkOverlap := 0; preserveParagraphs := true;
     preserveSentences := true; minChunkSize := 50 |}.

End TextChunker.

(** ** The semantic chunker ([semanticChunker.ts]) *)

Module SemanticChunker.

Import Config.
Local Open Scope Q_scope.

(** [Section] *)
#[warnings="-register-all"]
Inductive DocSection : Type := mkSection {
  sec_title : str;
  sec_level : nat;
  sec_content : str;
  sec_subsections : list DocSection;
  sec_type : str
}.

(** [DocumentStructure] *)
Record DocumentStructure := {
  ds_title : str;
  ds_sections : list DocSection
}.

(** The [metadata] argument of [chunkDocument], a [Record<string, any>]
    spread last into the chunk metadata: the keys it may override. *)
Record CallerMetadata := {
  given_source : option str;
  given_title : option str;
  given_section : option str;
  given_readability : option Q;
  given_language : option str;
  given_createdAt : option Z
}.

Definition noMetadata : CallerMetadata :=
  {| given_source := None; given_title := None; given_section := None;
     given_readability := None; given_language := None; given_createdAt := None |}.

(** *** Content analysis *)

Definition isHash (c : ascii) : bool := eqc c "#"%char.

(** [/^#+\s/] *)
Definition matchesHeading (content : str) : bool :=
  match content with
  | c :: _ =>
      if isHash c then
        match dropWhile isHash content with
        | d :: _ => isSpace d
        | [] => false
        end
      else false
  | [] => false
  end.

(** A pattern [/^\s*.../m]: [test] is tried where a line start is followed
    by white space only; [reach] tells that the position read is one. *)
Fixpoint atLineStart (test : str -> bool) (reach : bool) (s : str) : bool :=
  if (if reach then test s else false) then true
  else match s with
       | [] => false
       | c :: s' =>
           atLineStart test
             (if isLineTerminator c then true else if isSpace c then reach else false) s'
       end.

(** A pattern tried at every position. *)
Fixpoint anywhere (test : str -> bool) (s : str) : bool :=
  if test s then true
  else match s with
       | [] => false
       | _ :: s' => anywhere test s'
       end.

Definition restOfLine (s : str) : str :=
  takeWhile (fun c => negb (isLineTerminator c)) s.

(** [[-*+]\s] *)
Definition listMarker (s : str) : bool :=
  match s with
  | c :: d :: _ =>
      if eqc c "-"%char || eqc c "*"%char || eqc c "+"%char then isSpace d else false
  | _ => false
  end.

(** [\|.*\|] *)
Definition tableRow (s : str) : bool :=
  match s with
  | c :: rest =>
      if eqc c "|"%char then existsb (eqc "|"%char) (restOfLine rest) else false
  | [] => false
  end.

(** [>] *)
Definition quoteMark (s : str) : bool :=
  match s with
  | c :: _ => eqc c ">"%char
  | [] => false
  end.

Definition isBacktick (c : ascii) : bool := eqc c "`"%char.

(** [`[^`]+`] *)
Definition inlineCode (s : str) : bool :=
  match s with
  | c :: rest =>
      if isBacktick c then
        match takeWhile (fun d => negb (isBacktick d)) rest with
        | [] => false
        | _ :: _ =>
            match dropWhile (fun d => negb (isBacktick d)) rest with
            | _ :: _ => true
            | [] => false
            end
        end
      else false
  | [] => false
  end.

(** [\$.*\$] *)
Definition dollarMath (s : str) : bool :=
  match s with
  | c :: rest =>
      if eqc c "$"%char then existsb (eqc "$"%char) (restOfLine rest) else false
  | [] => false
  end.

(** [\\\(.*\\\)] *)
Definition parenMath (s : str) : bool :=
  match s with
  | c :: d :: rest =>
      if eqc c "\"%char && eqc d "("%char
      then includes (lit "\)") (restOfLine rest) else false
  | _ => false
  end.

(** [classifyContent] *)
Definition classifyContent (content : str) : str :=
  if matchesHeading content then HEADING
  else if atLineStart listMarker true content then LIST
  else if atLineStart tableRow true content then TABLE
  else if (if includes (lit "```") content then true else anywhere inlineCode content)
  then CODE
  else if atLineStart quoteMark true content then QUOTE
  else if (if anywhere dollarMath content then true else anywhere parenMath content)
  then FORMULA
  else PARAGRAPH.

Definition keyPhrases : list str :=
  map lit ["important"; "key"; "critical"; "essential"; "main"; "primary"]%string.

(** [calculateImportance], in doubles: the levels and the step 0.2 are the
    doubles nearest to the literals, and the sum and the difference are
    rounded. *)
Definition calculateImportance (content : str) (section : DocSection) : Q :=
  let importance := MEDIUM in
  let importance :=
    if bool_decide (sec_type section = HEADING) then HIGH else importance in
  let hasKeyPhrases :=
    existsb (fun phrase => includes phrase (toLowerCase content)) keyPhrases in
  let importance :=
    if hasKeyPhrases then Num.min (dadd importance (double 0.2)) CRITICAL
    else importance in
  let importance :=
    if (length content <? 100)%nat then Num.max (dsub importance (double 0.2)) MINIMAL
    else importance in
  importance.

Definition isLowerLetter (c : ascii) : bool :=
  let n := code c in ((97 <=? n) && (n <=? 122))%N.

Definition isVowel (c : ascii) : bool :=
  existsb (eqc c) ["a"; "e"; "i"; "o"; "u"]%char.

(** [s.replace(/[aeiou]{2,}/g, 'a')]: [run] holds the vowels just read,
    reversed. *)
Definition flushVowels (run : str) : str :=
  match run with
  | _ :: _ :: _ => ["a"%char]
  | _ => run
  end.

Fixpoint collapseVowels_go (run : str) (s : str) : str :=
  match s with
  | [] => flushVowels run
  | c :: s' =>
      if isVowel c then collapseVowels_go (c :: run) s'
      else flushVowels run ++ c :: collapseVowels_go [] s'
  end.

(** [countSyllables] *)
Definition countSyllables (text : str) : nat :=
  let letters := List.filter isLowerLetter (toLowerCase text) in
  let collapsed := collapseVowels_go [] letters in
  match length (List.filter isVowel collapsed) with
  | O => 1
  | n => n
  end.

(** [calculateReadability] *)
Definition calculateReadability (content : str) : Q :=
  let sentences := ofNat (length (split_runs isSentenceEnd content)) in
  let words := ofNat (length (split_ws content)) in
  let syllables := ofNat (countSyllables content) in
  let score := 206.835 - (1.015 * (words / sentences)) - (84.6 * (syllables / words)) in
  Num.max 0 (Num.min 100 score).

(** *** Chunks *)

(** Computations that read the clock: the state counts the readings. *)
Definition Clocked (A : Type) : Type := nat -> A * nat.

Section Chunker.

(** [clock k] is the [k]-th reading of the clock. *)
Variable clock : nat -> Z.

Definition dateNow : Clocked Z := fun k => (clock k, S k).

(** [createChunk].  The chunk identifier and [createdAt] are the two places
    where the clock is read. *)
Definition createChunk (content source : str) (metadata : CallerMetadata)
    (section : DocSection) (sectionIndex paragraphIndex chunkIndex : nat)
  : Clocked SemanticChunk :=
  fun k =>
    let tokens := estimateTokenCount content in
    let contentType := classifyContent content in
    let importance := calculateImportance content section in
    let '(now, k) := dateNow k in
    let readability := calculateReadability content in
    let '(createdAt, k) := dateNow k in
    ({| chunk_id := lit "chunk_" ++ lit (pretty chunkIndex) ++ lit "_" ++ lit (pretty now);
        chunk_content := content;
        chunk_tokens := tokens;
        chunk_contentType := contentType;
        chunk_importance := importance;
        chunk_position :=
          {| documentIndex := 0; sectionIndex := sectionIndex;
             paragraphIndex := paragraphIndex; startOffset := 0;
             endOffset := length content |};
        chunk_metadata :=
          {| cm_source := default source (given_source metadata);
             cm_title := Some (default (lit "Untitled") (given_title metadata));
             cm_section := Some (default (sec_title section) (given_section metadata));
             cm_readability := default readability (given_readability metadata);
             cm_language := default (lit "en") (given_language metadata);
             cm_createdAt := default createdAt (given_createdAt metadata) |};
        chunk_relationships := [] |}, k).

(** The loop of [chunkSection] over the paragraphs. *)
Fixpoint chunkSection_from (optimalSize : nat) (source : str) (metadata : CallerMetadata)
    (section : DocSection) (sectionIndex startChunkIndex : nat)
    (paragraphs : list str) (chunks : list SemanticChunk)
    (currentChunk : str) (currentTokens paragraphIndex : nat)
  : Clocked (list SemanticChunk) :=
  fun k =>
    match paragraphs with
    | [] =>
        if notBlank currentChunk then
          let '(chunk, k) :=
            createChunk (trim currentChunk) source metadata section sectionIndex
              paragraphIndex (startChunkIndex + length chunks) k in
          (chunks ++ [chunk], k)
        else (chunks, k)
    | paragraph :: rest =>
        let paragraphTokens := estimateTokenCount paragraph in
        let flush :=
          (optimalSize <? currentTokens + paragraphTokens)%nat
          && match currentChunk with [] => false | _ :: _ => true end in
        let '(chunks, currentChunk, currentTokens, k) :=
          if flush then
            let '(chunk, k) :=
              createChunk (trim currentChunk) source metadata section sectionIndex
                paragraphIndex (startChunkIndex + length chunks) k in
            (chunks ++ [chunk], [], 0%nat, k)
          else (chunks, currentChunk, currentTokens, k) in
        let currentChunk :=
          currentChunk
            ++ (match currentChunk with [] => [] | _ :: _ => [newline; newline] end)
            ++ paragraph in
        chunkSection_from optimalSize source metadata section sectionIndex
          startChunkIndex rest chunks currentChunk
          (currentTokens + paragraphTokens)%nat (S paragraphIndex) k
    end.

(** [chunkSection] *)
Definition chunkSection (section : DocSection) (source : str)
    (metadata : CallerMetadata) (sectionIndex startChunkIndex : nat)
  : Clocked (list SemanticChunk) :=
  fun k =>
    let content := trim (sec_content section) in
    match content with
    | [] => ([], k)
    | _ :: _ =>
        let paragraphs := List.filter notBlank (split_paragraphs content) in
        chunkSection_from (getOptimalChunkSize (sec_type section)) source metadata
          section sectionIndex startChunkIndex paragraphs [] [] 0 0 k
    end.

Definition siblingOf (target : SemanticChunk) : ChunkRelationship :=
  {| rel_type := sibling; targetChunkId := chunk_id target; strength := 0.8 |}.

Definition withRelationships (chunk : SemanticChunk) (rels : list ChunkRelationship)
  : SemanticChunk :=
  {| chunk_id := chunk_id chunk; chunk_content := chunk_content chunk;
     chunk_tokens := chunk_tokens chunk; chunk_contentType := chunk_contentType chunk;
     chunk_importance := chunk_importance chunk; chunk_position := chunk_position chunk;
     chunk_metadata := chunk_metadata chunk;
     chunk_relationships := chunk_relationships chunk ++ rels |}.

(** [addChunkRelationships]: [previous] is [chunks[i - 1]] when [i > 0]. *)
Fixpoint addChunkRelationships_from (previous : option SemanticChunk)
    (chunks : list SemanticChunk) : list SemanticChunk :=
  match chunks with
  | [] => []
  | chunk :: rest =>
      let before := match previous with Some p => [siblingOf p] | None => [] end in
      let after := match rest with next :: _ => [siblingOf next] | [] => [] end in
      withRelationships chunk (before ++ after)
        :: addChunkRelationships_from (Some chunk) rest
  end.

Definition addChunkRelationships (chunks : list SemanticChunk) : list SemanticChunk :=
  addChunkRelationships_from None chunks.

(** The loop of [semanticChunking] over the sections. *)
Fixpoint semanticChunking_from (source : str) (metadata : CallerMetadata)
    (sections : list DocSection) (sectionIndex : nat) (chunks : list SemanticChunk)
  : Clocked (list SemanticChunk) :=
  fun k =>
    match sections with
    | [] => (chunks, k)
    | section :: rest =>
        let '(sectionChunks, k) :=
          chunkSection section source metadata sectionIndex (length chunks) k in
        semanticChunking_from source metadata rest (S sectionIndex)
          (chunks ++ sectionChunks) k
    end.

(** [semanticChunking] *)
Definition semanticChunking (structure : DocumentStructure) (source : str)
    (metadata : CallerMetadata) : Clocked (list SemanticChunk) :=
  fun k =>
    let '(chunks, k) :=
      semanticChunking_from source metadata (ds_sections structure) 0 [] k in
    (addChunkRelationships chunks, k).

End Chunker.

(** *** Document structure *)

(** [line.replace(/^#\s*/, '')] *)
Definition stripTitleMark (line : str) : str :=
  match line with
  | c :: rest => if isHash c then dropWhile isSpace rest else line
  | [] => line
  end.

(** [line.match(/^(#{2,6})\s+(.+)$/)]: the level and the title. *)
Definition headerMatch (line : str) : option (nat * str) :=
  let hashes := takeWhile isHash line in
  let rest := dropWhile isHash line in
  let level := length hashes in
  if (2 <=? level)%nat && (level <=? 6)%nat then
    match takeWhile isSpace rest, dropWhile isSpace rest with
    | _ :: _, c :: t =>
        if forallb (fun d => negb (isLineTerminator d)) (c :: t)
        then Some (level, c :: t) else None
    | _, _ => None
    end
  else None.

(** [currentSection], the section pushed last, is changed in place. *)
Definition updateCurrent (f : DocSection -> DocSection) (sections : list DocSection)
  : list DocSection :=
  match rev sections with
  | [] => []
  | current :: before => rev before ++ [f current]
  end.

Definition addContent (line : str) (s : DocSection) : DocSection :=
  mkSection (sec_title s) (sec_level s) (sec_content s ++ line ++ [newline])
            (sec_subsections s) (sec_type s).

Definition addSubsection (sub : DocSection) (s : DocSection) : DocSection :=
  mkSection (sec_title s) (sec_level s) (sec_content s)
            (sec_subsections s ++ [sub]) (sec_type s).

(** The loop of [parseDocumentStructure] over the lines from index [i]. *)
Fixpoint parseLines (lines : list str) (i : nat) (title : str)
    (sections : list DocSection) : DocumentStructure :=
  match lines with
  | [] => {| ds_title := title; ds_sections := sections |}
  | raw :: rest =>
      let line := trim raw in
      match line with
      | [] => parseLines rest (S i) title sections
      | _ :: _ =>
          if (i =? 0)%nat || startsWith (lit "# ") line
          then parseLines rest (S i) (stripTitleMark line) sections
          else
            match headerMatch line with
            | Some (level, sectionTitle) =>
                let section := mkSection sectionTitle level [] [] HEADING in
                match sections with
                | [] => parseLines rest (S i) title (sections ++ [section])
                | _ :: _ =>
                    if (level =? 2)%nat
                    then parseLines rest (S i) title (sections ++ [section])
                    else parseLines rest (S i) title
                           (updateCurrent (addSubsection section) sections)
                end
            | None =>
                match sections with
                | [] =>
                    parseLines rest (S i) title
                      [addContent line (mkSection (lit "Content") 1 [] [] PARAGRAPH)]
                | _ :: _ =>
                    parseLines rest (S i) title (updateCurrent (addContent line) sections)
                end
            end
      end
  end.

(** [parseDocumentStructure] *)
Definition parseDocumentStructure (content : str) : DocumentStructure :=
  parseLines (split_lines content) 0 (lit "Untitled Document") [].

(** [chunkDocument] under [CHUNKING_CONFIG.strategy = 'semantic']. *)
Definition chunkDocument (clock : nat -> Z) (content source : str)
    (metadata : CallerMetadata) : Clocked (list SemanticChunk) :=
  semanticChunking clock (parseDocumentStructure content) source metadata.

(** *** Vocabulary of the properties *)

(** What a run of the chunker decides about a chunk: its boundaries (the
    text and where it sits) and its scores. *)
Definition boundariesAndScores (chunk : SemanticChunk)
  : str * nat * str * Q * Q * ChunkPosition :=
  (chunk_content chunk, chunk_tokens chunk, chunk_contentType chunk,
   chunk_importance chunk, cm_readability (chunk_metadata chunk),
   chunk_position chunk).

(** The estimated tokens of some paragraphs, as [chunkSection] adds them up. *)
Definition paragraphTokens (paragraphs : list str) : nat :=
  list_sum (map estimateTokenCount paragraphs).

(** A chunk of a section made of the given paragraphs. *)
Definition madeOf (paragraphs : list str) (chunk : SemanticChunk) : Prop :=
  paragraphs <> [] /\
  chunk_content chunk = trim (join [newline; newline] paragraphs) /\
  chunk_tokens chunk = estimateTokenCount (chunk_content chunk).

(** The paragraphs of a section, as [chunkSection] sees them. *)
Definition paragraphsOf (section : DocSection) : list str :=
  List.filter notBlank (split_paragraphs (trim (sec_content section))).

(** A chunk of the section is made of one paragraph, or of paragraphs whose
    estimated tokens add up to at most the optimal size. *)
Definition sized (optimalSize : nat) (all : list str) (chunk : SemanticChunk) : Prop :=
  exists paragraphs,
    madeOf paragraphs chunk /\
    (forall p, p ∈ paragraphs -> p ∈ all) /\
    (length paragraphs = 1 \/ paragraphTokens paragraphs <= optimalSize)%nat.

(** *** Sample data *)

Definition sampleClock (k : nat) : Z := (1700000000000 + Z.of_nat k)%Z.

Definition laterClock (k : nat) : Z := (1800000000000 + 7 * Z.of_nat k)%Z.

(** A title line followed by one paragraph of 500 words. *)
Definition longParagraphDocument : str :=
  lit "Field notes" ++ [newline]
  ++ concat (repeat (lit "lorem ipsum dolor sit amet ") 100).

Definition shortDocument : str :=
  lit "Release notes" ++ [newline] ++ lit "## Changes" ++ [newline]
  ++ lit "The parser is important. It now accepts tables." ++ [newline]
  ++ lit "## Fixes" ++ [newline] ++ lit "- one crash on empty input" ++ [newline].

End SemanticChunker.


(** ** Vocabulary of further properties *)

Module Hashing.

Import Retrieval.
Local Open Scope Z_scope.

(** The polynomial [s[0]*31^(n-1) + ... + s[n-1]] over the character codes. *)
Definition polynomialStep (h : Z) (c : ascii) : Z := 31 * h + Z.of_N (code c).

Definition polynomial31 (content : str) : Z := fold_left polynomialStep content 0.

End Hashing.

Module Searching.

Import Retrieval.
Local Open Scope Q_scope.

(** The test of [diversifyResults]: the texts of two results are more
    similar than the threshold allows. *)
Definition tooSimilar (threshold : Q) (a b : SearchResult) : Prop :=
  threshold < textSimilarity (sr_content a) (sr_content b).

(** No result of the list is too similar to a result before it. *)
Definition spread (threshold : Q) (l : list SearchResult) : Prop :=
  forall l1 b l2, l = l1 ++ b :: l2 -> Forall (fun a => ~ tooSimilar threshold b a) l1.


(** What post-processing leaves of a candidate: all but its final score. *)
Definition candidate (r : SearchResult)
  : str * str * str * DocumentMetadata * Q * nat * Z :=
  (sr_id r, sr_content r, sr_source r, sr_metadata r, sr_similarity r, sr_rank r,
   sr_created_at r).






End Searching.

(** ** Batches *)

Module Batches.

(** A list cut into consecutive pieces of [n] elements, the last one
    possibly shorter. *)
Fixpoint batchesOf_from {A} (fuel n : nat) (l : list A) : list (list A) :=
  match fuel with
  | O => []
  | S fuel' =>
      match l with
      | [] => []
      | _ :: _ => take n l :: batchesOf_from fuel' n (drop n l)
      end
  end.

Definition batchesOf {A} (n : nat) (l : list A) : list (list A) :=
  batchesOf_from (length l) n l.

End Batches.

Import Batches.

(** ** Uploading in batches ([SupabaseVectorService.uploadEmbeddings]) *)

Module Upload.

Import Retrieval.
Local Open Scope Q_scope.

(** [PROCESSING_CONFIG.BATCH_SIZES.UPLOADS] of [config/constants.ts] *)
Definition UPLOADS : nat := 100.

Record QualityDistribution := {
  high : nat;
  medium : nat;
  low : nat
}.

(** [UploadStatistics] *)
Record UploadStatistics := {
  totalDocuments : nat;
  totalTokens : nat;
  averageQuality : Q;
  processingTimeMs : Z;
  stat_duplicatesSkipped : nat;
  qualityDistribution : QualityDistribution
}.

(** [UploadResult] *)
Record UploadResult := {
  up_success : bool;
  up_uploaded : nat;
  up_failed : nat;
  up_errors : list str;
  up_uploadedIds : list str;
  statistics : UploadStatistics
}.

(** The variables of the loop of [uploadEmbeddings], and the delays slept. *)
Record Progress := {
  p_uploadedIds : list str;
  p_errors : list str;
  p_uploaded : nat;
  p_failed : nat;
  p_duplicatesSkipped : nat;
  p_qualityDistribution : QualityDistribution;
  p_totalQuality : Q;
  p_totalTokens : nat;
  p_slept : list Q
}.

Definition start : Progress :=
  {| p_uploadedIds := []; p_errors := []; p_uploaded := 0; p_failed := 0;
     p_duplicatesSkipped := 0;
     p_qualityDistribution := {| high := 0; medium := 0; low := 0 |};
     p_totalQuality := 0; p_totalTokens := 0; p_slept := [] |}.

(** The body of [batch.forEach] on the distribution. *)
Definition countQuality (d : QualityDistribution) (emb : EnhancedEmbedding)
  : QualityDistribution :=
  if leb 0.8 (overallScore (emb_quality emb))
  then {| high := S (high d); medium := medium d; low := low d |}
  else if leb 0.6 (overallScore (emb_quality emb))
  then {| high := high d; medium := S (medium d); low := low d |}
  else {| high := high d; medium := medium d; low := S (low d) |}.

(** One round of the loop for the batch that starts at index [i].
    [uploadBatch] handles the errors of the store itself, so the handler
    around its call is not entered. *)
Definition uploadRound (store : Store) (embeddings : list EnhancedEmbedding) (i : nat)
    (p : Progress) : Progress :=
  let batch := take UPLOADS (drop i embeddings) in
  let batchResult := uploadBatch store batch in
  {| p_uploadedIds := p_uploadedIds p ++ uploadedIds batchResult;
     p_errors := p_errors p ++ upload_errors batchResult;
     p_uploaded := p_uploaded p + uploaded batchResult;
     p_failed := p_failed p + failed batchResult;
     p_duplicatesSkipped := p_duplicatesSkipped p + duplicatesSkipped batchResult;
     p_qualityDistribution := fold_left countQuality batch (p_qualityDistribution p);
     p_totalQuality :=
       fold_left (fun total emb => total + overallScore (emb_quality emb)) batch
         (p_totalQuality p);
     p_totalTokens :=
       fold_left (fun total emb => (total + emb_tokens emb)%nat) batch (p_totalTokens p);
     p_slept :=
       if (i + UPLOADS <? length embeddings)%nat then p_slept p ++ [50] else p_slept p |}.

(** The loop [for (let i = 0; i < embeddings.length; i += batchSize)] from
    index [i]; [fuel] bounds the number of rounds. *)
Fixpoint uploadLoop (fuel : nat) (store : Store) (embeddings : list EnhancedEmbedding)
    (i : nat) (p : Progress) : Progress :=
  match fuel with
  | O => p
  | S fuel' =>
      if (i <? length embeddings)%nat
      then uploadLoop fuel' store embeddings (i + UPLOADS)
             (uploadRound store embeddings i p)
      else p
  end.

(** [uploadEmbeddings], called without a progress callback: the result and
    the delays slept.  [clock k] is the [k]-th reading of the clock.  For an
    empty list the average quality is a quotient of zero by zero, which the
    rationals give as zero. *)
Definition uploadEmbeddings (store : Store) (clock : nat -> Z)
    (embeddings : list EnhancedEmbedding) : UploadResult * list Q :=
  let startTime := clock 0%nat in
  let p := uploadLoop (length embeddings) store embeddings 0 start in
  let statistics :=
    {| totalDocuments := length embeddings;
       totalTokens := p_totalTokens p;
       averageQuality := p_totalQuality p / ofNat (length embeddings);
       processingTimeMs := (clock 1%nat - startTime)%Z;
       stat_duplicatesSkipped := p_duplicatesSkipped p;
       qualityDistribution := p_qualityDistribution p |} in
  ({| up_success := (0 <? p_uploaded p)%nat;
      up_uploaded := p_uploaded p;
      up_failed := p_failed p;
      up_errors := p_errors p;
      up_uploadedIds := p_uploadedIds p;
      statistics := statistics |}, p_slept p).

(** *** Vocabulary of the properties *)

(** A store that accepts every insertion and returns one identifier per
    record, and a store that refuses every insertion with [error]. *)
Definition accepts (store : Store) : Prop :=
  forall documents, exists ids,
    insert_select_id store documents = StoreData (Some ids) /\
    length ids = length documents.

Definition refuses (store : Store) (error : JsError) : Prop :=
  forall documents, insert_select_id store documents = StoreError error.

(** *** Sample data *)

Definition readOnlyStore : Store :=
  {| rpc_match_documents := fun _ _ _ => StoreData (Some []);
     select_all := fun _ => StoreData (Some []);
     insert_select_id := fun _ =>
       StoreError {| instanceofError := true; message := lit "permission denied" |} |}.

(** 250 embeddings over five texts. *)
Definition manyEmbeddings : list EnhancedEmbedding :=
  concat (repeat [ sampleEmbedding "e1" "one"; sampleEmbedding "e2" "two";
                   sampleEmbedding "e3" "three"; sampleEmbedding "e4" "four";
                   sampleEmbedding "e5" "five" ] 50).

End Upload.

(** ** Annotations of the embedding service *)

Module Annotations.

Import Embedding.
Local Open Scope Q_scope.

Definition positiveWords : list str :=
  map lit ["good"; "great"; "excellent"; "positive"; "success"; "effective"]%string.

Definition negativeWords : list str :=
  map lit ["bad"; "poor"; "negative"; "failure"; "problem"; "issue"]%string.

(** [words.filter(w => list.includes(w)).length] *)
Definition countIn (known : list str) (words : list str) : nat :=
  length (List.filter (fun w => bool_decide (w ∈ known)) words).

(** [analyzeSentiment] *)
Definition analyzeSentiment (text : str) : Q :=
  let words := split_ws (toLowerCase text) in
  let positive := countIn positiveWords words in
  let negative := countIn negativeWords words in
  if (positive + negative =? 0)%nat then 0
  else (ofNat positive - ofNat negative) / (ofNat positive + ofNat negative).

(** *** Vocabulary of the properties *)

(** The texts sent for a batch of chunks. *)
Definition textsOf (options : EmbeddingOptions) (chunks : list SemanticChunk) : list str :=
  map (fun chunk => optimizeTextForEmbedding options (chunk_content chunk)) chunks.

(** The sum of a list of delays. *)
Definition total (delays : list Q) : Q := fold_right Qplus 0 delays.

(** An endpoint that refuses every request. *)
Definition alwaysFails (k : nat) (input : list str) : ApiReply :=
  ApiThrows (newError "500 internal error").

End Annotations.

(** ** Chunking several documents ([chunkDocuments] of [textChunker.ts]) *)

Module Corpus.

Import TextChunker.

(** An element of the [documents] argument. *)
Record Document := {
  doc_content : str;
  doc_source : str
}.

(** [chunk.index = i] *)
Definition withIndex (chunk : TextChunk) (i : nat) : TextChunk :=
  {| content := content chunk; index := i; source := source chunk;
     startChar := startChar chunk; endChar := endChar chunk;
     tokenCount := tokenCount chunk; wordCount := wordCount chunk;
     chunkType := chunkType chunk; quality := quality chunk |}.

Section Chunking.

Variable encode : str -> option nat.

(** The loop of [chunkDocuments] over the documents. *)
Fixpoint chunkDocuments_from (documents : list Document) (options : ChunkingOptions)
    (allChunks : list TextChunk) (globalIndex : nat) : list TextChunk :=
  match documents with
  | [] => allChunks
  | doc :: rest =>
      let chunks := chunkText encode (doc_content doc) (doc_source doc) options in
      chunkDocuments_from rest options
        (allChunks ++ mapi_from (fun k chunk => withIndex chunk k) globalIndex chunks)
        (globalIndex + length chunks)
  end.

(** [chunkDocuments]; [options] is the option record as [chunkText] merges it. *)
Definition chunkDocuments (documents : list Document) (options : ChunkingOptions)
  : list TextChunk :=
  chunkDocuments_from documents options [] 0.

End Chunking.

(** *** Vocabulary of the properties *)

(** The order of two chunks of a text. *)
Definition before (a b : TextChunk) : Prop :=
  index a < index b /\ endChar a <= startChar b.

(** The lowest quality [calculateQuality] gives: the double [0.5 - 0.2 - 0.2]. *)
Definition lowestQuality : Q := dsub (dsub 0.5 (double 0.2)) (double 0.2).

(** A text in which every run of newlines that starts after [run] newlines
    stays shorter than three. *)
Fixpoint shortRuns (run : nat) (s : str) : bool :=
  match s with
  | [] => true
  | c :: s' =>
      if isNewline c then (S run <? 3) && shortRuns (S run) s' else shortRuns 0 s'
  end.

(** *** Sample data *)

Definition twoDocuments : list Document :=
  [ {| doc_content := fourSentences; doc_source := lit "a.md" |};
    {| doc_content := lit "One short note."; doc_source := lit "b.md" |} ].

End Corpus.

(** ** Vocabulary for the semantic chunker *)

Module Outline.

Import Config SemanticChunker.

(** The lines of a document that are neither blank, nor a title line, nor a
    section header: the lines [parseDocumentStructure] files as content.
    [i] is the index of the first line. *)
Fixpoint bodyLines_from (i : nat) (lines : list str) : list str :=
  match lines with
  | [] => []
  | raw :: rest =>
      let line := trim raw in
      let later := bodyLines_from (S i) rest in
      match line with
      | [] => later
      | _ :: _ =>
          if (i =? 0) || startsWith (lit "# ") line then later
          else match headerMatch line with
               | Some _ => later
               | None => line :: later
               end
      end
  end.

Definition bodyLines (content : str) : list str :=
  bodyLines_from 0 (split_lines content).

(** A subsection as the parser leaves it: a title without content. *)
Definition bare (s : DocSection) : Prop :=
  sec_content s = [] /\ sec_subsections s = [].

(** Top-level sections whose subsections are all bare. *)
Definition flat (sections : list DocSection) : Prop :=
  Forall (fun s => Forall bare (sec_subsections s)) sections.

(** Top-level sections as the parser opens them: under a header, or the
    default section [Content]. *)
Definition headed (sections : list DocSection) : Prop :=
  Forall (fun s => sec_type s = HEADING
                   \/ (sec_title s = lit "Content" /\ sec_level s = 1
                       /\ sec_type s = PARAGRAPH)) sections.

(** The relationships the chunk at index [i] receives: one to the chunk
    before it and one to the chunk after it, where they exist. *)
Definition neighbours (chunks : list SemanticChunk) (i : nat) : list ChunkRelationship :=
  match i with
  | O => []
  | S j => match chunks !! j with Some p => [siblingOf p] | None => [] end
  end
  ++ match chunks !! S i with Some n => [siblingOf n] | None => [] end.

(** The identifier of the chunk created with index [i] at time [t]. *)
Definition chunkIdentifier (i : nat) (t : Z) : str :=
  lit "chunk_" ++ lit (pretty i) ++ lit "_" ++ lit (pretty t).

(** What [createChunk] measures on the text of a chunk. *)
Definition measured (chunk : SemanticChunk) : Prop :=
  chunk_content chunk <> [] /\
  trim (chunk_content chunk) = chunk_content chunk /\
  chunk_tokens chunk = estimateTokenCount (chunk_content chunk) /\
  chunk_contentType chunk = classifyContent (chunk_content chunk) /\
  startOffset (chunk_position chunk) = 0 /\
  endOffset (chunk_position chunk) = length (chunk_content chunk).

(** The chunks carry the identifiers of the positions [first], [first + 1],
    ... and of every second reading of the clock from the [k]-th on: a chunk
    reads the clock twice, for its identifier and for [createdAt]. *)
Definition identified (clock : nat -> Z) (first k : nat) (chunks : list SemanticChunk)
  : Prop :=
  forall j c, chunks !! j = Some c ->
    chunk_id c = chunkIdentifier (first + j) (clock (k + 2 * j)).

Definition isDigit (c : ascii) : bool :=
  let n := code c in ((48 <=? n) && (n <=? 57))%N.

(** A string of decimal digits. *)
Definition digits (s : str) : Prop := Forall (fun c => isDigit c = true) s.

End Outline.

(** * Properties *)

(** ** The operations of the language, on small inputs *)

Module Checks.

Example split_on_white_space :
  split_ws (lit " a  b c ") = [lit ""; lit "a"; lit "b"; lit "c"; lit ""]
  /\ split_ws (lit "") = [lit ""].
Proof. split; reflexivity. Qed.

Example split_on_blank_lines :
  split_paragraphs (lit "one" ++ [newline; space; newline; space] ++ lit "two"
                    ++ [newline] ++ lit "three" ++ [newline; newline] ++ lit "four")
  = [lit "one"; [space] ++ lit "two" ++ [newline] ++ lit "three"; lit "four"].
Proof. reflexivity. Qed.

Example split_after_sentence_ends :
  split_sentences (lit "Hi there. How are you?  Fine. ")
  = [lit "Hi there."; lit "How are you?"; lit "Fine."; lit ""]
  /\ split_sentences (lit "No. 5 is 2.5 times") = [lit "No."; lit "5 is 2.5 times"].
Proof. split; reflexivity. Qed.

Example normalised_newlines :
  collapseNewlines (replaceCR (replaceCRLF
    (lit "a" ++ [carriageReturn; newline; carriageReturn; newline; carriageReturn]
     ++ lit "b")))
  = lit "a" ++ [newline; newline] ++ lit "b".
Proof. reflexivity. Qed.

Example slices :
  slice0 [1; 2; 3]%nat 2 = [1; 2]%nat /\ slice0 [1; 2; 3]%nat 5 = [1; 2; 3]%nat
  /\ slice0 [1; 2; 3]%nat (-1) = [1; 2]%nat /\ slice0 [1; 2; 3]%nat (-7) = [].
Proof. repeat split; reflexivity. Qed.

Example sort_is_stable :
  sortBy (descending (fun p : Q * string => fst p))
    [(1%Q, "a"); (3%Q, "b"); (1%Q, "c"); (3%Q, "d"); (2%Q, "e")]%string
  = [(3%Q, "b"); (3%Q, "d"); (2%Q, "e"); (1%Q, "a"); (1%Q, "c")]%string.
Proof. vm_compute. reflexivity. Qed.

Example doubles :
  (double 0.1 == 3602879701896397 # 36028797018963968 /\
   double 0.3 == 5404319552844595 # 18014398509481984 /\
   dadd (double 0.1) (double 0.2) == 1351079888211149 # 4503599627370496 /\
   dsub (dsub 0.5 (double 0.2)) (double 0.2) == 900719925474099 # 9007199254740992 /\
   ddiv 1 3 == 6004799503160661 # 18014398509481984 /\
   double (1 # 2 ^ 1075) == 0 /\ double (3 # 2 ^ 1075) == 1 # 2 ^ 1073)%Q.
Proof. repeat split; apply Qeq_bool_iff; vm_compute; reflexivity. Qed.

Example boosts :
  Retrieval.boostLookup (bf_contentType Retrieval.defaultBoostFactors)
    (Some (lit "heading")) = Finite 1.4
  /\ Retrieval.boostLookup (bf_contentType Retrieval.defaultBoostFactors) None
     = Finite 1
  /\ Retrieval.boostLookup (bf_source Retrieval.defaultBoostFactors)
       (Some (lit "notes.md")) = Finite 1
  /\ Retrieval.boostLookup (bf_source Retrieval.defaultBoostFactors)
       (Some (lit "constructor")) = NaN
  /\ Retrieval.boostLookup (<[lit "toString" := 0%Q]> ∅) (Some (lit "toString"))
     = Finite 1.
Proof. repeat split; vm_compute; reflexivity. Qed.

Example hash_of_hello :
  Retrieval.hashContent (lit "hello") = 99162322%Z
  /\ Retrieval.hashContent (lit "hello world, this is a long string to overflow")
     = (-208008591)%Z.
Proof. split; vm_compute; reflexivity. Qed.

Example content_types :
  map SemanticChunker.classifyContent
    [lit "## Title"; lit "- item"; lit "| a | b |"; lit "use `x` here";
     lit "> quoted"; lit "cost is $5 or $6"; lit "plain text"; lit "a | b | c"]
  = [Config.HEADING; Config.LIST; Config.TABLE; Config.CODE; Config.QUOTE;
     Config.FORMULA; Config.PARAGRAPH; Config.PARAGRAPH].
Proof. vm_compute. reflexivity. Qed.

Example headers :
  SemanticChunker.headerMatch (lit "## Changes") = Some (2, lit "Changes")
  /\ SemanticChunker.headerMatch (lit "###   Deep  one") = Some (3, lit "Deep  one")
  /\ SemanticChunker.headerMatch (lit "# Title") = None
  /\ SemanticChunker.headerMatch (lit "####### seven") = None
  /\ SemanticChunker.headerMatch (lit "##nospace") = None.
Proof. repeat split; reflexivity. Qed.

Example structure_of_a_document :
  map (fun s => (SemanticChunker.sec_title s, SemanticChunker.sec_content s))
    (SemanticChunker.ds_sections
       (SemanticChunker.parseDocumentStructure SemanticChunker.shortDocument))
  = [ (lit "Changes",
       lit "The parser is important. It now accepts tables." ++ [newline]);
      (lit "Fixes", lit "- one crash on empty input" ++ [newline]) ].
Proof. vm_compute. reflexivity. Qed.

End Checks.


(** ** Numbers and arrays *)

Module NumFacts.

Local Open Scope Q_scope.

Lemma ltb_lt a b : ltb a b = true <-> a < b.
Proof.
  unfold ltb. rewrite negb_true_iff.
  destruct (Qle_bool b a) eqn:E.
  - apply Qle_bool_iff in E. split; [discriminate | lra].
  - split; [intros _ | reflexivity].
    apply Qnot_le_lt. intros H. apply Qle_bool_iff in H. congruence.
Qed.

Lemma leb_le a b : leb a b = true <-> a <= b.
Proof. apply Qle_bool_iff. Qed.

Lemma leb_gt a b : leb a b = false <-> b < a.
Proof.
  unfold leb. destruct (Qle_bool a b) eqn:E.
  - apply Qle_bool_iff in E. split; [discriminate | lra].
  - split; [intros _ | reflexivity].
    apply Qnot_le_lt. intros H. apply Qle_bool_iff in H. congruence.
Qed.

Lemma eqb_eq a b : eqb a b = true <-> a == b.
Proof. apply Qeq_bool_iff. Qed.

End NumFacts.

Module ArrFacts.

Import NumFacts.
Local Open Scope Q_scope.

Section Sorting.

Context {A : Type} (key : A -> Q).

Lemma insertBy_Permutation (cmp : A -> A -> Q) x l :
  Permutation (insertBy cmp x l) (x :: l).
Proof.
  induction l as [|y l IH]; simpl; [reflexivity|].
  destruct (leb (cmp x y) 0); [reflexivity|].
  rewrite IH. apply perm_swap.
Qed.

Lemma sortBy_Permutation (cmp : A -> A -> Q) l : Permutation (sortBy cmp l) l.
Proof.
  induction l as [|x l IH]; simpl; [reflexivity|].
  rewrite insertBy_Permutation. now rewrite IH.
Qed.

Lemma insertBy_sorted x l :
  StronglySorted (notBelow key) l ->
  StronglySorted (notBelow key) (insertBy (descending key) x l).
Proof.
  induction 1 as [|y l Hl IH Hy]; simpl.
  - repeat constructor.
  - unfold descending at 1.
    destruct (leb (key y - key x) 0) eqn:E.
    + apply leb_le in E.
      constructor; [now constructor|].
      constructor; [unfold notBelow; lra|].
      eapply Forall_impl; [exact Hy|].
      unfold notBelow. intros z Hz. lra.
    + apply leb_gt in E.
      constructor; [exact IH|].
      rewrite (insertBy_Permutation (descending key) x l).
      constructor; [unfold notBelow; lra | exact Hy].
Qed.

Lemma sortBy_sorted l : StronglySorted (notBelow key) (sortBy (descending key) l).
Proof.
  induction l as [|x l IH]; simpl; [constructor | now apply insertBy_sorted].
Qed.

Lemma StronglySorted_take (R : A -> A -> Prop) n l :
  StronglySorted R l -> StronglySorted R (take n l).
Proof.
  intros H. rewrite <- (take_drop n l) in H.
  now apply StronglySorted_app_1_l in H.
Qed.

End Sorting.

Lemma slice0_sublist {A} (l : list A) e : slice0 l e `sublist_of` l.
Proof. apply sublist_take. Qed.

Lemma slice0_length {A} (l : list A) e :
  (0 <= e)%Z -> (Z.of_nat (length (slice0 l e)) <= e)%Z.
Proof.
  intros He. unfold slice0. rewrite length_take.
  destruct (e <? 0)%Z eqn:E; lia.
Qed.

Lemma mapi_from_fmap {A B C} (f : nat -> A -> B) (g : B -> C) (h : A -> C) i l :
  (forall j x, g (f j x) = h x) -> map g (mapi_from f i l) = map h l.
Proof.
  intros Hf. revert i. induction l as [|x l IH]; intros i; simpl; [reflexivity|].
  now rewrite Hf, IH.
Qed.

Lemma filter_sublist {A} (p : A -> bool) l : List.filter p l `sublist_of` l.
Proof.
  induction l as [|x l IH]; simpl; [constructor|].
  destruct (p x); now constructor.
Qed.

Lemma mapi_from_Forall {A B} (P : A -> Prop) (R : B -> Prop) (f : nat -> A -> B) :
  (forall i x, P x -> R (f i x)) ->
  forall l i, Forall P l -> Forall R (mapi_from f i l).
Proof.
  intros Hf l. induction l as [|x l IH]; intros i Hl; [constructor|].
  apply Forall_cons in Hl as [Hx Hl]. simpl. constructor; [now apply Hf | now apply IH].
Qed.

Lemma omap_lookup_positions {A} (before l : list A) :
  omap (fun i => (before ++ l) !! i) (seq (length before) (length l)) = l.
Proof.
  revert before. induction l as [|x l IH]; intros before; [reflexivity|].
  simpl.
  rewrite (lookup_app_r before (x :: l)) by lia. rewrite Nat.sub_diag. simpl.
  f_equal. specialize (IH (before ++ [x])).
  rewrite length_app, <- app_assoc in IH. simpl in IH.
  rewrite Nat.add_1_r in IH. exact IH.
Qed.

(** [reorder] returns the elements it is given. *)
Lemma reorder_Permutation {A} (positions : list nat) (l : list A) :
  reorder positions l ≡ₚ l.
Proof.
  unfold reorder. case_bool_decide as H; [|reflexivity].
  rewrite H. pose proof (omap_lookup_positions [] l) as E. simpl in E. now rewrite E.
Qed.

End ArrFacts.


(** ** The vector store service *)

Module RetrievalFacts.

Import Retrieval NumFacts ArrFacts.
Local Open Scope Q_scope.

(** *** Diversification *)

Lemma diversify_from_app threshold results : forall diversified,
  exists kept,
    diversify_from threshold diversified results = diversified ++ kept /\
    kept `sublist_of` results.
Proof.
  induction results as [|result rest IH]; intros diversified; simpl.
  - exists []. split; [now rewrite app_nil_r | constructor].
  - destruct (negb (existsb _ diversified)).
    + destruct (IH (diversified ++ [result])) as (kept & -> & Hsub).
      exists (result :: kept). split; [now rewrite <- app_assoc | now constructor].
    + destruct (IH diversified) as (kept & -> & Hsub).
      exists kept. split; [reflexivity | now constructor].
Qed.

Lemma diversifyResults_sublist results threshold :
  diversifyResults results threshold `sublist_of` results.
Proof.
  unfold diversifyResults.
  destruct (diversify_from_app threshold results []) as (kept & -> & Hsub).
  exact Hsub.
Qed.

(** C10.  [diversifyResults] returns its input with some elements removed and
    the order kept, and the first element of a non-empty input is the first
    element of the output. *)
Theorem diversifyResults_keeps_order_and_top :
  (forall results threshold,
     diversifyResults results threshold `sublist_of` results) /\
  (forall top rest threshold,
     head (diversifyResults (top :: rest) threshold) = Some top).
Proof.
  split; [apply diversifyResults_sublist|].
  intros top rest threshold. unfold diversifyResults. simpl.
  destruct (diversify_from_app threshold rest [top]) as (kept & -> & _).
  reflexivity.
Qed.

(** *** Cosine similarity *)

(** With equal lengths every read [a[i]], [b[i]] of the loop is in range:
    the loop goes through the pairs of entries. *)
Lemma cosine_loop_pairs a b : forall pa pb acc,
  length pa = length pb -> length a = length b ->
  fold_left (cosineStep (pa ++ a) (pb ++ b)) (seq (length pa) (length a)) acc
  = fold_left pairStep (combine a b) acc.
Proof.
  revert b. induction a as [|x a IH]; intros [|y b] pa pb acc Hp Hl;
    simpl in *; try discriminate; [reflexivity|].
  unfold cosineStep at 2. destruct acc as [[d na] nb].
  rewrite nth_middle.
  replace (nth (length pa) (pb ++ y :: b) 0) with y
    by (rewrite Hp; symmetry; apply nth_middle).
  specialize (IH b (pa ++ [x]) (pb ++ [y]) (pairStep (d, na, nb) (x, y))).
  rewrite <- !app_assoc in IH. simpl in IH.
  rewrite length_app in IH. simpl in IH.
  replace (length pa + 1)%nat with (S (length pa)) in IH by lia.
  apply IH; [rewrite !length_app; simpl; lia | lia].
Qed.

Lemma cosineSums_pairs a b :
  length a = length b -> cosineSums a b = fold_left pairStep (combine a b) (0, 0, 0).
Proof. intros H. apply (cosine_loop_pairs a b [] []); auto. Qed.

Lemma pairs_norms a : forall b d na nb,
  length a = length b ->
  let '(_, normA, normB) := fold_left pairStep (combine a b) (d, na, nb) in
  normA == na + sumSquares a /\ normB == nb + sumSquares b.
Proof.
  induction a as [|x a IH]; intros [|y b] d na nb Hl; simpl in *; try discriminate.
  - split; lra.
  - specialize (IH b (d + x * y) (na + x * x) (nb + y * y)).
    destruct (fold_left pairStep (combine a b) _) as [[d' na'] nb'].
    destruct IH as [Ha Hb]; [lia|]. split; lra.
Qed.

Lemma cosineSums_norms a b :
  length a = length b ->
  let '(_, normA, normB) := cosineSums a b in
  normA == sumSquares a /\ normB == sumSquares b.
Proof.
  intros H. rewrite (cosineSums_pairs a b H).
  pose proof (pairs_norms a b 0 0 0 H) as P.
  destruct (fold_left pairStep (combine a b) _) as [[d na] nb].
  destruct P as [Ha Hb]. split; lra.
Qed.

Lemma sumSquares_nonneg a : 0 <= sumSquares a.
Proof.
  induction a as [|x a IH]; simpl; [lra|].
  assert (0 <= x * x) by (destruct (Qlt_le_dec x 0); nra). lra.
Qed.

(** A vector has zero norm exactly when all its entries are zero. *)
Lemma sumSquares_zero a : sumSquares a == 0 <-> Forall (fun x => x == 0) a.
Proof.
  induction a as [|x a IH]; simpl.
  - split; [constructor | reflexivity].
  - pose proof (sumSquares_nonneg a) as Hn.
    assert (Hx : 0 <= x * x) by (destruct (Qlt_le_dec x 0); nra).
    split.
    + intros H. assert (Hxx : x * x == 0) by lra.
      assert (Ha : sumSquares a == 0) by lra.
      constructor; [|now apply IH].
      destruct (Qmult_integral _ _ Hxx); assumption.
    + intros H. inversion H as [|? ? Hx0 Ha]; subst.
      apply IH in Ha. rewrite Hx0, Ha. lra.
Qed.

(** C9.  [cosineSimilarity] is a total function on number vectors, and its
    value is exactly [0] when the lengths differ or one of the vectors has
    zero norm. *)
Theorem cosineSimilarity_guards (sqrt : Q -> Q) (a b : list Q)
  (H : length a <> length b \/ sumSquares a == 0 \/ sumSquares b == 0) :
  cosineSimilarity sqrt a b = 0.
Proof.
  unfold cosineSimilarity.
  destruct (length a =? length b)%nat eqn:E; simpl; [|reflexivity].
  apply Nat.eqb_eq in E.
  pose proof (cosineSums_norms a b E) as P.
  destruct (cosineSums a b) as [[d na] nb]. destruct P as [Ha Hb].
  destruct H as [H | [H | H]]; [contradiction | |].
  - assert (Hz : eqb na 0 = true) by (apply eqb_eq; lra).
    now rewrite Hz.
  - assert (Hz : eqb nb 0 = true) by (apply eqb_eq; lra).
    rewrite Hz. now rewrite orb_true_r.
Qed.

Lemma cosineSimilarity_guards_witness :
  cosineSimilarity (fun x => x) [0; 0] [3; 4] = 0 /\
  cosineSimilarity (fun x => x) [1; 2] [3] = 0.
Proof.
  split.
  - apply cosineSimilarity_guards. right. left. reflexivity.
  - apply cosineSimilarity_guards. left. simpl. lia.
Defined.


(** *** Upload *)

Lemma filterDuplicates_from_spec documents : forall seen unique,
  (forall h, h ∈ seen <-> h ∈ map contentKey unique) ->
  NoDup (map contentKey unique) ->
  exists kept,
    filterDuplicates_from seen unique documents = unique ++ kept /\
    kept `sublist_of` documents /\
    NoDup (map contentKey (unique ++ kept)) /\
    (forall h, h ∈ map contentKey documents -> h ∈ map contentKey (unique ++ kept)).
Proof.
  induction documents as [|doc rest IH]; intros seen unique Hseen Hnd; simpl.
  - exists []. rewrite app_nil_r.
    split; [reflexivity|]. split; [constructor|]. split; [exact Hnd|].
    intros h Hh. inversion Hh.
  - fold (contentKey doc). destruct (decide (contentKey doc ∈ seen)) as [Hin|Hout].
    + destruct (IH seen unique Hseen Hnd) as (kept & -> & Hsub & Hnd' & Hall).
      exists kept.
      split; [reflexivity|]. split; [now constructor|]. split; [exact Hnd'|].
      intros h Hh. apply elem_of_cons in Hh as [->|Hh]; [|now apply Hall].
      rewrite map_app. apply elem_of_app. left. now apply Hseen.
    + destruct (IH ({[contentKey doc]} ∪ seen) (unique ++ [doc])) as (kept & -> & Hsub & Hnd' & Hall).
      * intros h. rewrite map_app, elem_of_app, elem_of_union, elem_of_singleton. simpl.
        rewrite list_elem_of_singleton, Hseen. tauto.
      * rewrite map_app. apply NoDup_app.
        split; [exact Hnd|]. split; [|simpl; apply NoDup_singleton].
        intros h Hh Hh'. simpl in Hh'. apply list_elem_of_singleton in Hh' as ->.
        apply Hout, Hseen, Hh.
      * exists (doc :: kept). rewrite <- app_assoc in *. simpl in *.
        split; [reflexivity|]. split; [now constructor|]. split; [exact Hnd'|].
        intros h Hh. apply elem_of_cons in Hh as [->|Hh]; [|now apply Hall].
        rewrite map_app. apply elem_of_app. right. simpl. left.
Qed.

Lemma filterDuplicates_spec documents :
  filterDuplicates documents `sublist_of` documents /\
  NoDup (map contentKey (filterDuplicates documents)) /\
  (forall h, h ∈ map contentKey documents ->
             h ∈ map contentKey (filterDuplicates documents)).
Proof.
  unfold filterDuplicates.
  destruct (filterDuplicates_from_spec documents ∅ []) as (kept & -> & Hsub & Hnd & Hall).
  - intros h. simpl. rewrite elem_of_nil. set_solver.
  - constructor.
  - simpl in *. auto.
Qed.






(** *** Ranking *)

Section Ranking.

Variable sqrt : Q -> Q.
Variable clock : nat -> Z.
Variable engineOrder : list JsNumber -> list nat.

Lemma rerankResults_ids results :
  map sr_id (rerankResults clock results) = map sr_id results.
Proof. apply mapi_from_fmap. reflexivity. Qed.

Lemma applyBoostFactors_ids results boostFactors :
  map sr_id (applyBoostFactors results boostFactors) = map sr_id results.
Proof. unfold applyBoostFactors. rewrite map_map. reflexivity. Qed.

Lemma NoDup_ids_sublist (l k : list SearchResult) :
  l `sublist_of` k -> NoDup (map sr_id k) -> NoDup (map sr_id l).
Proof.
  intros Hsub Hnd.
  apply (sublist_NoDup _ _ Hnd (fmap_sublist sr_id _ _ Hsub)).
Qed.

Lemma NoDup_ids_sortBy (cmp : SearchResult -> SearchResult -> Q) l :
  NoDup (map sr_id l) -> NoDup (map sr_id (sortBy cmp l)).
Proof.
  intros H. eapply NoDup_Permutation_proper; [|exact H].
  apply (fmap_Permutation sr_id), sortBy_Permutation.
Qed.

(** The final sort returns the results it is given, in some order. *)
Lemma sortByScore_Permutation results : sortByScore engineOrder results ≡ₚ results.
Proof.
  unfold sortByScore.
  destruct (forallb _ results); [apply sortBy_Permutation | apply reorder_Permutation].
Qed.

Lemma NoDup_ids_sortByScore l :
  NoDup (map sr_id l) -> NoDup (map sr_id (sortByScore engineOrder l)).
Proof.
  intros H. eapply NoDup_Permutation_proper; [|exact H].
  apply (fmap_Permutation sr_id), sortByScore_Permutation.
Qed.

Lemma sorted_numbers (l : list SearchResult) :
  Forall (fun r => isNumber (sr_relevanceScore r) = true) l ->
  StronglySorted (notBelow (fun r => numberOf (sr_relevanceScore r))) l ->
  StronglySorted scoreNotBelow l.
Proof.
  intros Hn Hs. induction Hs as [|a l Hs IH Ha]; [constructor|].
  apply Forall_cons in Hn as [Hna Hnl].
  constructor; [apply IH, Hnl|].
  rewrite Forall_forall in Ha, Hnl. apply Forall_forall. intros b Hb.
  specialize (Ha b Hb). specialize (Hnl b Hb).
  unfold scoreNotBelow, notBelow in *.
  destruct (sr_relevanceScore a), (sr_relevanceScore b); try discriminate. exact Ha.
Qed.

(** When every score is a number the final sort is the descending sort. *)
Lemma sortByScore_sorted results :
  Forall (fun r => isNumber (sr_relevanceScore r) = true) results ->
  StronglySorted scoreNotBelow (sortByScore engineOrder results).
Proof.
  intros Hn. unfold sortByScore.
  assert (E : forallb (fun r => isNumber (sr_relevanceScore r)) results = true).
  { apply forallb_forall. intros r Hr. rewrite Forall_forall in Hn.
    apply Hn, list_elem_of_In, Hr. }
  rewrite E. apply sorted_numbers; [|apply sortBy_sorted].
  now rewrite sortBy_Permutation.
Qed.

(** A list with a [NaN] score and another element is not in descending
    order, however it is arranged. *)
Lemma unsorted_with_NaN (l : list SearchResult) (r : SearchResult) :
  r ∈ l -> sr_relevanceScore r = NaN -> (2 <= length l)%nat ->
  ~ StronglySorted scoreNotBelow l.
Proof.
  intros Hr Hnan Hlen Hs.
  apply list_elem_of_split in Hr as (l1 & l2 & ->).
  destruct l1 as [|a l1].
  - destruct l2 as [|b l2]; [simpl in Hlen; lia|].
    simpl in Hs. apply StronglySorted_inv in Hs as [_ Hall].
    apply Forall_cons in Hall as [Hb _].
    unfold scoreNotBelow in Hb. now rewrite Hnan in Hb.
  - simpl in Hs. apply StronglySorted_inv in Hs as [_ Hall].
    rewrite Forall_forall in Hall.
    assert (Ha : scoreNotBelow a r).
    { apply Hall. apply elem_of_app. right. left. }
    unfold scoreNotBelow in Ha. rewrite Hnan in Ha. now destruct (sr_relevanceScore a).
Qed.

(** *** Scores that are numbers *)

Lemma rerankResults_numeric boostFactors results :
  Forall (numeric boostFactors) results ->
  Forall (numeric boostFactors) (rerankResults clock results).
Proof.
  apply mapi_from_Forall. intros i x [_ H]. split; [reflexivity | exact H].
Qed.

Lemma sublist_numeric boostFactors (l k : list SearchResult) :
  l `sublist_of` k -> Forall (numeric boostFactors) k -> Forall (numeric boostFactors) l.
Proof.
  intros Hsub Hk. rewrite Forall_forall in Hk. apply Forall_forall.
  intros r Hr. apply Hk. eapply elem_of_sublist; eauto.
Qed.

Lemma applyBoostFactors_numbers boostFactors results :
  Forall (numeric boostFactors) results ->
  Forall (fun r => isNumber (sr_relevanceScore r) = true)
         (applyBoostFactors results boostFactors).
Proof.
  intros H. unfold applyBoostFactors.
  change (map (boostOne boostFactors) results) with (boostOne boostFactors <$> results).
  apply Forall_fmap. eapply Forall_impl; [exact H|].
  intros r (Hn & Hc & Hs). unfold boostOne. cbn.
  destruct (sr_relevanceScore r); [|discriminate].
  destruct (boostLookup (bf_contentType boostFactors) _); [|congruence].
  destruct (boostLookup (bf_source boostFactors) _); [|congruence].
  destruct (dm_overallQuality (sr_metadata r)) as [quality|]; [|reflexivity].
  simpl. destruct (negb (eqb quality 0)); reflexivity.
Qed.

Lemma candidates_numeric store queryEmbedding options results :
  vectorSimilaritySearch sqrt store queryEmbedding options = Some results ->
  numericCandidates store queryEmbedding options ->
  Forall (numeric (so_boostFactors options)) results.
Proof.
  unfold vectorSimilaritySearch. intros H [Hrpc Hsel].
  destruct (rpc_match_documents store queryEmbedding _ _) as [m|data] eqn:E.
  - unfold fallbackSimilaritySearch in H.
    destruct (select_all store 1000) as [m'|[documents|]] eqn:E'; try discriminate.
    injection H as <-.
    apply (mapi_from_Forall (numeric (so_boostFactors options))); [intros i x Hx; exact Hx|].
    eapply sublist_numeric; [apply slice0_sublist|].
    rewrite sortBy_Permutation.
    eapply sublist_numeric; [apply filter_sublist|].
    change (map ?f documents) with (f <$> documents).
    apply Forall_fmap. eapply Forall_impl; [apply (Hsel documents eq_refl)|].
    intros d Hd. split; [reflexivity | exact Hd].
  - injection H as <-. destruct data as [rows|]; [|constructor].
    apply (mapi_from_Forall (fun row => readsNumbers (so_boostFactors options)
                                          (mr_source row) (mr_metadata row)));
      [|apply (Hrpc rows eq_refl)].
    intros i row Hrow. split; [reflexivity | exact Hrow].
Qed.

Lemma boosted_numbers store queryEmbedding searchOpts :
  numericCandidates store queryEmbedding searchOpts ->
  Forall (fun r => isNumber (sr_relevanceScore r) = true)
         (boosted sqrt clock store queryEmbedding searchOpts).
Proof.
  intros Hnum. unfold boosted.
  destruct (vectorSimilaritySearch sqrt store queryEmbedding searchOpts)
    as [vectorResults|] eqn:E; [|constructor].
  pose proof (candidates_numeric _ _ _ _ E Hnum) as H0.
  cbv zeta. apply applyBoostFactors_numbers.
  assert (H1 : Forall (numeric (so_boostFactors searchOpts))
            (if so_rerankResults searchOpts then rerankResults clock vectorResults
             else vectorResults)).
  { destruct (so_rerankResults searchOpts); [now apply rerankResults_numeric | exact H0]. }
  destruct (ltb 0 (so_diversityThreshold searchOpts)); [|exact H1].
  eapply sublist_numeric; [apply diversifyResults_sublist | exact H1].
Qed.

(** [similaritySearch] sorts the list [boosted] and cuts it at the limit. *)
Lemma similaritySearch_boosted store queryEmbedding searchOpts :
  similaritySearch sqrt clock engineOrder store queryEmbedding searchOpts
  = match vectorSimilaritySearch sqrt store queryEmbedding searchOpts with
    | None => []
    | Some _ =>
        slice0 (sortByScore engineOrder (boosted sqrt clock store queryEmbedding searchOpts))
               (so_limit searchOpts)
    end.
Proof.
  unfold similaritySearch, boosted.
  destruct (vectorSimilaritySearch sqrt store queryEmbedding searchOpts); reflexivity.
Qed.

Lemma fallback_ids store queryEmbedding options results :
  fallbackSimilaritySearch sqrt store queryEmbedding options = Some results ->
  (forall documents,
     select_all store 1000 = StoreData (Some documents) -> NoDup (map vd_id documents)) ->
  NoDup (map sr_id results).
Proof.
  unfold fallbackSimilaritySearch. intros H Hsel.
  destruct (select_all store 1000) as [m|[documents|]]; try discriminate.
  injection H as <-.
  unfold mapi. rewrite (mapi_from_fmap setRank sr_id sr_id) by reflexivity.
  eapply NoDup_ids_sublist; [apply slice0_sublist|].
  apply NoDup_ids_sortBy.
  eapply NoDup_ids_sublist; [apply filter_sublist|].
  rewrite map_map. simpl. apply (Hsel documents eq_refl).
Qed.

Lemma candidates_ids store queryEmbedding options results :
  vectorSimilaritySearch sqrt store queryEmbedding options = Some results ->
  distinctCandidates store queryEmbedding options ->
  NoDup (map sr_id results).
Proof.
  unfold vectorSimilaritySearch. intros H [Hrpc Hsel].
  destruct (rpc_match_documents store queryEmbedding _ _) as [m|data] eqn:E.
  - eapply fallback_ids; eauto.
  - injection H as <-.
    unfold mapi. rewrite (mapi_from_fmap ofMatchRow sr_id mr_id) by reflexivity.
    destruct data as [rows|]; simpl; [now apply Hrpc | constructor].
Qed.

Lemma boosted_ids store queryEmbedding searchOpts :
  distinctCandidates store queryEmbedding searchOpts ->
  NoDup (map sr_id (boosted sqrt clock store queryEmbedding searchOpts)).
Proof.
  intros Hids. unfold boosted.
  destruct (vectorSimilaritySearch sqrt store queryEmbedding searchOpts)
    as [vectorResults|] eqn:E; [|constructor].
  pose proof (candidates_ids _ _ _ _ E Hids) as Hnd.
  cbv zeta. rewrite applyBoostFactors_ids.
  assert (H1 : NoDup (map sr_id
            (if so_rerankResults searchOpts then rerankResults clock vectorResults
             else vectorResults))).
  { destruct (so_rerankResults searchOpts); [now rewrite rerankResults_ids | exact Hnd]. }
  destruct (ltb 0 (so_diversityThreshold searchOpts)); [|exact H1].
  eapply NoDup_ids_sublist; [apply diversifyResults_sublist | exact H1].
Qed.

(** C2, as the code has it.  For a limit that is not negative and rows
    that read numbers from the boost tables, the list returned by
    [similaritySearch] is sorted by final relevance score in descending
    order (equal scores may follow each other), has at most [limit]
    elements, and has no two results with the same id when the rows
    obtained from the store have pairwise different ids. *)
Theorem similaritySearch_ranking (store : Store) (queryEmbedding : list Q)
  (searchOpts : SearchOptions)
  (Hlimit : (0 <= so_limit searchOpts)%Z)
  (Hids : distinctCandidates store queryEmbedding searchOpts)
  (Hnumbers : numericCandidates store queryEmbedding searchOpts) :
  let out := similaritySearch sqrt clock engineOrder store queryEmbedding searchOpts in
  StronglySorted scoreNotBelow out /\
  NoDup (map sr_id out) /\
  (Z.of_nat (length out) <= so_limit searchOpts)%Z.
Proof.
  cbv zeta. rewrite similaritySearch_boosted.
  destruct (vectorSimilaritySearch sqrt store queryEmbedding searchOpts)
    as [vectorResults|] eqn:E.
  - split; [|split].
    + apply StronglySorted_take, sortByScore_sorted, boosted_numbers, Hnumbers.
    + eapply NoDup_ids_sublist; [apply slice0_sublist|].
      apply NoDup_ids_sortByScore, boosted_ids, Hids.
    + apply slice0_length, Hlimit.
  - simpl. split; [constructor|]. split; [constructor | exact Hlimit].
Qed.

End Ranking.

Lemma storeFinding_distinct rows queryEmbedding options :
  NoDup (map mr_id rows) ->
  distinctCandidates (storeFinding rows) queryEmbedding options.
Proof.
  intros H. split; simpl.
  - intros r [= <-]. exact H.
  - intros d [= <-]. constructor.
Qed.

Lemma storeFinding_numeric rows queryEmbedding options :
  Forall (fun row => readsNumbers (so_boostFactors options) (mr_source row)
                       (mr_metadata row)) rows ->
  numericCandidates (storeFinding rows) queryEmbedding options.
Proof.
  intros H. split; simpl.
  - intros r [= <-]. exact H.
  - intros d [= <-]. constructor.
Qed.

Lemma similaritySearch_ranking_witness :
  let out := similaritySearch sampleSqrt sampleClock stableOrder (storeFinding threeRows) []
               defaultSearchOptions in
  StronglySorted scoreNotBelow out /\
  NoDup (map sr_id out) /\
  (Z.of_nat (length out) <= 10)%Z.
Proof.
  apply (similaritySearch_ranking sampleSqrt sampleClock stableOrder (storeFinding threeRows)
           [] defaultSearchOptions).
  - simpl. lia.
  - apply storeFinding_distinct.
    apply (bool_decide_unpack _). vm_compute. reflexivity.
  - apply storeFinding_numeric.
    repeat (constructor; [split; vm_compute; discriminate|]). constructor.
Defined.

(** C2 as stated fails.  Two stored rows with the same similarity come back
    with the same final score, so the result is not strictly descending;
    with a negative limit [slice] drops one element from the end, which
    leaves more than [limit] results; two rows that the store returns under
    one id are both returned; and a row whose source is [constructor] reads
    the constructor of the boost table as its boost, so that its final score
    is [NaN] and the list is not in descending order, whatever order the
    engine gives it. *)
Lemma similaritySearch_not_strict :
  (let out := similaritySearch sampleSqrt sampleClock stableOrder
                (storeFinding twoEqualRows) [] defaultSearchOptions in
   map sr_id out = [lit "r1"; lit "r2"] /\
   ~ StronglySorted scoreAbove out) /\
  (let out := similaritySearch sampleSqrt sampleClock stableOrder
                (storeFinding threeRows) [] (withLimit (-1) defaultSearchOptions) in
   length out = 2%nat /\ ~ (Z.of_nat (length out) <= -1)%Z) /\
  (let out := similaritySearch sampleSqrt sampleClock stableOrder
                (storeFinding sameIdRows) [] defaultSearchOptions in
   map sr_id out = [lit "r1"; lit "r1"] /\ ~ NoDup (map sr_id out)) /\
  (forall engineOrder,
     let out := similaritySearch sampleSqrt sampleClock engineOrder
                  (storeFinding inheritedRows) [] defaultSearchOptions in
     length out = 3%nat /\
     (exists r, r ∈ out /\ sr_id r = lit "r1" /\ sr_relevanceScore r = NaN) /\
     ~ StronglySorted scoreNotBelow out).
Proof.
  split; [|split; [|split]].
  - cbv zeta. split; [vm_compute; reflexivity|].
    intros H.
    assert (E : exists a b q, similaritySearch sampleSqrt sampleClock stableOrder
                  (storeFinding twoEqualRows) [] defaultSearchOptions = [a; b] /\
                  sr_relevanceScore a = Finite q /\ sr_relevanceScore b = Finite q).
    { eexists _, _, _. split; [vm_compute; reflexivity|]. split; reflexivity. }
    destruct E as (a & b & q & E & Ha & Hb). rewrite E in H.
    apply StronglySorted_inv in H as [_ Hall].
    apply Forall_cons in Hall as [Hab _].
    unfold scoreAbove in Hab. rewrite Ha, Hb in Hab. revert Hab. apply Qlt_irrefl.
  - cbv zeta. split; [vm_compute; reflexivity|].
    vm_compute. intros H. apply H. reflexivity.
  - cbv zeta.
    assert (E : map sr_id (similaritySearch sampleSqrt sampleClock stableOrder
                  (storeFinding sameIdRows) [] defaultSearchOptions)
                = [lit "r1"; lit "r1"]) by (vm_compute; reflexivity).
    split; [exact E|]. rewrite E. intros H.
    apply NoDup_cons in H as [H _]. apply H. left.
  - intros engineOrder. cbv zeta. rewrite similaritySearch_boosted.
    change (vectorSimilaritySearch sampleSqrt (storeFinding inheritedRows) []
              defaultSearchOptions)
      with (Some (mapi ofMatchRow inheritedRows)).
    cbv beta iota.
    set (l := boosted sampleSqrt sampleClock (storeFinding inheritedRows) []
                defaultSearchOptions).
    assert (Hlen : length l = 3%nat) by (vm_compute; reflexivity).
    assert (Hnan : exists r, r ∈ l /\ sr_id r = lit "r1" /\ sr_relevanceScore r = NaN).
    { eexists. split; [|split].
      - apply list_elem_of_lookup. exists 0%nat. vm_compute. reflexivity.
      - reflexivity.
      - reflexivity. }
    pose proof (sortByScore_Permutation engineOrder l) as Hperm.
    assert (Hs : length (sortByScore engineOrder l) = 3%nat)
      by (rewrite (Permutation_length Hperm); exact Hlen).
    assert (Hall : slice0 (sortByScore engineOrder l) (so_limit defaultSearchOptions)
                   = sortByScore engineOrder l).
    { unfold slice0. rewrite Hs. apply take_ge. rewrite Hs. vm_compute. lia. }
    rewrite Hall. split; [exact Hs|].
    destruct Hnan as (r & Hr & Hid & Hscore).
    assert (Hr' : r ∈ sortByScore engineOrder l) by (now rewrite Hperm).
    split; [exists r; auto|].
    apply (unsorted_with_NaN _ r Hr' Hscore). rewrite Hs. lia.
Qed.

End RetrievalFacts.


(** ** The embedding service *)

Module EmbeddingFacts.

Import Config Embedding NumFacts.
Local Open Scope Q_scope.

Section ServiceFacts.

Variable endpoint : nat -> list str -> ApiReply.
Variable clock : nat -> Z.
Variable options : EmbeddingOptions.

(** Building an embedding reads the clock twice and never throws. *)
Lemma createEnhancedEmbedding_run chunk embedding text w :
  createEnhancedEmbedding clock options chunk embedding text w
  = (inr (enhancedAt options chunk embedding text
            (clock (readings w)) (clock (S (readings w)))),
     afterBuilding w).
Proof. reflexivity. Qed.

Lemma requestSingle_run chunk w :
  requestSingle endpoint clock options chunk w
  = match singleReply endpoint options (requests w) chunk with
    | inl e => (inl e, afterRequest w)
    | inr (vector, tokens) =>
        (inr (enhancedAt options chunk vector (optimizeTextForEmbedding options (chunk_content chunk))
                (clock (readings w)) (clock (S (readings w))), tokens),
         afterBuilding (afterRequest w))
    end.
Proof.
  unfold requestSingle, singleReply, bind, create.
  destruct (endpoint (requests w) [optimizeTextForEmbedding options (chunk_content chunk)]) as [e|r]; [reflexivity|].
  destruct (data r) as [[|first rest]|]; reflexivity.
Qed.

Lemma delaysFrom_backoff n : delaysFrom options 0 n = backoff options n.
Proof.
  unfold delaysFrom, backoff. rewrite <- seq_shift, map_map.
  apply map_ext. intros i. simpl. do 2 f_equal. lia.
Qed.

Lemma delaysFrom_S retryCount n :
  delaysFrom options retryCount (S n)
  = (retryDelay options * 2 ^ Z.of_nat retryCount) :: delaysFrom options (S retryCount) n.
Proof.
  unfold delaysFrom. simpl. rewrite Nat.add_0_r. f_equal.
  rewrite <- seq_shift, map_map. apply map_ext. intros i.
  replace (retryCount + S i)%nat with (S retryCount + i)%nat by lia. reflexivity.
Qed.

(** [generateSingleEmbedding_from] with [left] retries left: it stops at the
    first attempt that is answered, or fails with the error of the last of
    [left + 1] attempts. *)
Lemma generateSingleEmbedding_from_run chunk : forall left retryCount w,
  (exists retries vector tokens,
     (retries <= left)%nat /\
     (forall i, (i < retries)%nat ->
                exists e, singleReply endpoint options (requests w + i) chunk = inl e) /\
     singleReply endpoint options (requests w + retries) chunk = inr (vector, tokens) /\
     generateSingleEmbedding_from endpoint clock options left chunk retryCount w
     = (inr (enhancedAt options chunk vector (optimizeTextForEmbedding options (chunk_content chunk))
               (clock (readings w)) (clock (S (readings w))), tokens),
        afterBuilding {| requests := (requests w + retries + 1)%nat;
                         readings := readings w;
                         slept := slept w ++ delaysFrom options retryCount retries |}))
  \/
  (exists last,
     (forall i, (i < left)%nat ->
                exists e, singleReply endpoint options (requests w + i) chunk = inl e) /\
     singleReply endpoint options (requests w + left) chunk = inl last /\
     generateSingleEmbedding_from endpoint clock options left chunk retryCount w
     = (inl last, {| requests := (requests w + left + 1)%nat;
                     readings := readings w;
                     slept := slept w ++ delaysFrom options retryCount left |})).
Proof.
  induction left as [|left IH]; intros retryCount w.
  - simpl. unfold tryCatch. rewrite requestSingle_run.
    destruct (singleReply endpoint options (requests w) chunk) as [e|[vector tokens]] eqn:E.
    + right. exists e. split; [intros i Hi; lia|]. split.
      * now rewrite Nat.add_0_r.
      * unfold throw, afterRequest. simpl. rewrite app_nil_r.
        do 2 f_equal. f_equal. lia.
    + left. exists 0%nat, vector, tokens. split; [lia|].
      split; [intros i Hi; lia|]. split; [now rewrite Nat.add_0_r|].
      unfold afterBuilding, afterRequest. simpl. rewrite app_nil_r.
      do 2 f_equal. f_equal. lia.
  - simpl. unfold tryCatch. rewrite requestSingle_run.
    destruct (singleReply endpoint options (requests w) chunk) as [e|[vector tokens]] eqn:E.
    + unfold bind, sleep. simpl.
      set (w1 := {| requests := S (requests w); readings := readings w;
                    slept := slept w ++ [retryDelay options * 2 ^ Z.of_nat retryCount] |}).
      destruct (IH (S retryCount) w1) as
        [(retries & vector & tokens & Hle & Hfail & Hok & ->) | (last & Hfail & Hlast & ->)].
      * left. exists (S retries), vector, tokens. split; [lia|]. split.
        { intros [|i] Hi; [rewrite Nat.add_0_r; eauto|].
          destruct (Hfail i) as [e' He']; [lia|]. exists e'. rewrite <- He'.
          f_equal. simpl. lia. }
        split; [rewrite <- Hok; f_equal; simpl; lia|].
        rewrite delaysFrom_S. unfold afterBuilding. simpl.
        rewrite <- app_assoc. simpl. do 2 f_equal. f_equal. lia.
      * right. exists last. split.
        { intros [|i] Hi; [rewrite Nat.add_0_r; eauto|].
          destruct (Hfail i) as [e' He']; [lia|]. exists e'. rewrite <- He'.
          f_equal. simpl. lia. }
        split; [rewrite <- Hlast; f_equal; simpl; lia|].
        rewrite delaysFrom_S. simpl.
        rewrite <- app_assoc. simpl. do 2 f_equal. f_equal. lia.
    + left. exists 0%nat, vector, tokens. split; [lia|].
      split; [intros i Hi; lia|]. split; [now rewrite Nat.add_0_r|].
      unfold afterBuilding, afterRequest. simpl. rewrite app_nil_r.
      do 2 f_equal. f_equal. lia.
Qed.

(** One chunk of the fallback loop. *)
Lemma generateSingleEmbedding_run chunk w :
  (exists e tokens w',
     generateSingleEmbedding endpoint clock options chunk w = (inr (e, tokens), w') /\
     ChunkRun endpoint clock options w chunk (Embedded e tokens) w')
  \/
  (exists last w',
     generateSingleEmbedding endpoint clock options chunk w = (inl last, w') /\
     ChunkRun endpoint clock options w chunk
       (Failed (lit "Individual embedding failed for chunk " ++ chunk_id chunk
                ++ lit ": " ++ errorText last)) w').
Proof.
  unfold generateSingleEmbedding.
  destruct (generateSingleEmbedding_from_run chunk (maxRetries options) 0 w) as
    [(retries & vector & tokens & Hle & Hfail & Hok & ->) | (last & Hfail & Hlast & ->)].
  - left. eexists _, _, _. split; [reflexivity|].
    rewrite delaysFrom_backoff. now apply run_answered.
  - right. eexists _, _. split; [reflexivity|].
    rewrite delaysFrom_backoff. now apply run_exhausted.
Qed.

Lemma processIndividually_run chunks : forall embeddings tokensUsed errors w,
  exists outcomes w',
    processIndividually endpoint clock options chunks embeddings tokensUsed errors w
    = (inr {| br_embeddings := embeddings ++ embeddedOf outcomes;
              br_tokensUsed := (tokensUsed + tokensOf outcomes)%nat;
              br_errors := errors ++ reportsOf outcomes |}, w') /\
    FallbackRun endpoint clock options w chunks outcomes w'.
Proof.
  induction chunks as [|chunk rest IH]; intros embeddings tokensUsed errors w.
  - exists [], w. simpl. rewrite !app_nil_r, Nat.add_0_r. split; [reflexivity | constructor].
  - cbn [processIndividually]. unfold bind at 1. unfold tryCatch, bind at 1.
    destruct (generateSingleEmbedding_run chunk w) as
      [(e & tokens & w1 & -> & Hrun) | (last & w1 & -> & Hrun)].
    + cbv beta iota zeta. unfold ret at 1. cbn [fst snd].
      destruct (IH (embeddings ++ [e]) (tokensUsed + tokens)%nat errors w1)
        as (outcomes & w' & -> & Hrest).
      exists (Embedded e tokens :: outcomes), w'. split.
      * cbn [embeddedOf tokensOf reportsOf omap foldr list_omap].
        rewrite <- app_assoc. cbn [app].
        now rewrite Nat.add_assoc.
      * econstructor; eauto.
    + cbv beta iota zeta. unfold ret at 1.
      edestruct (IH embeddings tokensUsed) as (outcomes & w' & -> & Hrest).
      eexists (Failed _ :: outcomes), w'. split.
      * cbn [embeddedOf tokensOf reportsOf omap foldr list_omap].
        rewrite <- app_assoc. cbn [app]. reflexivity.
      * econstructor; eauto.
Qed.

Lemma processBatch_fallback chunks w :
  batchFails endpoint options w chunks ->
  processBatch endpoint clock options chunks w
  = processIndividually endpoint clock options chunks [] 0 [] (afterRequest w).
Proof.
  unfold batchFails, processBatch, tryCatch, processBatchRequest, bind, create.
  intros H.
  destruct (endpoint (requests w) _) as [e|r]; [reflexivity|].
  destruct (data r) as [vectors|]; [|reflexivity].
  rewrite length_map.
  destruct (length vectors =? length chunks)%nat eqn:E; [|reflexivity].
  apply Nat.eqb_eq in E. contradiction.
Qed.

Lemma FallbackRun_length w chunks outcomes w' :
  FallbackRun endpoint clock options w chunks outcomes w' ->
  length outcomes = length chunks.
Proof. induction 1; simpl; congruence. Qed.

(** C6.  When the batch request fails, [processBatch] handles the chunks of
    the batch one by one.  Each chunk is requested alone, a failed attempt is
    followed by the delay [retryDelay * 2^(attempt - 1)] and retried at most
    [maxRetries] times; a chunk whose attempts all fail is reported in the
    errors with its identifier, and the chunks after it are processed all
    the same: there is one outcome per chunk. *)
Theorem processBatch_fallback_retries (chunks : list SemanticChunk) (w : World)
  (Hfail : batchFails endpoint options w chunks) :
  exists outcomes w',
    processBatch endpoint clock options chunks w
    = (inr {| br_embeddings := embeddedOf outcomes;
              br_tokensUsed := tokensOf outcomes;
              br_errors := reportsOf outcomes |}, w') /\
    FallbackRun endpoint clock options (afterRequest w) chunks outcomes w' /\
    length outcomes = length chunks.
Proof.
  rewrite (processBatch_fallback chunks w Hfail).
  destruct (processIndividually_run chunks [] 0%nat [] (afterRequest w))
    as (outcomes & w' & -> & Hrun).
  exists outcomes, w'. split; [reflexivity|]. split; [exact Hrun|].
  eapply FallbackRun_length; eauto.
Qed.

(** *** The quality check of the batch path *)






End ServiceFacts.

Lemma processBatch_fallback_retries_witness :
  exists outcomes w',
    processBatch failsFirst sampleClock defaultOptions [repetitive; varied] initialWorld
    = (inr {| br_embeddings := embeddedOf outcomes;
              br_tokensUsed := tokensOf outcomes;
              br_errors := reportsOf outcomes |}, w') /\
    FallbackRun failsFirst sampleClock defaultOptions (afterRequest initialWorld)
      [repetitive; varied] outcomes w' /\
    length outcomes = length [repetitive; varied].
Proof.
  apply (processBatch_fallback_retries failsFirst sampleClock defaultOptions
           [repetitive; varied] initialWorld).
  exact I.
Defined.

(** With an endpoint that refuses the first seven requests, the first chunk
    uses up its four attempts and is reported by name; the second chunk is
    answered at its third attempt. *)
Example exhausted_chunk_is_reported :
  match generateEmbeddings (failsUntil 7) sampleClock defaultOptions [repetitive; varied] with
  | Some run =>
      match run initialWorld with
      | (inr result, w) =>
          errors result
          = [lit "Individual embedding failed for chunk chunk_0_1700000000000: 503 unavailable"]
          /\ map (fun e => em_chunkId (emb_metadata e)) (embeddings result)
             = [chunk_id varied]
          /\ slept w = [1000; 2000; 4000; 1000; 2000]
          /\ requests w = 8%nat
      | (inl _, _) => False
      end
  | None => False
  end.
Proof. vm_compute. repeat split; reflexivity. Qed.

Lemma healthy_answers : alwaysAnswers healthy.
Proof.
  intros k input. eexists _, _. split; [reflexivity|]. apply length_map.
Qed.



(** *** The quality score *)

Lemma min_compat (a a' b b' : Q) :
  a == a' -> b == b' -> Num.min a b == Num.min a' b'.
Proof.
  intros Ha Hb. unfold Num.min, leb.
  destruct (Qle_bool a b) eqn:E; destruct (Qle_bool a' b') eqn:E'; try assumption.
  - apply Qle_bool_iff in E. assert (H : ~ a' <= b') by (rewrite <- Qle_bool_iff; congruence). lra.
  - apply Qle_bool_iff in E'. assert (H : ~ a <= b) by (rewrite <- Qle_bool_iff; congruence). lra.
Qed.

Lemma assessInformationDensity_ratio text :
  assessInformationDensity text = Num.min 1.0 (wordUniqueness text * 2).
Proof. reflexivity. Qed.

Lemma assessUniqueness_ratio text :
  assessUniqueness text = Num.min 1.0 (characterVariety text).
Proof. reflexivity. Qed.

Lemma assessSemanticCoherence_inputs c1 c2 :
  isHeading c1 = isHeading c2 -> hasSection c1 = hasSection c2 ->
  chunk_importance c1 == chunk_importance c2 ->
  assessSemanticCoherence c1 == assessSemanticCoherence c2.
Proof.
  unfold assessSemanticCoherence, isHeading, hasSection. intros Hh Hs Hi.
  apply min_compat; [reflexivity|].
  rewrite Hh.
  assert (Hsec : forall c acc,
            match cm_section (chunk_metadata c) with
            | Some (_ :: _) => acc + 0.1
            | _ => acc
            end = if match cm_section (chunk_metadata c) with
                     | Some (_ :: _) => true | _ => false end
                  then acc + 0.1 else acc).
  { intros c acc. destruct (cm_section (chunk_metadata c)) as [[|]|]; reflexivity. }
  rewrite !Hsec, Hs, Hi. reflexivity.
Qed.

(** C7, as the code has it.  The overall score is the weighted sum of the
    five sub-scores, and the sub-scores are determined by the token count of
    the chunk, its content type, whether it has a section, its importance,
    the word-uniqueness ratio and the character variety of the text, and the
    option [optimizeForRetrieval]. *)
Theorem calculateEmbeddingQuality_formula (o1 o2 : EmbeddingOptions)
  (c1 c2 : SemanticChunk) (v1 v2 : list Q) (t1 t2 : str)
  (Htokens : chunk_tokens c1 = chunk_tokens c2)
  (Htype : chunk_contentType c1 = chunk_contentType c2)
  (Hsection : hasSection c1 = hasSection c2)
  (Himportance : chunk_importance c1 == chunk_importance c2)
  (Hwords : wordUniqueness t1 == wordUniqueness t2)
  (Hchars : characterVariety t1 == characterVariety t2)
  (Hoption : optimizeForRetrieval o1 = optimizeForRetrieval o2) :
  let q1 := calculateEmbeddingQuality o1 c1 v1 t1 in
  let q2 := calculateEmbeddingQuality o2 c2 v2 t2 in
  sameQuality q1 q2 /\
  overallScore q1 ==
    0.2 * textQuality q1 + 0.25 * semanticCoherence q1 + 0.25 * informationDensity q1
    + 0.15 * uniqueness q1 + 0.15 * retrievalOptimization q1.
Proof.
  cbv zeta.
  assert (Htq : textQuality (calculateEmbeddingQuality o1 c1 v1 t1)
                == textQuality (calculateEmbeddingQuality o2 c2 v2 t2)).
  { cbn [calculateEmbeddingQuality textQuality]. now rewrite Htokens. }
  assert (Hsc : semanticCoherence (calculateEmbeddingQuality o1 c1 v1 t1)
                == semanticCoherence (calculateEmbeddingQuality o2 c2 v2 t2)).
  { cbn [calculateEmbeddingQuality semanticCoherence].
    apply assessSemanticCoherence_inputs; auto. unfold isHeading. now rewrite Htype. }
  assert (Hid : informationDensity (calculateEmbeddingQuality o1 c1 v1 t1)
                == informationDensity (calculateEmbeddingQuality o2 c2 v2 t2)).
  { cbn [calculateEmbeddingQuality informationDensity].
    rewrite !assessInformationDensity_ratio. apply min_compat; [reflexivity|].
    now rewrite Hwords. }
  assert (Hu : uniqueness (calculateEmbeddingQuality o1 c1 v1 t1)
               == uniqueness (calculateEmbeddingQuality o2 c2 v2 t2)).
  { cbn [calculateEmbeddingQuality uniqueness].
    rewrite !assessUniqueness_ratio. now apply min_compat. }
  assert (Hro : retrievalOptimization (calculateEmbeddingQuality o1 c1 v1 t1)
                == retrievalOptimization (calculateEmbeddingQuality o2 c2 v2 t2)).
  { cbn [calculateEmbeddingQuality retrievalOptimization]. now rewrite Hoption. }
  assert (Hsum : forall o c v t,
            overallScore (calculateEmbeddingQuality o c v t) ==
            0.2 * textQuality (calculateEmbeddingQuality o c v t)
            + 0.25 * semanticCoherence (calculateEmbeddingQuality o c v t)
            + 0.25 * informationDensity (calculateEmbeddingQuality o c v t)
            + 0.15 * uniqueness (calculateEmbeddingQuality o c v t)
            + 0.15 * retrievalOptimization (calculateEmbeddingQuality o c v t)).
  { intros. cbn [calculateEmbeddingQuality overallScore textQuality semanticCoherence
                 informationDensity uniqueness retrievalOptimization]. ring. }
  split; [|apply Hsum].
  unfold sameQuality. repeat (split; [assumption|]).
  rewrite !Hsum, Htq, Hsc, Hid, Hu, Hro. reflexivity.
Qed.

Lemma calculateEmbeddingQuality_formula_witness :
  let q1 := calculateEmbeddingQuality defaultOptions keyNote [0.6; 0.8]
              (chunk_content keyNote) in
  let q2 := calculateEmbeddingQuality defaultOptions keyNoteAgain [1; 0]
              (chunk_content keyNoteAgain) in
  sameQuality q1 q2 /\
  overallScore q1 ==
    0.2 * textQuality q1 + 0.25 * semanticCoherence q1 + 0.25 * informationDensity q1
    + 0.15 * uniqueness q1 + 0.15 * retrievalOptimization q1.
Proof.
  apply (calculateEmbeddingQuality_formula defaultOptions defaultOptions
           keyNote keyNoteAgain [0.6; 0.8] [1; 0]
           (chunk_content keyNote) (chunk_content keyNoteAgain));
    reflexivity.
Defined.

(** C7 as stated fails.  Two chunks with the same token count, the same
    content type and the same text, hence the same word-uniqueness ratio and
    character variety, get different overall scores when their importance
    differs. *)
Lemma quality_depends_on_importance :
  chunk_tokens minorNote = chunk_tokens keyNote /\
  chunk_contentType minorNote = chunk_contentType keyNote /\
  chunk_content minorNote = chunk_content keyNote /\
  ~ overallScore (calculateEmbeddingQuality defaultOptions minorNote [0.6; 0.8]
                    (chunk_content minorNote))
    == overallScore (calculateEmbeddingQuality defaultOptions keyNote [0.6; 0.8]
                       (chunk_content keyNote)).
Proof.
  repeat split. vm_compute. discriminate.
Qed.

End EmbeddingFacts.


(** ** Strings *)

Module TextFacts.

Lemma nonSpace_app s t : nonSpace (s ++ t) = nonSpace s ++ nonSpace t.
Proof. apply List.filter_app. Qed.

Lemma nonSpace_rev s : nonSpace (rev s) = rev (nonSpace s).
Proof.
  induction s as [|c s IH]; simpl; [reflexivity|].
  rewrite nonSpace_app, IH. simpl. destruct (isSpace c); simpl;
    [now rewrite app_nil_r | reflexivity].
Qed.

Lemma nonSpace_concat l : nonSpace (concat l) = concat (map nonSpace l).
Proof.
  induction l as [|s l IH]; simpl; [reflexivity|].
  now rewrite nonSpace_app, IH.
Qed.

Lemma nonSpace_spaces s : forallb isSpace s = true -> nonSpace s = [].
Proof.
  induction s as [|c s IH]; simpl; [reflexivity|].
  intros H. apply andb_true_iff in H as [Hc Hs]. rewrite Hc. simpl. auto.
Qed.

Lemma dropWhile_nil {A} (p : A -> bool) l : dropWhile p l = [] -> forallb p l = true.
Proof.
  induction l as [|x l IH]; simpl; [reflexivity|].
  destruct (p x); [exact IH | discriminate].
Qed.

Lemma dropWhile_head {A} (p : A -> bool) l x l' : dropWhile p l = x :: l' -> p x = false.
Proof.
  induction l as [|y l IH]; simpl; [discriminate|].
  destruct (p y) eqn:E; [exact IH | intros [= <- <-]; exact E].
Qed.

Lemma forallb_rev {A} (p : A -> bool) l : forallb p (rev l) = forallb p l.
Proof.
  induction l as [|x l IH]; simpl; [reflexivity|].
  rewrite forallb_app, IH. simpl. rewrite andb_true_r. apply andb_comm.
Qed.

(** A blank piece has no character other than white space. *)
Lemma blank_nonSpace p : notBlank p = false -> nonSpace p = [].
Proof.
  unfold notBlank, trim, trimEnd, trimStart.
  destruct (rev (dropWhile isSpace (rev (dropWhile isSpace p)))) as [|c t] eqn:E;
    [intros _ | discriminate].
  apply (f_equal (@rev ascii)) in E. rewrite rev_involutive in E. simpl in E.
  apply dropWhile_nil in E. rewrite forallb_rev in E.
  destruct (dropWhile isSpace p) as [|d q] eqn:D.
  - apply nonSpace_spaces, dropWhile_nil, D.
  - apply dropWhile_head in D. simpl in E. rewrite D in E. discriminate.
Qed.

Lemma nonSpace_filter_notBlank l :
  nonSpace (concat (List.filter notBlank l)) = nonSpace (concat l).
Proof.
  induction l as [|p l IH]; simpl; [reflexivity|].
  destruct (notBlank p) eqn:E; simpl; rewrite !nonSpace_app, IH; [reflexivity|].
  now rewrite (blank_nonSpace p E).
Qed.

Lemma notBlank_nonempty p : notBlank p = true -> p <> [].
Proof. intros H ->. discriminate. Qed.

(** [split(/\s+/)] keeps the characters that are not white space, and its
    pieces contain none. *)
Lemma split_ws_go_nonSpace s : forall cur gap,
  (gap = true -> cur = []) ->
  concat (split_ws_go cur gap s) = rev cur ++ nonSpace s.
Proof.
  induction s as [|c s IH]; intros cur gap Hgap; simpl.
  - now rewrite !app_nil_r.
  - unfold nonSpace. simpl. fold (nonSpace s). destruct (isSpace c) eqn:E; simpl.
    + destruct gap.
      * rewrite (Hgap eq_refl). simpl. now apply IH.
      * simpl. f_equal. now apply IH.
    + rewrite IH by discriminate. simpl. now rewrite <- app_assoc.
Qed.

Lemma split_ws_nonSpace s : concat (split_ws s) = nonSpace s.
Proof. apply (split_ws_go_nonSpace s [] false). discriminate. Qed.

Lemma split_ws_go_words s : forall cur gap,
  forallb isSpace cur = false \/ cur = [] ->
  Forall (fun c => isSpace c = false) cur ->
  Forall (fun w => Forall (fun c => isSpace c = false) w) (split_ws_go cur gap s).
Proof.
  induction s as [|c s IH]; intros cur gap _ Hcur; simpl.
  - constructor; [|constructor]. now apply Forall_rev.
  - destruct (isSpace c) eqn:E.
    + destruct gap.
      * apply IH; [now right | constructor].
      * constructor; [now apply Forall_rev|]. apply IH; [now right | constructor].
    + apply IH; [left; simpl; now rewrite E | now constructor].
Qed.

Lemma split_ws_words s :
  Forall (fun w => Forall (fun c => isSpace c = false) w) (split_ws s).
Proof. apply split_ws_go_words; [now right | constructor]. Qed.

Lemma split_sentences_go_nonSpace s : forall cur prevEnd gap,
  (gap = true -> cur = []) ->
  nonSpace (concat (split_sentences_go cur prevEnd gap s))
  = nonSpace (rev cur) ++ nonSpace s.
Proof.
  induction s as [|c s IH]; intros cur prevEnd gap Hgap; simpl.
  - now rewrite !app_nil_r.
  - unfold nonSpace at 3. simpl. fold (nonSpace s). destruct (isSpace c) eqn:E; simpl.
    + destruct gap.
      * rewrite (Hgap eq_refl). simpl. now apply IH.
      * destruct prevEnd.
        -- simpl. rewrite nonSpace_app. f_equal. now apply IH.
        -- rewrite IH by discriminate. simpl. rewrite nonSpace_app. simpl.
           unfold nonSpace at 2. simpl. rewrite E. simpl. now rewrite app_nil_r.
    + rewrite IH by discriminate. simpl. rewrite nonSpace_app. simpl.
      unfold nonSpace at 2. simpl. rewrite E. simpl. now rewrite <- app_assoc.
Qed.

Lemma split_sentences_nonSpace s :
  nonSpace (concat (split_sentences s)) = nonSpace s.
Proof. apply (split_sentences_go_nonSpace s [] false false). discriminate. Qed.

Lemma afterLastNewline_le run n : afterLastNewline run = Some n -> n <= length run.
Proof.
  revert n. induction run as [|c run IH]; intros n; simpl; [discriminate|].
  destruct (afterLastNewline run) as [m|].
  - intros [= <-]. specialize (IH m eq_refl). lia.
  - destruct (isNewline c); [intros [= <-]; lia | discriminate].
Qed.

Lemma takeWhile_Forall {A} (p : A -> bool) l : forallb p (takeWhile p l) = true.
Proof.
  induction l as [|x l IH]; simpl; [reflexivity|].
  destruct (p x) eqn:E; simpl; [now rewrite E | reflexivity].
Qed.

Lemma takeWhile_prefix {A} (p : A -> bool) l : exists k, l = takeWhile p l ++ k.
Proof.
  induction l as [|x l [k IH]]; simpl; [now exists []|].
  destruct (p x); [exists k; simpl; now f_equal | now exists (x :: l)].
Qed.

(** The characters a paragraph break drops are white space. *)
Lemma breakLength_spaces s n :
  breakLength s = Some n -> forallb isSpace (take n s) = true.
Proof.
  unfold breakLength. intros H. apply afterLastNewline_le in H.
  destruct (takeWhile_prefix isSpace s) as [k Hk].
  pose proof (takeWhile_Forall isSpace s) as Hall.
  rewrite Hk. rewrite take_app_le by exact H.
  rewrite <- (take_drop n (takeWhile isSpace s)) in Hall.
  rewrite forallb_app in Hall. now apply andb_true_iff in Hall as [Hall _].
Qed.

Lemma split_paragraphs_go_nonSpace s : forall cur skip,
  forallb isSpace (take skip s) = true ->
  nonSpace (concat (split_paragraphs_go cur skip s))
  = nonSpace (rev cur) ++ nonSpace (drop skip s).
Proof.
  induction s as [|c s IH]; intros cur skip Hskip.
  - simpl. rewrite drop_nil. now rewrite !app_nil_r.
  - destruct skip as [|k].
    + cbn [split_paragraphs_go drop].
      assert (Hkeep : nonSpace (concat (split_paragraphs_go (c :: cur) 0 s))
                      = nonSpace (rev cur) ++ nonSpace (c :: s)).
      { rewrite IH by reflexivity. cbn [rev drop].
        rewrite nonSpace_app, <- app_assoc.
        change (c :: s) with ([c] ++ s). now rewrite (nonSpace_app [c] s). }
      destruct (isNewline c) eqn:E; [|exact Hkeep].
      destruct (breakLength s) as [n|] eqn:B; [|exact Hkeep].
      cbn [concat]. rewrite nonSpace_app. f_equal.
      rewrite IH by (now apply breakLength_spaces). cbn [rev app].
      change (nonSpace []) with (@nil ascii). cbn [app].
      assert (Hc : nonSpace [c] = []).
      { unfold isNewline, eqc in E. apply Ascii.eqb_eq in E. subst c. reflexivity. }
      change (c :: s) with ([c] ++ s). rewrite (nonSpace_app [c] s), Hc. cbn [app].
      rewrite <- (take_drop n s) at 2. rewrite nonSpace_app.
      rewrite (nonSpace_spaces (take n s)) by (now apply breakLength_spaces).
      reflexivity.
    + cbn [split_paragraphs_go drop]. simpl in Hskip.
      apply andb_true_iff in Hskip as [Hc Hk].
      now apply IH.
Qed.

Lemma split_paragraphs_nonSpace s :
  nonSpace (concat (split_paragraphs s)) = nonSpace s.
Proof. apply (split_paragraphs_go_nonSpace s [] 0). reflexivity. Qed.

End TextFacts.


(** ** The text chunker *)

Module TextChunkerFacts.

Import TextChunker TextFacts.

Section ChunkingFacts.

Variable encode : str -> option nat.

Lemma nonSpace_snoc (chunks : list str) (c : str) :
  nonSpace (concat (chunks ++ [c])) = nonSpace (concat chunks) ++ nonSpace c.
Proof. rewrite concat_app, nonSpace_app. simpl. now rewrite app_nil_r. Qed.

Lemma nonSpace_idempotent s : nonSpace (nonSpace s) = nonSpace s.
Proof.
  induction s as [|c s IH]; simpl; [reflexivity|].
  destruct (isSpace c) eqn:E; simpl; [exact IH | now rewrite E, IH].
Qed.

(** *** Chunks with overlap *)

Lemma pieceText_fresh s : pieceText (freshPiece s) = s.
Proof. reflexivity. Qed.

Lemma pieceText_nil p : pieceText p = [] -> carried p = [] /\ fresh p = [].
Proof. unfold pieceText. intros H. now apply app_eq_nil in H. Qed.

(** The traced loops return the chunks of the loops of the source. *)
Lemma traceArbitrarily_from_erase maxTokens overlap words : forall chunks current,
  map pieceText (trace_from encode [space] (fun word => [freshPiece word])
                   maxTokens overlap words chunks current)
  = splitArbitrarily_from encode maxTokens overlap words
      (map pieceText chunks) (pieceText current).
Proof.
  induction words as [|word rest IH]; intros chunks current.
  - cbn [trace_from splitArbitrarily_from].
    destruct (pieceText current) eqn:E; [reflexivity|].
    rewrite map_app. cbn [map]. now rewrite E.
  - cbn [trace_from splitArbitrarily_from].
    destruct (pieceText current) as [|c cur] eqn:E.
    + destruct (countTokens encode word <=? maxTokens); rewrite IH; [reflexivity|].
      now rewrite map_app.
    + destruct (countTokens encode _ <=? maxTokens).
      * rewrite IH. f_equal. unfold pieceText in *. cbn [carried fresh].
        now rewrite app_assoc, E.
      * destruct (0 <? overlap); rewrite IH, map_app; cbn [map]; rewrite E; f_equal.
        unfold pieceText. cbn [carried fresh]. now rewrite <- app_assoc.
Qed.

Lemma traceArbitrarily_erase text maxTokens overlap :
  map pieceText (traceArbitrarily encode text maxTokens overlap)
  = splitArbitrarily encode text maxTokens overlap.
Proof. apply traceArbitrarily_from_erase. Qed.

Lemma traceBySentences_from_erase maxTokens overlap sentences : forall chunks current,
  map pieceText (trace_from encode [space]
                   (fun sentence => traceArbitrarily encode sentence maxTokens overlap)
                   maxTokens overlap sentences chunks current)
  = splitBySentences_from encode maxTokens overlap sentences
      (map pieceText chunks) (pieceText current).
Proof.
  induction sentences as [|sentence rest IH]; intros chunks current.
  - cbn [trace_from splitBySentences_from].
    destruct (pieceText current) eqn:E; [reflexivity|].
    rewrite map_app. cbn [map]. now rewrite E.
  - cbn [trace_from splitBySentences_from].
    destruct (pieceText current) as [|c cur] eqn:E.
    + destruct (countTokens encode sentence <=? maxTokens); rewrite IH; [reflexivity|].
      now rewrite map_app, traceArbitrarily_erase.
    + destruct (countTokens encode _ <=? maxTokens).
      * rewrite IH. f_equal. unfold pieceText in *. cbn [carried fresh].
        now rewrite app_assoc, E.
      * destruct (0 <? overlap); rewrite IH, map_app; cbn [map]; rewrite E; f_equal.
        unfold pieceText. cbn [carried fresh]. now rewrite <- app_assoc.
Qed.

Lemma traceBySentences_erase text maxTokens overlap :
  map pieceText (traceBySentences encode text maxTokens overlap)
  = splitBySentences encode text maxTokens overlap.
Proof. apply traceBySentences_from_erase. Qed.

Lemma traceByParagraphs_from_erase maxTokens overlap paragraphs : forall chunks current,
  map pieceText (trace_from encode [newline; newline]
                   (fun paragraph => traceBySentences encode paragraph maxTokens overlap)
                   maxTokens overlap paragraphs chunks current)
  = splitByParagraphs_from encode maxTokens overlap paragraphs
      (map pieceText chunks) (pieceText current).
Proof.
  induction paragraphs as [|paragraph rest IH]; intros chunks current.
  - cbn [trace_from splitByParagraphs_from].
    destruct (pieceText current) eqn:E; [reflexivity|].
    rewrite map_app. cbn [map]. now rewrite E.
  - cbn [trace_from splitByParagraphs_from].
    destruct (pieceText current) as [|c cur] eqn:E.
    + destruct (countTokens encode paragraph <=? maxTokens); rewrite IH; [reflexivity|].
      now rewrite map_app, traceBySentences_erase.
    + destruct (countTokens encode _ <=? maxTokens).
      * rewrite IH. f_equal. unfold pieceText in *. cbn [carried fresh].
        now rewrite app_assoc, E.
      * destruct (0 <? overlap); rewrite IH, map_app; cbn [map]; rewrite E; f_equal.
        unfold pieceText. cbn [carried fresh]. now rewrite <- app_assoc.
Qed.

Lemma traceByParagraphs_erase text maxTokens overlap :
  map pieceText (traceByParagraphs encode text maxTokens overlap)
  = splitByParagraphs encode text maxTokens overlap.
Proof. apply traceByParagraphs_from_erase. Qed.

Lemma traceText_erase clean opts :
  map pieceText (traceText encode clean opts) = splitText encode clean opts.
Proof.
  unfold traceText, splitText.
  destruct (preserveParagraphs opts); [apply traceByParagraphs_erase|].
  destruct (preserveSentences opts);
    [apply traceBySentences_erase | apply traceArbitrarily_erase].
Qed.

(** The new text of the chunks holds the characters of the pieces. *)
Lemma trace_from_fresh sep lower maxTokens overlap pieces :
  forallb isSpace sep = true ->
  (forall piece, nonSpace (concat (map fresh (lower piece))) = nonSpace piece) ->
  forall chunks current,
    nonSpace (concat (map fresh
                (trace_from encode sep lower maxTokens overlap pieces chunks current)))
    = nonSpace (concat (map fresh chunks)) ++ nonSpace (fresh current)
      ++ nonSpace (concat pieces).
Proof.
  intros Hsep Hlower.
  assert (Hjoint : forall a b, nonSpace (a ++ sep ++ b) = nonSpace a ++ nonSpace b).
  { intros a b. rewrite !nonSpace_app, (nonSpace_spaces sep Hsep). reflexivity. }
  induction pieces as [|piece rest IH]; intros chunks current.
  - cbn [trace_from concat]. rewrite app_nil_r.
    destruct (pieceText current) as [|c cur] eqn:E.
    + apply pieceText_nil in E as [_ ->]. now rewrite app_nil_r.
    + rewrite map_app. cbn [map]. now rewrite nonSpace_snoc.
  - cbn [trace_from concat]. rewrite (nonSpace_app piece).
    destruct (pieceText current) as [|c cur] eqn:E.
    + apply pieceText_nil in E as [_ E]. rewrite E.
      destruct (countTokens encode piece <=? maxTokens); rewrite IH; [reflexivity|].
      rewrite map_app, concat_app, nonSpace_app, Hlower. cbn.
      now rewrite <- app_assoc.
    + destruct (countTokens encode _ <=? maxTokens).
      * rewrite IH. cbn [fresh]. rewrite Hjoint. now rewrite <- app_assoc.
      * destruct (0 <? overlap); rewrite IH, map_app; cbn [map];
          rewrite nonSpace_snoc; cbn [fresh]; now rewrite <- !app_assoc.
Qed.

Lemma traceArbitrarily_fresh text maxTokens overlap :
  nonSpace (concat (map fresh (traceArbitrarily encode text maxTokens overlap)))
  = nonSpace text.
Proof.
  unfold traceArbitrarily. rewrite trace_from_fresh; [|reflexivity|].
  - cbn. rewrite split_ws_nonSpace. apply nonSpace_idempotent.
  - intros piece. cbn. now rewrite app_nil_r.
Qed.

Lemma traceBySentences_fresh text maxTokens overlap :
  nonSpace (concat (map fresh (traceBySentences encode text maxTokens overlap)))
  = nonSpace text.
Proof.
  unfold traceBySentences. rewrite trace_from_fresh; [|reflexivity|].
  - cbn. rewrite nonSpace_filter_notBlank. apply split_sentences_nonSpace.
  - intros piece. apply traceArbitrarily_fresh.
Qed.

Lemma traceByParagraphs_fresh text maxTokens overlap :
  nonSpace (concat (map fresh (traceByParagraphs encode text maxTokens overlap)))
  = nonSpace text.
Proof.
  unfold traceByParagraphs. rewrite trace_from_fresh; [|reflexivity|].
  - cbn. rewrite nonSpace_filter_notBlank. apply split_paragraphs_nonSpace.
  - intros piece. apply traceBySentences_fresh.
Qed.

Lemma traceText_fresh clean opts :
  nonSpace (concat (map fresh (traceText encode clean opts))) = nonSpace clean.
Proof.
  unfold traceText.
  destruct (preserveParagraphs opts); [apply traceByParagraphs_fresh|].
  destruct (preserveSentences opts);
    [apply traceBySentences_fresh | apply traceArbitrarily_fresh].
Qed.

(** What a chunk carries comes from the chunk just before it. *)
Lemma carriesFrom_none overlap previous p :
  carriesFrom overlap None p -> carriesFrom overlap previous p.
Proof. intros [H|(q & j & H & _)]; [now left | discriminate]. Qed.

Lemma carriedOver_none overlap previous l :
  carriedOver overlap None l -> carriedOver overlap previous l.
Proof.
  destruct l as [|p l]; [trivial|]. intros [Hp Hl]. split; [|exact Hl].
  now apply carriesFrom_none.
Qed.

Lemma carriedOver_app overlap l1 : forall previous l2,
  carriedOver overlap previous l1 ->
  carriedOver overlap (match last l1 with Some q => Some q | None => previous end) l2 ->
  carriedOver overlap previous (l1 ++ l2).
Proof.
  induction l1 as [|p l1 IH]; intros previous l2 H1 H2; [exact H2|].
  destruct H1 as [Hp H1]. split; [exact Hp|]. apply IH; [exact H1|].
  destruct l1 as [|q l1]; [exact H2|].
  change (last (p :: q :: l1)) with (last (q :: l1)) in H2.
  destruct (last (q :: l1)) eqn:L; [exact H2|].
  now apply last_None in L.
Qed.

Lemma carriedOver_snoc overlap chunks current :
  carriedOver overlap None chunks ->
  carriesFrom overlap (last chunks) current ->
  carriedOver overlap None (chunks ++ [current]).
Proof.
  intros Hc Hcur. apply carriedOver_app; [exact Hc|].
  split; [|exact I]. destruct (last chunks); [exact Hcur|].
  now apply carriesFrom_none.
Qed.

Lemma trace_from_carriedOver sep lower maxTokens overlap pieces :
  forallb isSpace sep = true ->
  (forall piece, carriedOver overlap None (lower piece)) ->
  forall chunks current,
    carriedOver overlap None chunks ->
    carriesFrom overlap (last chunks) current ->
    carriedOver overlap None
      (trace_from encode sep lower maxTokens overlap pieces chunks current).
Proof.
  intros Hsep Hlower.
  induction pieces as [|piece rest IH]; intros chunks current Hchunks Hcur.
  - cbn [trace_from]. destruct (pieceText current); [exact Hchunks|].
    now apply carriedOver_snoc.
  - cbn [trace_from].
    destruct (pieceText current) as [|c cur] eqn:E.
    + destruct (countTokens encode piece <=? maxTokens).
      * apply IH; [exact Hchunks | now left].
      * apply IH; [|now left].
        apply carriedOver_app; [exact Hchunks|]. now apply carriedOver_none.
    + destruct (countTokens encode _ <=? maxTokens).
      * apply IH; [exact Hchunks|]. exact Hcur.
      * destruct (0 <? overlap).
        -- apply IH; [now apply carriedOver_snoc|].
           right. exists current, sep. rewrite last_snoc, E. auto.
        -- apply IH; [now apply carriedOver_snoc | now left].
Qed.

Lemma traceArbitrarily_carriedOver text maxTokens overlap :
  carriedOver overlap None (traceArbitrarily encode text maxTokens overlap).
Proof.
  apply trace_from_carriedOver; [reflexivity | | exact I | now left].
  intros piece. split; [now left | exact I].
Qed.

Lemma traceBySentences_carriedOver text maxTokens overlap :
  carriedOver overlap None (traceBySentences encode text maxTokens overlap).
Proof.
  apply trace_from_carriedOver; [reflexivity | | exact I | now left].
  intros piece. apply traceArbitrarily_carriedOver.
Qed.

Lemma traceByParagraphs_carriedOver text maxTokens overlap :
  carriedOver overlap None (traceByParagraphs encode text maxTokens overlap).
Proof.
  apply trace_from_carriedOver; [reflexivity | | exact I | now left].
  intros piece. apply traceBySentences_carriedOver.
Qed.

Lemma traceText_carriedOver clean opts :
  carriedOver (chunkOverlap opts) None (traceText encode clean opts).
Proof.
  unfold traceText.
  destruct (preserveParagraphs opts); [apply traceByParagraphs_carriedOver|].
  destruct (preserveSentences opts);
    [apply traceBySentences_carriedOver | apply traceArbitrarily_carriedOver].
Qed.

Lemma describe_content clean source textChunks : forall i currentPos,
  map content (describe encode clean source textChunks i currentPos) = textChunks.
Proof.
  induction textChunks as [|c rest IH]; intros i pos; simpl; [reflexivity|].
  now rewrite IH.
Qed.

Lemma describe_filter opts clean source textChunks : forall i currentPos,
  map content (List.filter (bigEnough opts)
                 (describe encode clean source textChunks i currentPos))
  = List.filter (keeps encode opts) textChunks.
Proof.
  induction textChunks as [|c rest IH]; intros i pos; [reflexivity|].
  cbn [describe List.filter]. unfold bigEnough at 1, keeps at 1. cbn [tokenCount wordCount].
  destruct (_ || _); cbn [map content]; now rewrite IH.
Qed.

(** What [chunkText] returns, chunk texts only. *)
Lemma chunkText_content text source opts :
  map content (chunkText encode text source opts)
  = if fitsInOne encode (cleanText text) opts then [cleanText text]
    else List.filter (keeps encode opts) (splitText encode (cleanText text) opts).
Proof.
  unfold chunkText, fitsInOne.
  destruct (cleanText text) as [|c clean] eqn:E; [reflexivity|].
  destruct (countTokens encode (c :: clean) <=? maxTokens opts); [reflexivity|].
  apply describe_filter.
Qed.

(** C4, as the code has it.  The chunks the splitting stage produces are
    each made of the overlap carried over from the chunk before, the last
    [chunkOverlap] words of it, and of new text; the new text of all chunks
    holds, in order, every character of the normalised text that is not white
    space.  [chunkText] returns the whole text when it fits in one chunk, and
    otherwise those chunks that have at least [minChunkSize] tokens or at
    least ten words: the smaller ones are left out of the result. *)
Theorem chunkText_keeps_large_chunks (text source : str) (opts : ChunkingOptions) :
  let clean := cleanText text in
  let traced := traceText encode clean opts in
  map pieceText traced = splitText encode clean opts /\
  carriedOver (chunkOverlap opts) None traced /\
  nonSpace (concat (map fresh traced)) = nonSpace clean /\
  map content (chunkText encode text source opts)
  = (if fitsInOne encode clean opts then [clean]
     else List.filter (keeps encode opts) (splitText encode clean opts)).
Proof.
  cbv zeta. split; [apply traceText_erase|]. split; [apply traceText_carriedOver|].
  split; [apply traceText_fresh | apply chunkText_content].
Qed.

(** Without overlap every chunk of the word splitter is within the bound or
    is one of the words of the text. *)
Lemma splitArbitrarily_from_bound maxTokens (allWords words : list str) :
  forall chunks currentChunk,
    (forall w, w ∈ words -> w ∈ allWords) ->
    Forall (fun c => countTokens encode c <= maxTokens \/ c ∈ allWords) chunks ->
    (currentChunk = [] \/ countTokens encode currentChunk <= maxTokens
     \/ currentChunk ∈ allWords) ->
    Forall (fun c => countTokens encode c <= maxTokens \/ c ∈ allWords)
      (splitArbitrarily_from encode maxTokens 0 words chunks currentChunk).
Proof.
  induction words as [|word rest IH]; intros chunks cur Hsub Hchunks Hcur.
  - simpl. destruct cur as [|c cur]; [exact Hchunks|].
    apply Forall_app. split; [exact Hchunks|]. constructor; [|constructor].
    destruct Hcur as [H|H]; [discriminate | exact H].
  - cbn [splitArbitrarily_from].
    assert (Hrest : forall w, w ∈ rest -> w ∈ allWords)
      by (intros w Hw; apply Hsub; now right).
    assert (Hword : word ∈ allWords) by (apply Hsub; now left).
    destruct (countTokens encode _ <=? maxTokens) eqn:E.
    + apply Nat.leb_le in E. apply IH; auto.
    + destruct cur as [|c cur].
      * apply IH; auto. apply Forall_app. split; [exact Hchunks|].
        constructor; [now right | constructor].
      * cbn [Nat.ltb Nat.leb]. apply IH; auto.
        apply Forall_app. split; [exact Hchunks|]. constructor; [|constructor].
        destruct Hcur as [H|H]; [discriminate | exact H].
Qed.

Lemma splitArbitrarily_bound text maxTokens :
  Forall (fun c => countTokens encode c <= maxTokens \/ c ∈ split_ws text)
    (splitArbitrarily encode text maxTokens 0).
Proof.
  unfold splitArbitrarily. apply splitArbitrarily_from_bound; auto.
Qed.

End ChunkingFacts.

(** *** Two tokenizers that count alike *)

Section TwoTokenizers.

Variables encode1 encode2 : str -> option nat.
Hypothesis same : forall t, encode1 t = encode2 t.

Lemma countTokens_tokenizer t : countTokens encode1 t = countTokens encode2 t.
Proof. unfold countTokens. now rewrite same. Qed.

Lemma splitArbitrarily_from_tokenizer maxTokens overlap words : forall chunks cur,
  splitArbitrarily_from encode1 maxTokens overlap words chunks cur
  = splitArbitrarily_from encode2 maxTokens overlap words chunks cur.
Proof.
  induction words as [|word rest IH]; intros chunks cur; [reflexivity|].
  cbn [splitArbitrarily_from]. rewrite countTokens_tokenizer.
  destruct (_ <=? _); [apply IH|].
  destruct cur; [apply IH|]. destruct (0 <? overlap); apply IH.
Qed.

Lemma splitBySentences_from_tokenizer maxTokens overlap sentences : forall chunks cur,
  splitBySentences_from encode1 maxTokens overlap sentences chunks cur
  = splitBySentences_from encode2 maxTokens overlap sentences chunks cur.
Proof.
  induction sentences as [|sentence rest IH]; intros chunks cur; [reflexivity|].
  cbn [splitBySentences_from]. rewrite countTokens_tokenizer.
  destruct (_ <=? _); [apply IH|].
  destruct cur.
  - unfold splitArbitrarily. rewrite splitArbitrarily_from_tokenizer. apply IH.
  - destruct (0 <? overlap); apply IH.
Qed.

Lemma splitByParagraphs_from_tokenizer maxTokens overlap paragraphs : forall chunks cur,
  splitByParagraphs_from encode1 maxTokens overlap paragraphs chunks cur
  = splitByParagraphs_from encode2 maxTokens overlap paragraphs chunks cur.
Proof.
  induction paragraphs as [|paragraph rest IH]; intros chunks cur; [reflexivity|].
  cbn [splitByParagraphs_from]. rewrite countTokens_tokenizer.
  destruct (_ <=? _); [apply IH|].
  destruct cur.
  - unfold splitBySentences. rewrite splitBySentences_from_tokenizer. apply IH.
  - destruct (0 <? overlap); apply IH.
Qed.

Lemma splitText_tokenizer clean opts :
  splitText encode1 clean opts = splitText encode2 clean opts.
Proof.
  unfold splitText, splitByParagraphs, splitBySentences, splitArbitrarily.
  destruct (preserveParagraphs opts); [apply splitByParagraphs_from_tokenizer|].
  destruct (preserveSentences opts);
    [apply splitBySentences_from_tokenizer | apply splitArbitrarily_from_tokenizer].
Qed.

Lemma describe_tokenizer clean source textChunks : forall i currentPos,
  describe encode1 clean source textChunks i currentPos
  = describe encode2 clean source textChunks i currentPos.
Proof.
  induction textChunks as [|c rest IH]; intros i pos; [reflexivity|].
  cbn [describe]. rewrite countTokens_tokenizer. cbn [endChar]. now rewrite IH.
Qed.

Lemma chunkText_tokenizer text source opts :
  chunkText encode1 text source opts = chunkText encode2 text source opts.
Proof.
  unfold chunkText. destruct (cleanText text) as [|c clean].
  - now rewrite countTokens_tokenizer.
  - rewrite !countTokens_tokenizer. destruct (_ <=? _); [reflexivity|].
    now rewrite splitText_tokenizer, describe_tokenizer.
Qed.

End TwoTokenizers.

(** C4 as stated fails.  Four short sentences chunked with a bound of ten
    tokens and no overlap: every chunk is below both minima of the final
    filter, and [chunkText] returns nothing of a text that has characters. *)
Lemma chunkText_drops_small_chunks :
  splitText noTokenizer (cleanText fourSentences) smallChunks
  = [ lit "Alpha beta gamma delta."; lit "Epsilon zeta eta theta.";
      lit "Iota kappa lambda mu. Nu xi omicron pi." ] /\
  chunkText noTokenizer fourSentences (lit "notes.md") smallChunks = [] /\
  nonSpace (concat (map content
                      (chunkText noTokenizer fourSentences (lit "notes.md") smallChunks)))
  <> nonSpace (cleanText fourSentences).
Proof.
  split; [vm_compute; reflexivity|]. split; [vm_compute; reflexivity|].
  vm_compute. discriminate.
Qed.

(** An overlap of three words, as the traced splitter sees it. *)
Example overlap_is_carried :
  map (fun p => (carried p, fresh p))
    (traceBySentences noTokenizer fourSentences 10 3)
  = [ (lit "", lit "Alpha beta gamma delta.");
      (lit "beta gamma delta. ", lit "Epsilon zeta eta theta.");
      (lit "zeta eta theta. ", lit "Iota kappa lambda mu.");
      (lit "kappa lambda mu. ", lit "Nu xi omicron pi.") ].
Proof. vm_compute. reflexivity. Qed.

End TextChunkerFacts.


(** ** The semantic chunker *)

Module SemanticChunkerFacts.

Import Config SemanticChunker TextFacts.

(** *** Bounds of the chunks of a section *)

Lemma join_snoc (sep : str) (ps : list str) (p : str) :
  ps <> [] -> join sep (ps ++ [p]) = join sep ps ++ sep ++ p.
Proof.
  induction ps as [|q ps IH]; intros H; [contradiction|].
  destruct ps as [|r ps]; [reflexivity|].
  change (join sep ((q :: r :: ps) ++ [p]))
    with (q ++ sep ++ join sep ((r :: ps) ++ [p])).
  rewrite IH by discriminate.
  change (join sep (q :: r :: ps)) with (q ++ sep ++ join sep (r :: ps)).
  now rewrite <- !app_assoc.
Qed.

Lemma join_nil_inv (sep : str) (ps : list str) :
  Forall (fun p => p <> []) ps -> join sep ps = [] -> ps = [].
Proof.
  intros Hne H. destruct ps as [|p ps]; [reflexivity|].
  inversion Hne as [|? ? Hp _]; subst.
  destruct ps as [|q ps]; simpl in H; [contradiction|].
  apply app_eq_nil in H as [H _]. contradiction.
Qed.

Lemma paragraphTokens_snoc ps p :
  paragraphTokens (ps ++ [p]) = paragraphTokens ps + estimateTokenCount p.
Proof.
  unfold paragraphTokens. rewrite map_app, list_sum_app. simpl. lia.
Qed.

Section ChunkerFacts.

Variable clock : nat -> Z.

Lemma createChunk_fields content source metadata section si pi ci k :
  let chunk := fst (createChunk clock content source metadata section si pi ci k) in
  chunk_content chunk = content /\
  chunk_tokens chunk = estimateTokenCount content.
Proof. split; reflexivity. Qed.

Lemma chunkSection_from_sized optimalSize source metadata section si start
    (all : list str) paragraphs :
  forall chunks currentChunk currentTokens pi k held,
    Forall (fun p => p <> []) paragraphs ->
    (forall p, p ∈ paragraphs -> p ∈ all) ->
    Forall (fun p => p <> []) held ->
    (forall p, p ∈ held -> p ∈ all) ->
    currentChunk = join [newline; newline] held ->
    currentTokens = paragraphTokens held ->
    (held = [] \/ length held = 1 \/ paragraphTokens held <= optimalSize) ->
    Forall (sized optimalSize all) chunks ->
    Forall (sized optimalSize all)
      (fst (chunkSection_from clock optimalSize source metadata section si start
              paragraphs chunks currentChunk currentTokens pi k)).
Proof.
  induction paragraphs as [|p rest IH];
    intros chunks cur tokens pi k held Hne Hsub Hheld Hheldsub Hcur Htok Hsize Hchunks.
  - cbn [chunkSection_from]. destruct (notBlank cur) eqn:B; [|exact Hchunks].
    cbn [fst]. apply Forall_app. split; [exact Hchunks|].
    constructor; [|constructor]. exists held.
    assert (Hnil : held <> []).
    { intros ->. subst cur. discriminate. }
    split; [|split; [exact Hheldsub | destruct Hsize as [?|?]; [contradiction | assumption]]].
    split; [exact Hnil|]. split; cbn; now subst cur.
  - cbn [chunkSection_from].
    assert (Hp : p <> []) by (now inversion Hne).
    assert (Hrest : Forall (fun q => q <> []) rest) by (now inversion Hne).
    assert (Hpall : p ∈ all) by (apply Hsub; now left).
    assert (Hrestsub : forall q, q ∈ rest -> q ∈ all)
      by (intros q Hq; apply Hsub; now right).
    assert (Hone : forall q, q ∈ [p] -> q ∈ all)
      by (intros q Hq; apply list_elem_of_singleton in Hq as ->; exact Hpall).
    destruct ((optimalSize <? tokens + estimateTokenCount p)
              && match cur with [] => false | _ :: _ => true end) eqn:F.
    + (* the buffer is flushed *)
      apply andb_true_iff in F as [_ Fcur].
      cbv beta iota zeta. cbn [fst snd app].
      apply (IH _ _ _ _ _ [p] Hrest Hrestsub).
      * constructor; [exact Hp | constructor].
      * exact Hone.
      * reflexivity.
      * unfold paragraphTokens. simpl. lia.
      * right. now left.
      * apply Forall_app. split; [exact Hchunks|].
        constructor; [|constructor]. exists held.
        assert (Hnil : held <> []).
        { intros ->. subst cur. discriminate. }
        split; [|split; [exact Hheldsub |
                         destruct Hsize as [?|?]; [contradiction | assumption]]].
        split; [exact Hnil|]. split; cbn; now subst cur.
    + (* the paragraph joins the buffer *)
      cbv beta iota zeta.
      apply andb_false_iff in F.
      destruct cur as [|c cur'] eqn:Ecur.
      * assert (held = []) as ->
          by (apply (join_nil_inv [newline; newline]); [exact Hheld | now symmetry]).
        cbn [app]. apply (IH _ _ _ _ _ [p] Hrest Hrestsub).
        -- constructor; [exact Hp | constructor].
        -- exact Hone.
        -- reflexivity.
        -- subst tokens. unfold paragraphTokens. simpl. lia.
        -- right. now left.
        -- exact Hchunks.
      * assert (Hnil : held <> []) by (intros ->; discriminate).
        destruct F as [F|F]; [|discriminate].
        apply Nat.ltb_ge in F.
        apply (IH _ _ _ _ _ (held ++ [p]) Hrest Hrestsub).
        -- apply Forall_app. split; [exact Hheld | constructor; [exact Hp | constructor]].
        -- intros q Hq. apply elem_of_app in Hq as [Hq|Hq]; auto.
        -- rewrite join_snoc by exact Hnil. now rewrite <- Hcur.
        -- rewrite paragraphTokens_snoc. now subst tokens.
        -- right. right. rewrite paragraphTokens_snoc. subst tokens. exact F.
        -- exact Hchunks.
Qed.

Lemma filter_notBlank_nonempty (l : list str) :
  Forall (fun p => p <> []) (List.filter notBlank l).
Proof.
  induction l as [|p l IH]; simpl; [constructor|].
  destruct (notBlank p) eqn:E; [|exact IH].
  constructor; [now apply notBlank_nonempty | exact IH].
Qed.

Lemma chunkSection_sized section source metadata si start k :
  Forall (sized (getOptimalChunkSize (sec_type section)) (paragraphsOf section))
    (fst (chunkSection clock section source metadata si start k)).
Proof.
  unfold chunkSection.
  destruct (trim (sec_content section)) as [|c t] eqn:E; [constructor|].
  apply (chunkSection_from_sized _ _ _ _ _ _ _ _ _ _ _ _ _ []); auto.
  - apply filter_notBlank_nonempty.
  - unfold paragraphsOf. now rewrite E.
  - intros p Hp. inversion Hp.
Qed.

(** *** Two runs of the chunker *)

End ChunkerFacts.

Section TwoRuns.

Variables clock1 clock2 : nat -> Z.

Lemma createChunk_same content source metadata section si pi ci1 ci2 k1 k2 :
  boundariesAndScores
    (fst (createChunk clock1 content source metadata section si pi ci1 k1))
  = boundariesAndScores
      (fst (createChunk clock2 content source metadata section si pi ci2 k2)).
Proof. reflexivity. Qed.

Lemma chunkSection_from_same optimalSize source metadata section si paragraphs :
  forall start1 start2 chunks1 chunks2 currentChunk currentTokens pi k1 k2,
    map boundariesAndScores chunks1 = map boundariesAndScores chunks2 ->
    map boundariesAndScores
      (fst (chunkSection_from clock1 optimalSize source metadata section si start1
              paragraphs chunks1 currentChunk currentTokens pi k1))
    = map boundariesAndScores
        (fst (chunkSection_from clock2 optimalSize source metadata section si start2
                paragraphs chunks2 currentChunk currentTokens pi k2)).
Proof.
  induction paragraphs as [|p rest IH];
    intros start1 start2 chunks1 chunks2 cur tokens pi k1 k2 Hchunks.
  - cbn [chunkSection_from]. destruct (notBlank cur); [|exact Hchunks].
    pose proof (createChunk_same (trim cur) source metadata section si pi
                  (start1 + length chunks1) (start2 + length chunks2) k1 k2) as Hc.
    destruct (createChunk clock1 _ _ _ _ _ _ _ k1) as [c1 k1'].
    destruct (createChunk clock2 _ _ _ _ _ _ _ k2) as [c2 k2'].
    cbn [fst] in *. rewrite !map_app, Hchunks. cbn [map]. now rewrite Hc.
  - cbn [chunkSection_from].
    destruct ((optimalSize <? tokens + estimateTokenCount p)
              && match cur with [] => false | _ :: _ => true end).
    + pose proof (createChunk_same (trim cur) source metadata section si pi
                    (start1 + length chunks1) (start2 + length chunks2) k1 k2) as Hc.
      destruct (createChunk clock1 _ _ _ _ _ _ _ k1) as [c1 k1'].
      destruct (createChunk clock2 _ _ _ _ _ _ _ k2) as [c2 k2'].
      cbn [fst] in Hc. cbv beta iota zeta. apply IH.
      rewrite !map_app, Hchunks. cbn [map]. now rewrite Hc.
    + cbv beta iota zeta. now apply IH.
Qed.

Lemma chunkSection_same section source metadata si start1 start2 k1 k2 :
  map boundariesAndScores
    (fst (chunkSection clock1 section source metadata si start1 k1))
  = map boundariesAndScores
      (fst (chunkSection clock2 section source metadata si start2 k2)).
Proof.
  unfold chunkSection.
  destruct (trim (sec_content section)); [reflexivity|].
  now apply chunkSection_from_same.
Qed.

Lemma semanticChunking_from_same source metadata sections :
  forall si chunks1 chunks2 k1 k2,
    map boundariesAndScores chunks1 = map boundariesAndScores chunks2 ->
    map boundariesAndScores
      (fst (semanticChunking_from clock1 source metadata sections si chunks1 k1))
    = map boundariesAndScores
        (fst (semanticChunking_from clock2 source metadata sections si chunks2 k2)).
Proof.
  induction sections as [|section rest IH]; intros si chunks1 chunks2 k1 k2 Hchunks.
  - exact Hchunks.
  - cbn [semanticChunking_from].
    pose proof (chunkSection_same section source metadata si
                  (length chunks1) (length chunks2) k1 k2) as Hsec.
    destruct (chunkSection clock1 section source metadata si (length chunks1) k1)
      as [sectionChunks1 k1'].
    destruct (chunkSection clock2 section source metadata si (length chunks2) k2)
      as [sectionChunks2 k2'].
    cbn [fst] in Hsec. apply IH. rewrite !map_app, Hchunks, Hsec. reflexivity.
Qed.

Lemma addChunkRelationships_from_same chunks : forall previous,
  map boundariesAndScores (addChunkRelationships_from previous chunks)
  = map boundariesAndScores chunks.
Proof.
  induction chunks as [|chunk rest IH]; intros previous; [reflexivity|].
  cbn [addChunkRelationships_from map]. now rewrite IH.
Qed.

Lemma chunkDocument_same content source metadata k1 k2 :
  map boundariesAndScores (fst (chunkDocument clock1 content source metadata k1))
  = map boundariesAndScores (fst (chunkDocument clock2 content source metadata k2)).
Proof.
  unfold chunkDocument, semanticChunking.
  pose proof (semanticChunking_from_same source metadata
                (ds_sections (parseDocumentStructure content)) 0 [] [] k1 k2 eq_refl)
    as H.
  destruct (semanticChunking_from clock1 _ _ _ _ _ k1) as [chunks1 k1'].
  destruct (semanticChunking_from clock2 _ _ _ _ _ k2) as [chunks2 k2'].
  cbn [fst] in *. unfold addChunkRelationships.
  now rewrite !addChunkRelationships_from_same.
Qed.

End TwoRuns.

(** C3, as the code has it.  The word splitter without overlap returns chunks
    that are within [maxTokens] or are a single word of the text.  The
    semantic chunker never cuts a paragraph: a chunk of a section is made of
    one paragraph, whatever its size, or of several whose estimated tokens
    add up to at most the optimal size of the section type. *)
Theorem chunk_bounds_by_design :
  (forall (encode : str -> option nat) (text : str) (maxTokens : nat),
     Forall (fun chunk =>
               TextChunker.countTokens encode chunk <= maxTokens
               \/ chunk ∈ split_ws text)
       (TextChunker.splitArbitrarily encode text maxTokens 0)) /\
  (forall (clock : nat -> Z) (section : DocSection) (source : str)
          (metadata : CallerMetadata) (sectionIndex startChunkIndex k : nat),
     Forall (sized (getOptimalChunkSize (sec_type section)) (paragraphsOf section))
       (fst (chunkSection clock section source metadata sectionIndex
               startChunkIndex k))).
Proof.
  split.
  - intros. apply TextChunkerFacts.splitArbitrarily_bound.
  - intros. apply chunkSection_sized.
Qed.

(** C3 as stated fails.  A document whose only paragraph has 500 words
    becomes one chunk of 675 tokens, above the bound of 512. *)
Lemma long_paragraph_is_one_chunk :
  map (fun chunk => (chunk_tokens chunk, length (split_ws (chunk_content chunk))))
    (fst (chunkDocument sampleClock longParagraphDocument (lit "notes.md")
            noMetadata 0))
  = [(675, 500)]
  /\ Config.maxTokens < 675.
Proof. split; [vm_compute; reflexivity | unfold Config.maxTokens; lia]. Qed.

(** The text chunker itself leaves the bound when overlap is carried over,
    and when a long sentence follows a short one. *)
Example overlap_exceeds_bound :
  map (TextChunker.countTokens TextChunker.noTokenizer)
    (TextChunker.splitBySentences TextChunker.noTokenizer
       TextChunker.fourSentences 10 3)
  = [6; 11; 10; 9].
Proof. vm_compute. reflexivity. Qed.

Example long_sentence_is_not_split :
  TextChunker.splitBySentences TextChunker.noTokenizer
    (lit "Hi. This sentence is far too long to fit in the bound. Bye.") 5 0
  = [lit "Hi."; lit "This sentence is far too long to fit in the bound."; lit "Bye."].
Proof. vm_compute. reflexivity. Qed.

(** C8.  Two runs on the same text with the same configuration, whatever the
    clock reads in each and however the two tokenizers are implemented as
    long as they count alike: [chunkText] returns the same chunks, and the
    semantic chunker returns lists of the same length whose chunks agree on
    text, position, token count, content type, importance and readability. *)
Theorem chunking_is_deterministic
  (encode1 encode2 : str -> option nat) (text source : str)
  (opts : TextChunker.ChunkingOptions)
  (clock1 clock2 : nat -> Z) (k1 k2 : nat) (content : str) (metadata : CallerMetadata)
  (Hencode : forall t, encode1 t = encode2 t) :
  TextChunker.chunkText encode1 text source opts
  = TextChunker.chunkText encode2 text source opts /\
  map boundariesAndScores (fst (chunkDocument clock1 content source metadata k1))
  = map boundariesAndScores (fst (chunkDocument clock2 content source metadata k2)).
Proof.
  split.
  - now apply TextChunkerFacts.chunkText_tokenizer.
  - apply chunkDocument_same.
Qed.

Lemma chunking_is_deterministic_witness :
  TextChunker.chunkText TextChunker.noTokenizer TextChunker.fourSentences (lit "notes.md")
    TextChunker.smallChunks
  = TextChunker.chunkText TextChunker.noTokenizer TextChunker.fourSentences (lit "notes.md")
      TextChunker.smallChunks /\
  map boundariesAndScores
    (fst (chunkDocument sampleClock shortDocument (lit "notes.md") noMetadata 0))
  = map boundariesAndScores
      (fst (chunkDocument laterClock shortDocument (lit "notes.md") noMetadata 5)).
Proof.
  apply (chunking_is_deterministic TextChunker.noTokenizer TextChunker.noTokenizer).
  intros t. reflexivity.
Defined.

(** The identifiers, on the other hand, carry the reading of the clock. *)
Example identifiers_follow_the_clock :
  map chunk_id (fst (chunkDocument sampleClock shortDocument (lit "notes.md") noMetadata 0))
  = [lit "chunk_0_1700000000000"; lit "chunk_1_1700000000002"] /\
  map chunk_id (fst (chunkDocument laterClock shortDocument (lit "notes.md") noMetadata 5))
  = [lit "chunk_0_1800000000035"; lit "chunk_1_1800000000049"].
Proof. split; vm_compute; reflexivity. Qed.

End SemanticChunkerFacts.

(** * Further properties *)

(** ** Batches *)

Module BatchesFacts.

Import Batches.

Lemma batchesOf_from_concat {A} n : forall fuel (l : list A),
  0 < n -> length l <= fuel -> concat (batchesOf_from fuel n l) = l.
Proof.
  induction fuel as [|fuel IH]; intros l Hn Hl; simpl.
  - destruct l; [reflexivity | simpl in Hl; lia].
  - destruct l as [|x l']; [reflexivity|].
    cbn [concat]. rewrite IH; [apply take_drop | exact Hn |].
    rewrite length_drop. simpl in *. lia.
Qed.

Lemma batchesOf_from_empty {A} fuel n : batchesOf_from fuel n ([] : list A) = [].
Proof. destruct fuel; reflexivity. Qed.

Lemma batchesOf_from_nonempty {A} n : forall fuel (l : list A),
  0 < n -> Forall (fun b => b <> []) (batchesOf_from fuel n l).
Proof.
  induction fuel as [|fuel IH]; intros l Hn; simpl; [constructor|].
  destruct l as [|x l']; [constructor|].
  constructor; [|now apply IH].
  destruct n; [lia | discriminate].
Qed.

Lemma batchesOf_from_nil {A} n fuel (l : list A) :
  length l <= fuel -> batchesOf_from fuel n l = [] -> l = [].
Proof.
  destruct fuel; simpl; intros Hl H.
  - destruct l; [reflexivity | simpl in Hl; lia].
  - destruct l; [reflexivity | discriminate].
Qed.

Lemma batchesOf_from_length {A} n : forall fuel (l : list A),
  (0 < n) -> (length l <= fuel) ->
  length (batchesOf_from fuel n l) = ((length l + n - 1) / n).
Proof.
  induction fuel as [|fuel IH]; intros l Hn Hl.
  - destruct l; [|simpl in Hl; lia]. simpl.
    symmetry. apply Nat.div_small. lia.
  - destruct l as [|x l'].
    + simpl. symmetry. apply Nat.div_small. lia.
    + cbn [batchesOf_from length]. rewrite IH; [|exact Hn|rewrite length_drop; simpl in *; lia].
      rewrite length_drop. cbn [length].
      destruct (Nat.le_gt_cases n (S (length l'))) as [Hge|Hlt].
      * replace (S (length l') + n - 1) with ((S (length l') - n + n - 1) + 1 * n) by lia.
        rewrite Nat.div_add by lia. lia.
      * replace (S (length l') - n) with 0 by lia.
        rewrite (Nat.div_small (0 + n - 1) n) by lia.
        apply (Nat.div_unique _ _ 1 (length l')); lia.
Qed.

End BatchesFacts.

Module HashingFacts.

Import Retrieval Hashing.
Local Open Scope Z_scope.

Lemma toInt32_range z : -2147483648 <= toInt32 z < 2147483648.
Proof.
  unfold toInt32.
  pose proof (Z.mod_pos_bound (z + 2147483648) 4294967296 ltac:(lia)). lia.
Qed.

Lemma toInt32_shift z k : toInt32 (z + 4294967296 * k) = toInt32 z.
Proof.
  unfold toInt32.
  replace (z + 4294967296 * k + 2147483648) with (z + 2147483648 + k * 4294967296) by lia.
  now rewrite Z_mod_plus_full.
Qed.

Lemma toInt32_wraps z : exists k, toInt32 z = z + 4294967296 * k.
Proof.
  exists (- ((z + 2147483648) / 4294967296)). unfold toInt32.
  pose proof (Z.div_mod (z + 2147483648) 4294967296 ltac:(lia)). lia.
Qed.

Lemma hashStep_polynomial h p c :
  h = toInt32 p -> hashStep h c = toInt32 (polynomialStep p c).
Proof.
  intros ->. unfold hashStep, polynomialStep. cbv zeta.
  rewrite Z.land_diag, Z.shiftl_mul_pow2 by lia.
  destruct (toInt32_wraps p) as (k & ->).
  destruct (toInt32_wraps ((p + 4294967296 * k) * 2 ^ 5)) as (k' & ->).
  replace ((p + 4294967296 * k) * 2 ^ 5 + 4294967296 * k' - (p + 4294967296 * k)
           + Z.of_N (code c))
    with (31 * p + Z.of_N (code c) + 4294967296 * (31 * k + k')) by lia.
  apply toInt32_shift.
Qed.

Lemma hashContent_from content : forall h p,
  h = toInt32 p ->
  fold_left hashStep content h = toInt32 (fold_left polynomialStep content p).
Proof.
  induction content as [|c content IH]; intros h p Hh; simpl.
  - exact Hh.
  - apply IH, hashStep_polynomial, Hh.
Qed.

(** X1.  [hashContent] is the polynomial hash with base 31 over the
    character codes, wrapped to a signed 32-bit integer after every
    character; its value is a signed 32-bit integer. *)
Theorem hashContent_polynomial (content : str) :
  hashContent content = toInt32 (polynomial31 content) /\
  -2147483648 <= hashContent content < 2147483648.
Proof.
  assert (H : hashContent content = toInt32 (polynomial31 content)).
  { apply hashContent_from. reflexivity. }
  split; [exact H|]. rewrite H. apply toInt32_range.
Qed.

End HashingFacts.

Module DedupFacts.

Import Retrieval RetrievalFacts.

Lemma filterDuplicates_from_snoc documents doc : forall seen unique,
  filterDuplicates_from seen unique (documents ++ [doc]) =
    if decide (contentKey doc ∈ seen \/ contentKey doc ∈ map contentKey documents)
    then filterDuplicates_from seen unique documents
    else filterDuplicates_from seen unique documents ++ [doc].
Proof.
  induction documents as [|d rest IH]; intros seen unique; simpl.
  - fold (contentKey doc). apply decide_ext.
    rewrite elem_of_nil. tauto.
  - fold (contentKey d). destruct (decide (contentKey d ∈ seen)) as [Hin|Hout].
    + rewrite IH. apply decide_ext. rewrite elem_of_cons.
      split; [tauto|]. intros [H|[H|H]]; auto. rewrite H. auto.
    + rewrite IH. apply decide_ext.
      rewrite elem_of_cons, elem_of_union, elem_of_singleton. tauto.
Qed.

Lemma filterDuplicates_snoc documents doc :
  filterDuplicates (documents ++ [doc]) =
    if decide (contentKey doc ∈ map contentKey documents)
    then filterDuplicates documents
    else filterDuplicates documents ++ [doc].
Proof.
  unfold filterDuplicates. rewrite filterDuplicates_from_snoc.
  apply decide_ext. rewrite elem_of_empty. tauto.
Qed.

Lemma filterDuplicates_distinct documents :
  NoDup (map contentKey documents) -> filterDuplicates documents = documents.
Proof.
  induction documents as [|doc documents IH] using rev_ind; intros Hnd; [reflexivity|].
  rewrite filterDuplicates_snoc.
  rewrite map_app in Hnd. apply NoDup_app in Hnd as (Hnd & Hout & _).
  destruct (decide (contentKey doc ∈ map contentKey documents)) as [Hin|_].
  - exfalso. apply (Hout _ Hin). simpl. left.
  - now rewrite IH.
Qed.

(** X2.  [filterDuplicates] keeps the first document of every content hash:
    a document appended to a batch leaves the selection made before it as it
    is, and is itself selected exactly when no document before it has its
    hash. *)
Theorem filterDuplicates_first_occurrence (documents : list NewDocument)
    (doc : NewDocument) :
  filterDuplicates (documents ++ [doc]) =
    if decide (hashContent (nd_content doc)
               ∈ map (fun d => hashContent (nd_content d)) documents)
    then filterDuplicates documents
    else filterDuplicates documents ++ [doc].
Proof. apply filterDuplicates_snoc. Qed.

(** X3.  Filtering duplicates twice changes nothing more, and a batch whose
    content hashes are pairwise different is sent as it is. *)
Theorem filterDuplicates_idempotent (documents : list NewDocument) :
  filterDuplicates (filterDuplicates documents) = filterDuplicates documents /\
  (NoDup (map contentKey documents) -> filterDuplicates documents = documents).
Proof.
  split; [|apply filterDuplicates_distinct].
  apply filterDuplicates_distinct, filterDuplicates_spec.
Qed.

End DedupFacts.

Module SimilarityFacts.

Import Retrieval RetrievalFacts NumFacts Searching.
Local Open Scope Q_scope.

Lemma split_ws_go_cons s : forall cur gap, exists w ws, split_ws_go cur gap s = w :: ws.
Proof.
  induction s as [|c s IH]; intros cur gap; simpl; [eauto|].
  destruct (isSpace c); [destruct gap|]; eauto.
Qed.

Lemma wordSet_size text : (0 < size (wordSet text))%nat.
Proof.
  unfold wordSet, split_ws.
  destruct (split_ws_go_cons (toLowerCase text) [] false) as (w & ws & ->).
  simpl. rewrite size_union_alt, size_singleton. lia.
Qed.

Lemma ofNat_le n m : (n <= m)%nat -> ofNat n <= ofNat m.
Proof. intros H. unfold ofNat. rewrite <- Zle_Qle. lia. Qed.

Lemma ofNat_pos n : (0 < n)%nat -> 0 < ofNat n.
Proof. intros H. unfold ofNat. change 0 with (inject_Z 0). rewrite <- Zlt_Qlt. lia. Qed.

Lemma ofNat_inj n m : ofNat n == ofNat m -> n = m.
Proof. unfold ofNat. rewrite inject_Z_injective. lia. Qed.

Lemma ratio_bounds n m : (n <= m)%nat -> (0 < m)%nat -> 0 <= ofNat n / ofNat m <= 1.
Proof.
  intros Hle Hpos. pose proof (ofNat_pos m Hpos) as Hm.
  pose proof (ofNat_le n m Hle) as Hnm. pose proof (ofNat_le 0 n ltac:(lia)) as Hn.
  change (ofNat 0) with 0 in Hn.
  split.
  - apply Qle_shift_div_l; [exact Hm | lra].
  - apply Qle_shift_div_r; [exact Hm | lra].
Qed.

Lemma ratio_one n m : (0 < m)%nat -> ofNat n / ofNat m == 1 <-> n = m.
Proof.
  intros Hpos. pose proof (ofNat_pos m Hpos) as Hm. split.
  - intros H. apply ofNat_inj.
    assert (E : ofNat n == ofNat n / ofNat m * ofNat m) by (field; lra).
    rewrite E, H. lra.
  - intros ->. field. lra.
Qed.

Lemma union_size text1 text2 : (0 < size (wordSet text1 ∪ wordSet text2))%nat.
Proof.
  pose proof (wordSet_size text1).
  pose proof (subseteq_size (wordSet text1) (wordSet text1 ∪ wordSet text2)
                (union_subseteq_l _ _)). lia.
Qed.

Lemma textSimilarity_le_1 text1 text2 : 0 <= textSimilarity text1 text2 <= 1.
Proof.
  unfold textSimilarity. apply ratio_bounds.
  - apply subseteq_size. etransitivity; [apply intersection_subseteq_l|].
    apply union_subseteq_l.
  - apply union_size.
Qed.

(** X4.  [textSimilarity] is the Jaccard index of the two sets of lower-case
    words: it lies between 0 and 1, does not depend on the order of its
    arguments, and is 1 exactly when the two texts have the same set of
    words. *)
Theorem textSimilarity_jaccard (text1 text2 : str) :
  0 <= textSimilarity text1 text2 <= 1 /\
  textSimilarity text1 text2 = textSimilarity text2 text1 /\
  (textSimilarity text1 text2 == 1 <-> wordSet text1 = wordSet text2).
Proof.
  split; [apply textSimilarity_le_1|]. split.
  - unfold textSimilarity.
    now rewrite (comm_L (∩) (wordSet text1)), (comm_L (∪) (wordSet text1)).
  - unfold textSimilarity.
    rewrite (ratio_one _ _ (union_size text1 text2)). split.
    + intros Hsize.
      assert (Heq : wordSet text1 ∩ wordSet text2 ≡ wordSet text1 ∪ wordSet text2).
      { apply set_subseteq_size_equiv; [|lia].
        etransitivity; [apply intersection_subseteq_l | apply union_subseteq_l]. }
      apply leibniz_equiv. intros w. specialize (Heq w).
      rewrite elem_of_intersection, elem_of_union in Heq. tauto.
    + intros ->. f_equal. apply leibniz_equiv. intros w.
      rewrite elem_of_intersection, elem_of_union. tauto.
Qed.

(** *** Diversification *)

Lemma spread_snoc threshold l r :
  spread threshold l ->
  existsb (fun existing => ltb threshold (textSimilarity (sr_content r) (sr_content existing)))
    l = false ->
  spread threshold (l ++ [r]).
Proof.
  intros Hl Hex l1 b l2 E.
  destruct l2 as [|x l2 _] using rev_ind.
  - apply app_inj_tail in E as [-> ->].
    apply Forall_forall. intros a Ha Hsim.
    assert (Ht : existsb (fun existing =>
                   ltb threshold (textSimilarity (sr_content b) (sr_content existing))) l1
                 = true).
    { apply existsb_exists. exists a. split; [now apply list_elem_of_In|].
      apply ltb_lt, Hsim. }
    congruence.
  - rewrite app_comm_cons, app_assoc in E. apply app_inj_tail in E as [-> ->].
    apply (Hl l1 b l2 eq_refl).
Qed.

Lemma diversify_from_spread threshold results : forall diversified,
  spread threshold diversified ->
  spread threshold (diversify_from threshold diversified results).
Proof.
  induction results as [|r rest IH]; intros diversified Hd; simpl; [exact Hd|].
  destruct (existsb _ diversified) eqn:E; simpl; apply IH; [exact Hd|].
  now apply spread_snoc.
Qed.

Lemma diversify_from_covers threshold results : forall diversified r,
  r ∈ diversified ++ results ->
  r ∈ diversify_from threshold diversified results \/
  exists kept, kept ∈ diversify_from threshold diversified results /\
               tooSimilar threshold r kept.
Proof.
  induction results as [|x rest IH]; intros diversified r Hr; simpl.
  - rewrite app_nil_r in Hr. now left.
  - destruct (existsb _ diversified) eqn:E; simpl.
    + apply elem_of_app in Hr as [Hr | Hr].
      * apply IH. apply elem_of_app. now left.
      * apply elem_of_cons in Hr as [-> | Hr]; [|apply IH, elem_of_app; now right].
        right. apply existsb_exists in E as (kept & Hin & Hsim).
        exists kept. split; [|apply ltb_lt, Hsim].
        destruct (diversify_from_app threshold rest diversified) as (k & -> & _).
        apply elem_of_app. left. now apply list_elem_of_In.
    + apply IH. rewrite <- app_assoc. exact Hr.
Qed.

(** X5.  In the list [diversifyResults] returns no result is more similar
    than the threshold to a result before it, and every result of the input
    is either returned or more similar than the threshold to one that is. *)
Theorem diversifyResults_spread (results : list SearchResult) (threshold : Q) :
  let out := diversifyResults results threshold in
  (forall i j a b,
     (i < j)%nat -> out !! i = Some a -> out !! j = Some b ->
     textSimilarity (sr_content b) (sr_content a) <= threshold) /\
  (forall r, r ∈ results ->
     r ∈ out \/
     exists kept, kept ∈ out /\
                  threshold < textSimilarity (sr_content r) (sr_content kept)).
Proof.
  cbv zeta. split.
  - intros i j a b Hij Ha Hb.
    assert (Hs : spread threshold (diversifyResults results threshold)).
    { apply diversify_from_spread. intros [|? ?] ? ? E; discriminate. }
    apply take_drop_middle in Hb.
    specialize (Hs _ _ _ (eq_sym Hb)).
    assert (Hin : a ∈ take j (diversifyResults results threshold)).
    { apply list_elem_of_lookup. exists i. rewrite lookup_take_lt by exact Hij. exact Ha. }
    rewrite Forall_forall in Hs. specialize (Hs a Hin).
    unfold tooSimilar in Hs. apply Qnot_lt_le, Hs.
  - intros r Hr. apply (diversify_from_covers threshold results [] r Hr).
Qed.

Lemma diversify_from_all threshold results : forall diversified,
  1 <= threshold ->
  diversify_from threshold diversified results = diversified ++ results.
Proof.
  induction results as [|r rest IH]; intros diversified Ht; simpl.
  - now rewrite app_nil_r.
  - assert (E : existsb (fun existing =>
                  ltb threshold (textSimilarity (sr_content r) (sr_content existing)))
                  diversified = false).
    { apply not_true_is_false. intros H.
      apply existsb_exists in H as (x & _ & H). apply ltb_lt in H.
      pose proof (textSimilarity_le_1 (sr_content r) (sr_content x)). lra. }
    rewrite E. simpl. rewrite IH by exact Ht. now rewrite <- app_assoc.
Qed.

(** X6.  A diversity threshold of 1 or more removes nothing. *)
Theorem diversifyResults_off (results : list SearchResult) (threshold : Q)
  (Hthreshold : 1 <= threshold) :
  diversifyResults results threshold = results.
Proof. apply (diversify_from_all threshold results [] Hthreshold). Qed.

Lemma diversifyResults_off_witness :
  diversifyResults (mapi ofMatchRow threeRows) 1 = mapi ofMatchRow threeRows.
Proof. apply (diversifyResults_off (mapi ofMatchRow threeRows) 1). lra. Defined.

(** *** Cosine similarity *)

Lemma Qmult_swap (x y : Q) : x * y = y * x.
Proof. unfold Qmult. f_equal; [apply Z.mul_comm | apply Pos.mul_comm]. Qed.

Lemma pairs_swap a : forall b d na nb,
  length a = length b ->
  fold_left pairStep (combine b a) (d, nb, na)
  = (let '(d', na', nb') := fold_left pairStep (combine a b) (d, na, nb) in (d', nb', na')).
Proof.
  induction a as [|x a IH]; intros [|y b] d na nb Hl; simpl in *; try discriminate;
    [reflexivity|].
  rewrite (Qmult_swap y x). apply IH. lia.
Qed.

(** X7.  [cosineSimilarity] does not depend on the order of its arguments. *)
Theorem cosineSimilarity_symmetric (sqrt : Q -> Q) (a b : list Q) :
  cosineSimilarity sqrt a b = cosineSimilarity sqrt b a.
Proof.
  unfold cosineSimilarity. rewrite (Nat.eqb_sym (length b)).
  destruct (length a =? length b)%nat eqn:E; simpl; [|reflexivity].
  apply Nat.eqb_eq in E.
  rewrite (cosineSums_pairs a b E), (cosineSums_pairs b a (eq_sym E)).
  rewrite (pairs_swap a b 0 0 0 E).
  destruct (fold_left pairStep (combine a b) (0, 0, 0)) as [[d na] nb].
  rewrite (orb_comm (eqb nb 0)). destruct (eqb na 0 || eqb nb 0); [reflexivity|].
  now rewrite (Qmult_swap (sqrt nb)).
Qed.

End SimilarityFacts.

Module SearchFacts.

Import Retrieval RetrievalFacts NumFacts ArrFacts Searching.
Local Open Scope Q_scope.

Lemma mapi_from_elem {A B} (f : nat -> A -> B) l : forall i y,
  y ∈ mapi_from f i l -> exists k x, l !! k = Some x /\ y = f (i + k)%nat x.
Proof.
  induction l as [|x l IH]; intros i y Hy; simpl in Hy.
  - inversion Hy.
  - apply elem_of_cons in Hy as [-> | Hy].
    + exists 0%nat, x. split; [reflexivity | now rewrite Nat.add_0_r].
    + destruct (IH _ _ Hy) as (k & x' & Hk & ->).
      exists (S k), x'. split; [exact Hk | f_equal; lia].
Qed.




Section Search.

Variable sqrt : Q -> Q.
Variable clock : nat -> Z.
Variable engineOrder : list JsNumber -> list nat.





(** *** What post-processing keeps *)

Lemma rerankResults_candidates results r :
  r ∈ rerankResults clock results ->
  exists r0, r0 ∈ results /\ candidate r = candidate r0.
Proof.
  intros Hr. apply mapi_from_elem in Hr as (k & x & Hk & ->).
  exists x. split; [apply list_elem_of_lookup; eauto | reflexivity].
Qed.

Lemma postprocess_candidates (vectorResults : list SearchResult)
    (searchOpts : SearchOptions) r :
  r ∈ slice0 (sortByScore engineOrder
               (applyBoostFactors
                  (let results :=
                     if so_rerankResults searchOpts
                     then rerankResults clock vectorResults else vectorResults in
                   if ltb 0 (so_diversityThreshold searchOpts)
                   then diversifyResults results (so_diversityThreshold searchOpts)
                   else results)
                  (so_boostFactors searchOpts)))
             (so_limit searchOpts) ->
  exists r0, r0 ∈ vectorResults /\ candidate r = candidate r0.
Proof.
  intros Hr. apply (fun H => elem_of_sublist _ _ _ H (slice0_sublist _ _)) in Hr.
  rewrite (sortByScore_Permutation _ _) in Hr.
  apply list_elem_of_fmap in Hr as (r1 & -> & Hr1). cbv zeta in Hr1.
  assert (Hr2 : r1 ∈ (if so_rerankResults searchOpts
                      then rerankResults clock vectorResults else vectorResults)).
  { destruct (ltb 0 (so_diversityThreshold searchOpts)); [|exact Hr1].
    apply (elem_of_sublist _ _ _ Hr1 (diversifyResults_sublist _ _)). }
  destruct (so_rerankResults searchOpts).
  - apply rerankResults_candidates in Hr2 as (r0 & Hr0 & E).
    exists r0. split; [exact Hr0|]. rewrite <- E. reflexivity.
  - exists r1. split; [exact Hr2 | reflexivity].
Qed.

(** X9.  Every result of [similaritySearch] is one of the rows the
    [match_documents] procedure returned, with its identifier, text and
    similarity as returned; its [rank] is the position the store gave to the
    row, not its position in the list that is returned after re-scoring
    and sorting. *)
Theorem similaritySearch_keeps_store_rank (store : Store) (queryEmbedding : list Q)
  (searchOpts : SearchOptions) (rows : list MatchRow)
  (Hrpc : rpc_match_documents store queryEmbedding (so_threshold searchOpts)
            (so_limit searchOpts * 2)%Z = StoreData (Some rows)) :
  Forall (fun r =>
            exists i row,
              rows !! i = Some row /\
              sr_rank r = (i + 1)%nat /\
              sr_id r = mr_id row /\
              sr_content r = mr_content row /\
              sr_similarity r = mr_similarity row)
         (similaritySearch sqrt clock engineOrder store queryEmbedding searchOpts).
Proof.
  apply Forall_forall. intros r Hr.
  unfold similaritySearch, vectorSimilaritySearch in Hr. rewrite Hrpc in Hr.
  cbv zeta in Hr. simpl default in Hr.
  apply postprocess_candidates in Hr as (r0 & Hr0 & E).
  apply mapi_from_elem in Hr0 as (i & row & Hi & ->).
  exists i, row. injection E as -> -> _ _ -> -> _.
  simpl. auto.
Qed.

End Search.


Lemma similaritySearch_keeps_store_rank_witness :
  Forall (fun r =>
            exists i row,
              threeRows !! i = Some row /\
              sr_rank r = (i + 1)%nat /\
              sr_id r = mr_id row /\
              sr_content r = mr_content row /\
              sr_similarity r = mr_similarity row)
         (similaritySearch sampleSqrt sampleClock stableOrder (storeFinding threeRows) []
            defaultSearchOptions).
Proof.
  apply (similaritySearch_keeps_store_rank sampleSqrt sampleClock stableOrder
           (storeFinding threeRows) [] defaultSearchOptions threeRows).
  reflexivity.
Defined.

End SearchFacts.

Module UploadFacts.

Import Retrieval RetrievalFacts NumFacts Batches BatchesFacts Upload.

Section Loop.

Variable store : Store.
Variable embeddings : list EnhancedEmbedding.

Lemma uploadLoop_spec : forall fuel i p,
  length (drop i embeddings) <= fuel ->
  let results := map (uploadBatch store) (batchesOf_from fuel UPLOADS (drop i embeddings)) in
  let q := uploadLoop fuel store embeddings i p in
  p_uploaded q = p_uploaded p + list_sum (map uploaded results) /\
  p_failed q = p_failed p + list_sum (map failed results) /\
  p_duplicatesSkipped q = p_duplicatesSkipped p + list_sum (map duplicatesSkipped results) /\
  p_uploadedIds q = p_uploadedIds p ++ concat (map uploadedIds results) /\
  p_errors q = p_errors p ++ concat (map upload_errors results) /\
  p_slept q = p_slept p ++ repeat 50%Q (length results - 1) /\
  p_qualityDistribution q
  = fold_left countQuality (drop i embeddings) (p_qualityDistribution p) /\
  p_totalTokens q
  = fold_left (fun total emb => total + emb_tokens emb) (drop i embeddings)
      (p_totalTokens p) /\
  p_totalQuality q
  = fold_left (fun total emb => (total + overallScore (emb_quality emb))%Q)
      (drop i embeddings) (p_totalQuality p).
Proof.
  induction fuel as [|fuel IH]; intros i p Hfuel.
  - assert (E : drop i embeddings = []) by (destruct (drop i embeddings); [reflexivity | simpl in Hfuel; lia]).
    cbv zeta. rewrite E. simpl. rewrite !app_nil_r. repeat split; lia.
  - cbv zeta. cbn [uploadLoop batchesOf_from].
    destruct (i <? length embeddings) eqn:Ei.
    + apply Nat.ltb_lt in Ei.
      destruct (drop i embeddings) as [|x rest] eqn:Ed.
      { apply (f_equal length) in Ed. rewrite length_drop in Ed. simpl in Ed. lia. }
      rewrite <- Ed.
      assert (Hdd : drop UPLOADS (drop i embeddings) = drop (i + UPLOADS) embeddings).
      { rewrite drop_drop. reflexivity. }
      rewrite Hdd.
      assert (Hf : length (drop (i + UPLOADS) embeddings) <= fuel).
      { rewrite <- Hdd, length_drop, Ed. simpl in *. unfold UPLOADS. lia. }
      specialize (IH (i + UPLOADS) (uploadRound store embeddings i p) Hf).
      cbv zeta in IH.
      destruct IH as (H1 & H2 & H3 & H4 & H5 & H6 & H7 & H8 & H9).
      rewrite H1, H2, H3, H4, H5, H6, H7, H8, H9. cbn [uploadRound p_uploaded p_failed
        p_duplicatesSkipped p_uploadedIds p_errors p_slept p_qualityDistribution
        p_totalTokens p_totalQuality map list_sum concat length].
      rewrite <- !app_assoc.
      assert (F : forall (B : Type) (f : B -> EnhancedEmbedding -> B) b0,
                 fold_left f (drop i embeddings) b0
                 = fold_left f (drop (i + UPLOADS) embeddings)
                     (fold_left f (take UPLOADS (drop i embeddings)) b0)).
      { intros B f b0. now rewrite <- Hdd, <- fold_left_app, take_drop. }
      rewrite (F _ countQuality), (F _ (fun total emb => total + emb_tokens emb)),
              (F _ (fun total emb => (total + overallScore (emb_quality emb))%Q)).
      split; [simpl; lia|]. split; [simpl; lia|]. split; [simpl; lia|].
      split; [reflexivity|]. split; [reflexivity|].
      split; [|split; [reflexivity | split; reflexivity]].
      rewrite Nat.sub_succ, Nat.sub_0_r, length_map.
      destruct (i + UPLOADS <? length embeddings) eqn:En.
      * apply Nat.ltb_lt in En.
        destruct (batchesOf_from fuel UPLOADS (drop (i + UPLOADS) embeddings)) eqn:Eb.
        { apply batchesOf_from_nil in Eb; [|exact Hf].
          apply (f_equal length) in Eb. rewrite length_drop in Eb. simpl in Eb. lia. }
        cbn [length]. rewrite Nat.sub_succ, Nat.sub_0_r, <- app_assoc. reflexivity.
      * apply Nat.ltb_ge in En.
        rewrite (drop_ge embeddings (i + UPLOADS)) by lia.
        destruct fuel; simpl; now rewrite app_nil_r.
    + apply Nat.ltb_ge in Ei. rewrite (drop_ge embeddings i) by lia.
      simpl. rewrite !app_nil_r. repeat split; lia.
Qed.

End Loop.

Lemma uploadLoop_run store embeddings :
  let results := map (uploadBatch store) (batchesOf UPLOADS embeddings) in
  let q := uploadLoop (length embeddings) store embeddings 0 start in
  p_uploaded q = list_sum (map uploaded results) /\
  p_failed q = list_sum (map failed results) /\
  p_duplicatesSkipped q = list_sum (map duplicatesSkipped results) /\
  p_uploadedIds q = concat (map uploadedIds results) /\
  p_errors q = concat (map upload_errors results) /\
  p_slept q = repeat 50%Q (length results - 1) /\
  p_qualityDistribution q
  = fold_left countQuality embeddings {| high := 0; medium := 0; low := 0 |} /\
  p_totalTokens q = fold_left (fun total emb => total + emb_tokens emb) embeddings 0.
Proof.
  pose proof (uploadLoop_spec store embeddings (length embeddings) 0 start) as H.
  rewrite drop_0 in H. specialize (H (Nat.le_refl _)). cbv zeta in H.
  destruct H as (H1 & H2 & H3 & H4 & H5 & H6 & H7 & H8 & _).
  cbv zeta. unfold batchesOf. rewrite H1, H2, H3, H4, H5, H6, H7, H8.
  unfold start. cbn [p_uploaded p_failed p_duplicatesSkipped p_uploadedIds p_errors
                     p_slept p_qualityDistribution p_totalTokens app Nat.add].
  tauto.
Qed.

Lemma countQuality_fold embeddings : forall d,
  let d' := fold_left countQuality embeddings d in
  high d' = high d + length (List.filter
              (fun e => leb 0.8 (overallScore (emb_quality e))) embeddings) /\
  medium d' = medium d + length (List.filter
              (fun e => negb (leb 0.8 (overallScore (emb_quality e)))
                        && leb 0.6 (overallScore (emb_quality e))) embeddings) /\
  low d' = low d + length (List.filter
              (fun e => negb (leb 0.6 (overallScore (emb_quality e)))) embeddings) /\
  high d' + medium d' + low d' = high d + medium d + low d + length embeddings.
Proof.
  induction embeddings as [|e l IH]; intros d; cbv zeta; simpl.
  - lia.
  - specialize (IH (countQuality d e)). cbv zeta in IH.
    destruct IH as (Hh & Hm & Hl & Hsum). rewrite Hh, Hm, Hl.
    unfold countQuality.
    destruct (leb 0.8 (overallScore (emb_quality e))) eqn:E8;
      destruct (leb 0.6 (overallScore (emb_quality e))) eqn:E6; simpl; try lia.
    exfalso. apply leb_le in E8. apply leb_gt in E6. lra.
Qed.

Lemma tokens_fold embeddings : forall n,
  fold_left (fun total emb => total + emb_tokens emb) embeddings n
  = n + list_sum (map emb_tokens embeddings).
Proof.
  induction embeddings as [|e l IH]; intros n; simpl; [lia|]. rewrite IH. lia.
Qed.

(** X10.  [uploadEmbeddings] is [uploadBatch] applied to the consecutive
    slices of 100 embeddings: the counts it returns are the sums of the
    counts of the slices, the identifiers and error messages follow in the
    order of the slices, and it sleeps 50 ms between two slices. *)
Theorem uploadEmbeddings_by_batches (store : Store) (clock : nat -> Z)
    (embeddings : list EnhancedEmbedding) :
  let results := map (uploadBatch store) (batchesOf UPLOADS embeddings) in
  let '(result, slept) := uploadEmbeddings store clock embeddings in
  up_uploaded result = list_sum (map uploaded results) /\
  up_failed result = list_sum (map failed results) /\
  stat_duplicatesSkipped (statistics result) = list_sum (map duplicatesSkipped results) /\
  up_uploadedIds result = concat (map uploadedIds results) /\
  up_errors result = concat (map upload_errors results) /\
  up_success result = (0 <? list_sum (map uploaded results)) /\
  slept = repeat 50%Q (length results - 1).
Proof.
  cbv zeta. unfold uploadEmbeddings. cbv zeta.
  pose proof (uploadLoop_run store embeddings) as H. cbv zeta in H.
  destruct H as (H1 & H2 & H3 & H4 & H5 & H6 & _).
  cbn [up_uploaded up_failed statistics stat_duplicatesSkipped up_uploadedIds up_errors
       up_success].
  rewrite H1, H2, H3, H4, H5, H6. tauto.
Qed.

(** X11.  The quality distribution of [uploadEmbeddings] counts every
    embedding of the input once, duplicates and failed batches included:
    as high from 0.8, as medium from 0.6, as low below; and the token total
    is the sum over the whole input. *)
Theorem uploadEmbeddings_distribution (store : Store) (clock : nat -> Z)
    (embeddings : list EnhancedEmbedding) :
  let stats := statistics (fst (uploadEmbeddings store clock embeddings)) in
  let d := qualityDistribution stats in
  high d = length (List.filter
             (fun e => leb 0.8 (overallScore (emb_quality e))) embeddings) /\
  medium d = length (List.filter
             (fun e => negb (leb 0.8 (overallScore (emb_quality e)))
                       && leb 0.6 (overallScore (emb_quality e))) embeddings) /\
  low d = length (List.filter
             (fun e => negb (leb 0.6 (overallScore (emb_quality e)))) embeddings) /\
  high d + medium d + low d = totalDocuments stats /\
  totalDocuments stats = length embeddings /\
  totalTokens stats = list_sum (map emb_tokens embeddings).
Proof.
  cbv zeta. unfold uploadEmbeddings. cbv zeta.
  pose proof (uploadLoop_run store embeddings) as H. cbv zeta in H.
  destruct H as (_ & _ & _ & _ & _ & _ & H7 & H8).
  cbn [fst statistics qualityDistribution totalDocuments totalTokens].
  rewrite H7, H8, tokens_fold.
  pose proof (countQuality_fold embeddings {| high := 0; medium := 0; low := 0 |}) as C.
  cbv zeta in C. cbn [high medium low Nat.add] in C. cbn [Nat.add]. tauto.
Qed.

(** *** The store accepts or refuses *)

Lemma filterDuplicates_nonempty doc documents : filterDuplicates (doc :: documents) <> [].
Proof.
  destruct (filterDuplicates_spec (doc :: documents)) as (_ & _ & Hall).
  intros E. rewrite E in Hall. specialize (Hall (contentKey doc)).
  simpl in Hall. apply (elem_of_nil (contentKey doc)), Hall. left.
Qed.

Lemma uploadBatch_accepted store batch :
  accepts store ->
  uploaded (uploadBatch store batch) + duplicatesSkipped (uploadBatch store batch)
  = length batch /\
  failed (uploadBatch store batch) = 0 /\
  upload_errors (uploadBatch store batch) = [] /\
  length (uploadedIds (uploadBatch store batch)) = uploaded (uploadBatch store batch).
Proof.
  intros Hacc. unfold uploadBatch.
  pose proof (sublist_length _ _ (proj1 (filterDuplicates_spec (map toDocument batch)))) as Hle.
  rewrite length_map in *.
  destruct (filterDuplicates (map toDocument batch)) as [|d l] eqn:E.
  - simpl in *. repeat split; lia.
  - destruct (Hacc (d :: l)) as (ids & -> & Hids). simpl in *. repeat split; lia.
Qed.

Lemma uploadBatch_refused store error batch :
  refuses store error -> batch <> [] ->
  uploaded (uploadBatch store batch) = 0 /\
  failed (uploadBatch store batch) = length batch /\
  uploadedIds (uploadBatch store batch) = [] /\
  upload_errors (uploadBatch store batch) = [errorText error].
Proof.
  intros Href Hne. unfold uploadBatch.
  destruct batch as [|e batch]; [contradiction|].
  pose proof (filterDuplicates_nonempty (toDocument e) (map toDocument batch)) as Hn.
  change (toDocument e :: map toDocument batch) with (map toDocument (e :: batch)) in Hn.
  destruct (filterDuplicates (map toDocument (e :: batch))) as [|d l]; [contradiction|].
  rewrite Href. simpl. auto.
Qed.

Lemma sum_lengths {A} (ls : list (list A)) :
  list_sum (map (@length A) ls) = length (concat ls).
Proof. induction ls as [|l ls IH]; simpl; [reflexivity|]. rewrite length_app, IH. lia. Qed.

Lemma accepted_sums store (batches : list (list EnhancedEmbedding)) :
  accepts store ->
  let results := map (uploadBatch store) batches in
  list_sum (map uploaded results) + list_sum (map duplicatesSkipped results)
  = length (concat batches) /\
  list_sum (map uploaded results)
  = list_sum (map (fun batch => length (filterDuplicates (map toDocument batch))) batches) /\
  length (concat (map uploadedIds results)) = list_sum (map uploaded results) /\
  list_sum (map failed results) = 0 /\
  concat (map upload_errors results) = [].
Proof.
  intros Hstore. cbv zeta.
  induction batches as [|b bs IH]; simpl; [auto|].
  destruct (uploadBatch_accepted store b Hstore) as (Ha & Hb & Hc & Hd).
  destruct IH as (I1 & I2 & I3 & I4 & I5).
  rewrite !length_app, Hb, Hc, Hd, I3, I4, I5.
  assert (Hu : uploaded (uploadBatch store b)
               = length (filterDuplicates (map toDocument b))).
  { unfold uploadBatch.
    destruct (filterDuplicates (map toDocument b)) as [|d l]; [reflexivity|].
    destruct (Hstore (d :: l)) as (ids & -> & Hids). exact Hids. }
  repeat split; lia.
Qed.

Lemma refused_sums store error (batches : list (list EnhancedEmbedding)) :
  refuses store error -> Forall (fun b => b <> []) batches ->
  let results := map (uploadBatch store) batches in
  list_sum (map uploaded results) = 0 /\
  concat (map uploadedIds results) = [] /\
  list_sum (map failed results) = length (concat batches) /\
  concat (map upload_errors results) = repeat (errorText error) (length batches).
Proof.
  intros Hstore Hne. cbv zeta.
  induction Hne as [|b bs Hb Hbs IH]; simpl; [auto|].
  destruct (uploadBatch_refused store error b Hstore Hb) as (Ha & Hf & Hi & He).
  destruct IH as (I1 & I2 & I3 & I4).
  rewrite Ha, Hf, Hi, He, I1, I2, I3, I4, length_app. auto.
Qed.

Lemma batchesOf_concat (embeddings : list EnhancedEmbedding) :
  concat (batchesOf UPLOADS embeddings) = embeddings.
Proof. apply batchesOf_from_concat; [unfold UPLOADS; lia | lia]. Qed.

(** X12.  With a store that accepts every insertion, each embedding is
    either uploaded or skipped as a duplicate of an embedding of its own
    slice of 100: the two counts add up to the size of the input, nothing
    fails and no error is reported. *)
Theorem uploadEmbeddings_accepted (store : Store) (clock : nat -> Z)
    (embeddings : list EnhancedEmbedding) (Hstore : accepts store) :
  let result := fst (uploadEmbeddings store clock embeddings) in
  up_uploaded result + stat_duplicatesSkipped (statistics result) = length embeddings /\
  up_uploaded result
  = list_sum (map (fun batch => length (filterDuplicates (map toDocument batch)))
                (batchesOf UPLOADS embeddings)) /\
  length (up_uploadedIds result) = up_uploaded result /\
  up_failed result = 0 /\
  up_errors result = [].
Proof.
  pose proof (uploadLoop_run store embeddings) as Hloop. cbv zeta in Hloop.
  destruct Hloop as (H1 & H2 & H3 & H4 & H5 & _).
  cbv zeta. unfold uploadEmbeddings. cbv zeta.
  cbn [fst up_uploaded up_failed statistics stat_duplicatesSkipped up_uploadedIds up_errors].
  rewrite H1, H2, H3, H4, H5.
  pose proof (accepted_sums store (batchesOf UPLOADS embeddings) Hstore) as S.
  cbv zeta in S. rewrite batchesOf_concat in S. exact S.
Qed.

(** X13.  With a store that refuses every insertion nothing is uploaded, the
    call reports no success, every embedding counts as failed (the skipped
    duplicates too, which are counted a second time as skipped), and the
    error of the store is reported once per slice of 100. *)
Theorem uploadEmbeddings_refused (store : Store) (clock : nat -> Z)
    (embeddings : list EnhancedEmbedding) (error : JsError)
    (Hstore : refuses store error) :
  let result := fst (uploadEmbeddings store clock embeddings) in
  up_success result = false /\
  up_uploaded result = 0 /\
  up_uploadedIds result = [] /\
  up_failed result = length embeddings /\
  up_errors result
  = repeat (errorText error) (length (batchesOf UPLOADS embeddings)).
Proof.
  pose proof (uploadLoop_run store embeddings) as Hloop. cbv zeta in Hloop.
  destruct Hloop as (H1 & H2 & H3 & H4 & H5 & _).
  cbv zeta. unfold uploadEmbeddings. cbv zeta.
  cbn [fst up_success up_uploaded up_failed up_uploadedIds up_errors].
  rewrite H1, H2, H4, H5.
  assert (Hne : Forall (fun b => b <> []) (batchesOf UPLOADS embeddings)).
  { apply batchesOf_from_nonempty. unfold UPLOADS. lia. }
  pose proof (refused_sums store error (batchesOf UPLOADS embeddings) Hstore Hne) as S.
  cbv zeta in S. rewrite batchesOf_concat in S.
  destruct S as (S1 & S2 & S3 & S4). rewrite S1, S2, S3, S4. auto.
Qed.

Lemma storeFinding_accepts rows : accepts (storeFinding rows).
Proof. intros documents. eexists. split; [reflexivity|]. now rewrite length_map. Qed.

Lemma uploadEmbeddings_accepted_witness :
  let result := fst (uploadEmbeddings (storeFinding []) sampleClock manyEmbeddings) in
  up_uploaded result + stat_duplicatesSkipped (statistics result) = length manyEmbeddings /\
  up_uploaded result
  = list_sum (map (fun batch => length (filterDuplicates (map toDocument batch)))
                (batchesOf UPLOADS manyEmbeddings)) /\
  length (up_uploadedIds result) = up_uploaded result /\
  up_failed result = 0 /\
  up_errors result = [].
Proof.
  apply (uploadEmbeddings_accepted (storeFinding []) sampleClock manyEmbeddings).
  apply storeFinding_accepts.
Defined.

Lemma uploadEmbeddings_refused_witness :
  let result := fst (uploadEmbeddings readOnlyStore sampleClock manyEmbeddings) in
  up_success result = false /\
  up_uploaded result = 0 /\
  up_uploadedIds result = [] /\
  up_failed result = length manyEmbeddings /\
  up_errors result
  = repeat (lit "permission denied") (length (batchesOf UPLOADS manyEmbeddings)).
Proof.
  apply (uploadEmbeddings_refused readOnlyStore sampleClock manyEmbeddings
           {| instanceofError := true; message := lit "permission denied" |}).
  intros documents. reflexivity.
Defined.

(** The 250 sample embeddings over five texts: fifteen are uploaded, five
    from each slice, since duplicates are looked for inside a slice only. *)
Example duplicates_across_slices :
  let result := fst (uploadEmbeddings (storeFinding []) sampleClock manyEmbeddings) in
  up_uploaded result = 15 /\ stat_duplicatesSkipped (statistics result) = 235
  /\ snd (uploadEmbeddings (storeFinding []) sampleClock manyEmbeddings) = [50%Q; 50%Q].
Proof. vm_compute. auto. Qed.

End UploadFacts.

Module ServiceFacts.

Import Config Embedding EmbeddingFacts NumFacts Batches BatchesFacts Annotations.
Local Open Scope Q_scope.

Lemma world_ext r r' d d' s s' :
  r = r' -> d = d' -> s = s' ->
  {| requests := r; readings := d; slept := s |}
  = {| requests := r'; readings := d'; slept := s' |}.
Proof. now intros -> -> ->. Qed.


Section Any.

Variable endpoint : nat -> list str -> ApiReply.
Variable clock : nat -> Z.
Variable options : EmbeddingOptions.


(** The loop of the batch path builds one embedding per chunk: it reads the
    clock twice for each and sends nothing. *)
Lemma processResults_world chunks : forall vectors embeddings errors w,
  length vectors = length chunks ->
  exists kept reports,
    processResults clock options chunks vectors (textsOf options chunks) embeddings errors w
    = (inr (embeddings ++ kept, errors ++ reports),
       {| requests := requests w;
          readings := (readings w + 2 * length chunks)%nat;
          slept := slept w |}) /\
    (length kept + length reports = length chunks)%nat.
Proof.
  induction chunks as [|chunk rest IH]; intros vectors embeddings errors w Hlen.
  - exists [], []. destruct vectors; [|discriminate]. simpl.
    rewrite !app_nil_r, Nat.add_0_r. destruct w; auto.
  - destruct vectors as [|vector vectors]; [discriminate|].
    cbn [processResults map textsOf]. unfold bind at 1.
    rewrite createEnhancedEmbedding_run. cbv beta iota.
    set (e := enhancedAt options chunk vector _ _ _).
    fold (textsOf options rest).
    destruct (leb (qualityThreshold options) (overallScore (emb_quality e))).
    + destruct (IH vectors (embeddings ++ [e]) errors (afterBuilding w))
        as (kept & reports & -> & Hn); [simpl in Hlen; lia|].
      exists (e :: kept), reports. rewrite <- app_assoc. split; [|simpl; lia].
      cbn [afterBuilding requests readings slept length app].
      replace (readings w + 2 * S (length rest))%nat
        with (S (S (readings w)) + 2 * length rest)%nat by lia.
      reflexivity.
    + destruct (IH vectors embeddings
                  (errors ++ [lit "Low quality embedding for chunk " ++ chunk_id chunk])
                  (afterBuilding w))
        as (kept & reports & -> & Hn); [simpl in Hlen; lia|].
      exists kept, ((lit "Low quality embedding for chunk " ++ chunk_id chunk) :: reports).
      rewrite <- app_assoc. split; [|simpl; lia].
      cbn [afterBuilding requests readings slept length app].
      replace (readings w + 2 * S (length rest))%nat
        with (S (S (readings w)) + 2 * length rest)%nat by lia.
      reflexivity.
Qed.

Lemma processBatch_replied chunks w vectors tokens :
  endpoint (requests w) (textsOf options chunks)
  = ApiReturns {| data := Some vectors; total_tokens := tokens |} ->
  length vectors = length chunks ->
  exists result,
    processBatch endpoint clock options chunks w
    = (inr result,
       {| requests := S (requests w);
          readings := (readings w + 2 * length chunks)%nat;
          slept := slept w |}) /\
    (length (br_embeddings result) + length (br_errors result) = length chunks)%nat.
Proof.
  intros Hreply Hlen.
  unfold processBatch, tryCatch, processBatchRequest, bind at 1, create.
  fold (textsOf options chunks). rewrite Hreply. cbn [data].
  unfold textsOf at 1. rewrite length_map, Hlen, Nat.eqb_refl. unfold bind at 1.
  destruct (processResults_world chunks vectors [] []
              {| requests := S (requests w); readings := readings w; slept := slept w |} Hlen)
    as (kept & reports & Hrun & Hn).
  rewrite Hrun. cbn [app fst snd ret requests readings slept].
  eexists. split; [reflexivity|]. exact Hn.
Qed.




(** *** A healthy endpoint *)

Lemma generateBatches_world chunks :
  alwaysAnswers endpoint -> (0 < batchSize options)%nat ->
  forall fuel i embeddings errors totalTokensUsed w,
    (length (drop i chunks) <= fuel)%nat ->
    exists out,
      generateBatches endpoint clock options fuel chunks i embeddings errors
        totalTokensUsed w
      = (inr out,
         let batches := batchesOf_from fuel (batchSize options) (drop i chunks) in
         {| requests := (requests w + length batches)%nat;
            readings := (readings w + 2 * length (drop i chunks))%nat;
            slept := slept w ++ repeat 100 (length batches - 1) |}).
Proof.
  intros Hans Hsize.
  induction fuel as [|fuel IH]; intros i embeddings errors total w Hfuel.
  - assert (E : drop i chunks = []) by (destruct (drop i chunks); [reflexivity | simpl in Hfuel; lia]).
    rewrite E. simpl. eexists. rewrite app_nil_r, !Nat.add_0_r. destruct w; reflexivity.
  - cbn [generateBatches batchesOf_from].
    destruct (i <? length chunks)%nat eqn:Ei.
    + apply Nat.ltb_lt in Ei.
      destruct (drop i chunks) as [|x rest] eqn:Ed.
      { apply (f_equal length) in Ed. rewrite length_drop in Ed. simpl in Ed. lia. }
      rewrite <- Ed.
      assert (Hdd : drop (batchSize options) (drop i chunks)
                    = drop (i + batchSize options) chunks) by now rewrite drop_drop.
      assert (Hf : (length (drop (i + batchSize options) chunks) <= fuel)%nat).
      { rewrite <- Hdd, length_drop, Ed. simpl in *. lia. }
      set (batch := take (batchSize options) (drop i chunks)).
      unfold bind at 1. unfold tryCatch, bind at 1.
      destruct (Hans (requests w) (textsOf options batch)) as (vectors & tokens & Hreply & Hlen).
      unfold textsOf in Hlen. rewrite length_map in Hlen. fold (textsOf options batch) in Hreply.
      destruct (processBatch_replied batch w vectors tokens Hreply Hlen) as (result & -> & _).
      unfold ret at 1. unfold bind at 1.
      destruct (IH (i + batchSize options)%nat
                  (embeddings ++ br_embeddings result) (errors ++ br_errors result)
                  (total + br_tokensUsed result)%nat
                  (if (i + batchSize options <? length chunks)%nat
                   then {| requests := S (requests w);
                           readings := (readings w + 2 * length batch)%nat;
                           slept := slept w ++ [100] |}
                   else {| requests := S (requests w);
                           readings := (readings w + 2 * length batch)%nat;
                           slept := slept w |}) Hf) as (out & Hout).
      exists out.
      assert (Hlb : (length batch + length (drop (i + batchSize options) chunks)
                     = length (drop i chunks))%nat).
      { unfold batch. rewrite <- Hdd, <- length_app, take_drop. reflexivity. }
      destruct (i + batchSize options <? length chunks)%nat eqn:En.
      * unfold sleep. cbn [requests readings slept] in *. rewrite Hout. cbv zeta.
        rewrite Hdd. apply Nat.ltb_lt in En.
        destruct (batchesOf_from fuel (batchSize options)
                    (drop (i + batchSize options) chunks)) eqn:Eb.
        { apply batchesOf_from_nil in Eb; [|exact Hf].
          apply (f_equal length) in Eb. rewrite length_drop in Eb. simpl in Eb. lia. }
        cbn [length]. rewrite Nat.sub_succ, !Nat.sub_0_r, <- app_assoc.
        f_equal. apply world_ext; [lia | lia | reflexivity].
      * unfold ret. cbn [requests readings slept] in *. rewrite Hout. cbv zeta.
        rewrite Hdd. apply Nat.ltb_ge in En.
        assert (E0 : drop (i + batchSize options) chunks = []) by (apply drop_ge; lia).
        rewrite E0 in *. rewrite batchesOf_from_empty.
        cbn [length repeat]. rewrite app_nil_r.
        f_equal. apply world_ext; [lia | simpl in Hlb; lia | now rewrite app_nil_r].
    + apply Nat.ltb_ge in Ei. rewrite (drop_ge chunks i) by lia.
      simpl. eexists. rewrite app_nil_r, !Nat.add_0_r. destruct w; reflexivity.
Qed.


(** X15.  With an endpoint that answers every request, [generateEmbeddings]
    sends one request per batch, that is [ceil(n / batchSize)] requests for
    [n] chunks, sleeps 100 ms between two batches, and reads the clock twice
    per chunk and twice more for the processing time. *)
Theorem generateEmbeddings_requests (chunks : list SemanticChunk) (w : World)
  (Hsize : (0 < batchSize options)%nat)
  (Hanswers : alwaysAnswers endpoint) :
  exists run result,
    generateEmbeddings endpoint clock options chunks = Some run /\
    run w
    = (inr result,
       let batches := ((length chunks + batchSize options - 1) / batchSize options)%nat in
       {| requests := (requests w + batches)%nat;
          readings := (readings w + 2 * length chunks + 2)%nat;
          slept := slept w ++ repeat 100 (batches - 1) |}).
Proof.
  destruct (generateBatches_world chunks Hanswers Hsize (length chunks) 0%nat [] [] 0%nat
              {| requests := requests w; readings := S (readings w); slept := slept w |})
    as (out & Hrun); [rewrite drop_0; lia|].
  rewrite drop_0 in Hrun. cbv zeta in Hrun.
  rewrite batchesOf_from_length in Hrun by lia.
  destruct out as [[embeddings' errors'] total'].
  unfold generateEmbeddings.
  destruct (batchSize options) as [|n] eqn:Hn; [lia|].
  eexists _, _. split; [reflexivity|].
  unfold bind at 1, dateNow at 1. unfold bind at 1.
  rewrite Hrun.
  cbv beta iota zeta. unfold bind, dateNow, ret. cbn [requests readings slept].
  apply (f_equal2 pair); [reflexivity|].
  apply world_ext; [reflexivity | lia | reflexivity].
Qed.

(** *** A chunk that cannot be embedded *)

Lemma total_delaysFrom n : forall retryCount,
  total (delaysFrom options retryCount n)
  == retryDelay options * 2 ^ Z.of_nat retryCount * (2 ^ Z.of_nat n - 1).
Proof.
  induction n as [|n IH]; intros retryCount.
  - simpl. ring.
  - rewrite delaysFrom_S. cbn [total fold_right]. fold (total (delaysFrom options (S retryCount) n)).
    rewrite IH. rewrite !Nat2Z.inj_succ, <- !Z.add_1_l.
    rewrite !Qpower_plus by (intros H; discriminate H).
    change (2 ^ 1) with 2. ring.
Qed.

(** X16.  A chunk whose requests all fail costs [maxRetries + 1] requests
    and a total delay of [retryDelay * (2^maxRetries - 1)]:
    [generateSingleEmbedding] then throws the error of the last attempt,
    without having read the clock. *)
Theorem generateSingleEmbedding_gives_up (chunk : SemanticChunk) (w : World)
  (Hfails : forall k, exists e, singleReply endpoint options k chunk = inl e) :
  exists last,
    singleReply endpoint options (requests w + maxRetries options) chunk = inl last /\
    generateSingleEmbedding endpoint clock options chunk w
    = (inl last,
       {| requests := (requests w + maxRetries options + 1)%nat;
          readings := readings w;
          slept := slept w ++ backoff options (maxRetries options) |}) /\
    total (backoff options (maxRetries options))
    == retryDelay options * (2 ^ Z.of_nat (maxRetries options) - 1).
Proof.
  unfold generateSingleEmbedding.
  destruct (generateSingleEmbedding_from_run endpoint clock options chunk
              (maxRetries options) 0 w) as
    [(retries & vector & tokens & _ & _ & Hok & _) | (last & _ & Hlast & Hrun)].
  - destruct (Hfails (requests w + retries)%nat) as (e & He). congruence.
  - exists last. split; [exact Hlast|]. rewrite Hrun, delaysFrom_backoff.
    split; [reflexivity|].
    rewrite <- delaysFrom_backoff, total_delaysFrom.
    change (2 ^ Z.of_nat 0) with 1.
    set (p := 2 ^ Z.of_nat (maxRetries options)). ring.
Qed.

(** *** Quality scores *)

Lemma min_le_l a b : min a b <= a.
Proof. unfold min. destruct (leb a b) eqn:E; [lra | apply leb_gt in E; lra]. Qed.

Lemma min_one b : min 1.0 b <= 1.
Proof. pose proof (min_le_l 1.0 b). lra. Qed.

Lemma min_glb c a b : c <= a -> c <= b -> c <= min a b.
Proof. unfold min. destruct (leb a b); auto. Qed.

Lemma min_pos a b : 0 < a -> 0 < b -> 0 < min a b.
Proof. unfold min. destruct (leb a b); auto. Qed.

Lemma setSize_pos `{Countable A} (x : A) (l : list A) : (0 < setSize (x :: l))%nat.
Proof. unfold setSize. simpl. rewrite size_union_alt, size_singleton. lia. Qed.

Lemma ofNat_positive n : (0 < n)%nat -> 0 < ofNat n.
Proof. intros Hn. unfold ofNat. change 0 with (inject_Z 0). rewrite <- Zlt_Qlt. lia. Qed.

Lemma ofNat_nonneg n : 0 <= ofNat n.
Proof. unfold ofNat. change 0 with (inject_Z 0). rewrite <- Zle_Qle. lia. Qed.

Lemma ratio_pos a b : 0 < a -> 0 < b -> 0 < a / b.
Proof. intros Ha Hb. apply Qlt_shift_div_l; [exact Hb | lra]. Qed.

Lemma ratio_nonneg a b : 0 <= a -> 0 < b -> 0 <= a / b.
Proof. intros Ha Hb. apply Qle_shift_div_l; [exact Hb | lra]. Qed.

Lemma split_ws_go_nonempty s : forall cur gap, split_ws_go cur gap s <> [].
Proof.
  induction s as [|c s IH]; intros cur gap; simpl; [discriminate|].
  destruct (isSpace c); [destruct gap|]; [apply IH | discriminate | apply IH].
Qed.

Lemma assessSemanticCoherence_bounds chunk :
  0 <= chunk_importance chunk ->
  0.7 <= assessSemanticCoherence chunk <= 1.
Proof.
  intros Himp. unfold assessSemanticCoherence. cbv zeta.
  split; [|apply min_one].
  apply min_glb; [lra|].
  destruct (bool_decide _); destruct (cm_section (chunk_metadata chunk)) as [[|? ?]|]; lra.
Qed.

Lemma assessInformationDensity_bounds text :
  0 < assessInformationDensity text <= 1.
Proof.
  unfold assessInformationDensity. cbv zeta. split; [|apply min_one].
  apply min_pos; [lra|].
  unfold split_ws. pose proof (split_ws_go_nonempty text [] false) as Hne.
  destruct (split_ws_go [] false text) as [|word words]; [contradiction|].
  cbn [map].
  assert (0 < ofNat (setSize (toLowerCase word :: map toLowerCase words)) / ofNat (length (word :: words))).
  { apply ratio_pos; apply ofNat_positive; [apply setSize_pos | simpl; lia]. }
  lra.
Qed.

Lemma assessUniqueness_bounds text :
  text <> [] -> 0 < assessUniqueness text <= 1.
Proof.
  intros Hne. unfold assessUniqueness. cbv zeta. split; [|apply min_one].
  apply min_pos; [lra|].
  destruct text as [|c text]; [contradiction|].
  apply ratio_pos; apply ofNat_positive; [apply setSize_pos | simpl; lia].
Qed.

(** X17.  For a chunk whose importance is not negative and a text that is
    not empty, the five partial scores of [calculateEmbeddingQuality] lie in
    their ranges and the overall score lies above 0.28 and at most at 0.985:
    a quality threshold up to 0.28 accepts every such chunk, a threshold
    above 0.985 none. *)
Theorem calculateEmbeddingQuality_bounds (chunk : SemanticChunk) (embedding : list Q)
  (optimizedText : str)
  (Himportance : 0 <= chunk_importance chunk)
  (Htext : optimizedText <> []) :
  let q := calculateEmbeddingQuality options chunk embedding optimizedText in
  0 <= textQuality q <= 1 /\
  0.7 <= semanticCoherence q <= 1 /\
  0 < informationDensity q <= 1 /\
  0 < uniqueness q <= 1 /\
  0.7 <= retrievalOptimization q <= 0.9 /\
  0.28 < overallScore q <= 0.985.
Proof.
  cbv zeta. unfold calculateEmbeddingQuality. cbv zeta.
  cbn [textQuality semanticCoherence informationDensity uniqueness retrievalOptimization
       overallScore].
  pose proof (assessSemanticCoherence_bounds chunk Himportance) as Hsc.
  pose proof (assessInformationDensity_bounds optimizedText) as Hid.
  pose proof (assessUniqueness_bounds optimizedText Htext) as Hu.
  assert (Htq : 0 <= min 1.0 (ofNat (chunk_tokens chunk) / ofNat maxTokensPerChunk) <= 1).
  { split; [|apply min_one]. apply min_glb; [lra|].
    apply ratio_nonneg; [apply ofNat_nonneg | apply ofNat_positive; unfold maxTokensPerChunk; lia]. }
  assert (Hro : 0.7 <= (if optimizeForRetrieval options then 0.9 else 0.7) <= 0.9).
  { destruct (optimizeForRetrieval options); lra. }
  repeat split; try tauto; lra.
Qed.

End Any.


Lemma generateEmbeddings_requests_witness :
  exists run result,
    generateEmbeddings healthy sampleClock defaultOptions (repeat varied 120) = Some run /\
    run initialWorld
    = (inr result,
       let batches :=
         ((length (repeat varied 120) + batchSize defaultOptions - 1)
          / batchSize defaultOptions)%nat in
       {| requests := (requests initialWorld + batches)%nat;
          readings := (readings initialWorld + 2 * length (repeat varied 120) + 2)%nat;
          slept := slept initialWorld ++ repeat 100 (batches - 1) |}).
Proof.
  apply (generateEmbeddings_requests healthy sampleClock defaultOptions
           (repeat varied 120) initialWorld).
  - simpl. lia.
  - apply healthy_answers.
Defined.

Lemma generateSingleEmbedding_gives_up_witness :
  exists last,
    singleReply alwaysFails defaultOptions
      (requests initialWorld + maxRetries defaultOptions) varied = inl last /\
    generateSingleEmbedding alwaysFails sampleClock defaultOptions varied initialWorld
    = (inl last,
       {| requests := (requests initialWorld + maxRetries defaultOptions + 1)%nat;
          readings := readings initialWorld;
          slept := slept initialWorld ++ backoff defaultOptions (maxRetries defaultOptions) |}) /\
    total (backoff defaultOptions (maxRetries defaultOptions))
    == retryDelay defaultOptions * (2 ^ Z.of_nat (maxRetries defaultOptions) - 1).
Proof.
  apply (generateSingleEmbedding_gives_up alwaysFails sampleClock defaultOptions varied
           initialWorld).
  intros k. eexists. reflexivity.
Defined.

Lemma calculateEmbeddingQuality_bounds_witness :
  let q := calculateEmbeddingQuality defaultOptions repetitive [0.6; 0.8]
             (lit "ok ok ok ok") in
  0 <= textQuality q <= 1 /\
  0.7 <= semanticCoherence q <= 1 /\
  0 < informationDensity q <= 1 /\
  0 < uniqueness q <= 1 /\
  0.7 <= retrievalOptimization q <= 0.9 /\
  0.28 < overallScore q <= 0.985.
Proof.
  apply (calculateEmbeddingQuality_bounds defaultOptions repetitive [0.6; 0.8]
           (lit "ok ok ok ok")).
  - simpl. lra.
  - discriminate.
Defined.

End ServiceFacts.

Module TextOptimisationFacts.

Import Config Embedding NumFacts TextFacts Annotations.

Lemma join_cons (sep p : str) (rest : list str) :
  rest <> [] -> join sep (p :: rest) = p ++ sep ++ join sep rest.
Proof. destruct rest; [contradiction | reflexivity]. Qed.

Lemma split_ws_go_never_nil s : forall cur gap, split_ws_go cur gap s <> [].
Proof.
  induction s as [|c s IH]; intros cur gap; simpl; [discriminate|].
  destruct (isSpace c); [destruct gap|]; [apply IH | discriminate | apply IH].
Qed.

Lemma join_split_ws_go_length s : forall cur gap,
  length (join [space] (split_ws_go cur gap s)) <= length cur + length s.
Proof.
  induction s as [|c s IH]; intros cur gap; simpl.
  - rewrite length_rev. lia.
  - destruct (isSpace c); [destruct gap|].
    + specialize (IH [] true). simpl in IH. lia.
    + rewrite join_cons by apply split_ws_go_never_nil.
      rewrite !length_app, length_rev. specialize (IH [] true). simpl in *. lia.
    + specialize (IH (c :: cur) false). simpl in IH. lia.
Qed.

Lemma dropWhile_length {A} (p : A -> bool) l : length (dropWhile p l) <= length l.
Proof. induction l as [|x l IH]; simpl; [lia|]. destruct (p x); simpl; lia. Qed.

Lemma trim_length s : length (trim s) <= length s.
Proof.
  unfold trim, trimEnd, trimStart. rewrite length_rev.
  etransitivity; [apply dropWhile_length|]. rewrite length_rev. apply dropWhile_length.
Qed.

Lemma nonSpace_dropWhile s : nonSpace (dropWhile isSpace s) = nonSpace s.
Proof.
  induction s as [|c s IH]; simpl; [reflexivity|].
  destruct (isSpace c) eqn:E; simpl; [exact IH | now rewrite E].
Qed.

Lemma nonSpace_trim s : nonSpace (trim s) = nonSpace s.
Proof.
  unfold trim, trimEnd, trimStart.
  now rewrite nonSpace_rev, nonSpace_dropWhile, <- nonSpace_rev, rev_involutive,
              nonSpace_dropWhile.
Qed.

Lemma nonSpace_join (parts : list str) :
  nonSpace (join [space] parts) = nonSpace (concat parts).
Proof.
  induction parts as [|p rest IH]; [reflexivity|].
  destruct rest as [|q rest].
  - simpl. now rewrite app_nil_r.
  - rewrite join_cons by discriminate. cbn [concat].
    rewrite !nonSpace_app, IH. change (nonSpace [space]) with (@nil ascii).
    cbn [concat app]. now rewrite nonSpace_app.
Qed.

Section Optimise.

Variable options : EmbeddingOptions.

(** X18.  A text of at most 2048 characters is not truncated by
    [optimizeTextForEmbedding]: the optimised text has the characters of the
    text that are not white space, in their order, and is not longer than
    the text. *)
Theorem optimizeTextForEmbedding_short (text : str)
  (Hshort : length text <= 2048) :
  nonSpace (optimizeTextForEmbedding options text) = nonSpace text /\
  length (optimizeTextForEmbedding options text) <= length text.
Proof.
  unfold optimizeTextForEmbedding.
  destruct (optimizeForRetrieval options); cbn [negb]; [|split; [reflexivity | lia]].
  cbv zeta.
  assert (Hlen : length (trim (join (lit " ") (split_ws text))) <= length text).
  { etransitivity; [apply trim_length|].
    apply (join_split_ws_go_length text [] false). }
  assert (E : (maxTokensPerChunk <? estimateTokenCount (trim (join (lit " ") (split_ws text))))
              = false).
  { apply Nat.ltb_ge. unfold estimateTokenCount, maxTokensPerChunk.
    apply Nat.lt_succ_r. apply Nat.Div0.div_lt_upper_bound. lia. }
  rewrite E. split; [|exact Hlen].
  rewrite nonSpace_trim. change (lit " ") with [space].
  rewrite nonSpace_join, split_ws_nonSpace.
  apply TextChunkerFacts.nonSpace_idempotent.
Qed.

End Optimise.

Lemma optimizeTextForEmbedding_short_witness :
  nonSpace (optimizeTextForEmbedding defaultOptions (lit "  Deploy   the service  "))
  = nonSpace (lit "  Deploy   the service  ") /\
  length (optimizeTextForEmbedding defaultOptions (lit "  Deploy   the service  "))
  <= length (lit "  Deploy   the service  ").
Proof.
  apply (optimizeTextForEmbedding_short defaultOptions (lit "  Deploy   the service  ")).
  simpl. lia.
Defined.

(** *** Sentiment *)

Local Open Scope Q_scope.

(** X19.  [analyzeSentiment] lies between -1 and 1; it is 1 exactly when the
    text has a positive word and no negative one, and -1 exactly when it has
    a negative word and no positive one. *)
Theorem analyzeSentiment_range (text : str) :
  let words := split_ws (toLowerCase text) in
  -1 <= analyzeSentiment text <= 1 /\
  (analyzeSentiment text == 1
   <-> (0 < countIn positiveWords words)%nat /\ countIn negativeWords words = 0%nat) /\
  (analyzeSentiment text == -1
   <-> (0 < countIn negativeWords words)%nat /\ countIn positiveWords words = 0%nat).
Proof.
  cbv zeta. unfold analyzeSentiment. cbv zeta.
  set (p := countIn positiveWords (split_ws (toLowerCase text))).
  set (n := countIn negativeWords (split_ws (toLowerCase text))).
  destruct (p + n =? 0)%nat eqn:E.
  - apply Nat.eqb_eq in E. split; [lra|]. split; split; intros H; try lra; lia.
  - apply Nat.eqb_neq in E.
    assert (Hp : 0 <= ofNat p) by (unfold ofNat; change 0 with (inject_Z 0); rewrite <- Zle_Qle; lia).
    assert (Hn : 0 <= ofNat n) by (unfold ofNat; change 0 with (inject_Z 0); rewrite <- Zle_Qle; lia).
    assert (Hs : 0 < ofNat p + ofNat n).
    { unfold ofNat. rewrite <- inject_Z_plus. change 0 with (inject_Z 0).
      rewrite <- Zlt_Qlt. lia. }
    assert (Hpz : ofNat p == 0 <-> p = 0%nat).
    { unfold ofNat. change 0 with (inject_Z 0). rewrite inject_Z_injective. lia. }
    assert (Hnz : ofNat n == 0 <-> n = 0%nat).
    { unfold ofNat. change 0 with (inject_Z 0). rewrite inject_Z_injective. lia. }
    set (s := (ofNat p - ofNat n) / (ofNat p + ofNat n)).
    assert (Es : s * (ofNat p + ofNat n) == ofNat p - ofNat n).
    { unfold s. field. lra. }
    split; [|split].
    + split.
      * apply Qle_shift_div_l; [exact Hs | lra].
      * apply Qle_shift_div_r; [exact Hs | lra].
    + split.
      * intros H. rewrite H in Es. assert (Hn0 : ofNat n == 0) by lra.
        apply Hnz in Hn0. lia.
      * intros [_ Hn0]. apply Hnz in Hn0. unfold s. rewrite Hn0. field. lra.
    + split.
      * intros H. rewrite H in Es. assert (Hp0 : ofNat p == 0) by lra.
        apply Hpz in Hp0. lia.
      * intros [_ Hp0]. apply Hpz in Hp0. unfold s. rewrite Hp0. field. lra.
Qed.

End TextOptimisationFacts.

Module PositionFacts.

Import TextChunker TextFacts TextChunkerFacts ArrFacts NumFacts Corpus.

Lemma indexOf_go_ge sub s : forall i p, indexOf_go sub s i = Some p -> i <= p.
Proof.
  induction s as [|c s IH]; intros i p; simpl.
  - destruct (startsWith sub []); [intros [= <-]; lia | discriminate].
  - destruct (startsWith sub (c :: s)); [intros [= <-]; lia|].
    intros H. apply IH in H. lia.
Qed.

Lemma indexOfFrom_ge sub s from p :
  sub <> [] -> indexOfFrom sub s from = Some p -> from <= p.
Proof.
  intros Hsub. unfold indexOfFrom. intros H.
  destruct (Nat.le_gt_cases from (length s)) as [Hle|Hgt].
  - apply indexOf_go_ge in H. lia.
  - rewrite drop_ge in H by lia. simpl in H.
    destruct sub; [contradiction | discriminate].
Qed.

Lemma StronglySorted_filter {A} (R : A -> A -> Prop) (p : A -> bool) l :
  StronglySorted R l -> StronglySorted R (List.filter p l).
Proof.
  induction 1 as [|x l Hs IH Hall]; simpl; [constructor|].
  destruct (p x); [|exact IH]. constructor; [exact IH|].
  rewrite Forall_forall in *. intros y Hy.
  apply Hall. apply list_elem_of_In in Hy. apply filter_In in Hy as [Hy _].
  now apply list_elem_of_In.
Qed.

Section Positions.

Variable encode : str -> option nat.

Section Splitters.

Variables maxTokens overlap : nat.
Hypothesis Hempty : countTokens encode [] <= maxTokens.

Lemma splitArbitrarily_from_nonempty words : forall chunks currentChunk,
  Forall (fun c => c <> []) chunks ->
  Forall (fun c => c <> [])
    (splitArbitrarily_from encode maxTokens overlap words chunks currentChunk).
Proof.
  induction words as [|word rest IH]; intros chunks cur Hchunks.
  - simpl. destruct cur; [exact Hchunks|].
    apply Forall_app. split; [exact Hchunks | repeat constructor; discriminate].
  - cbn [splitArbitrarily_from].
    destruct (countTokens encode _ <=? maxTokens) eqn:E; [now apply IH|].
    apply Nat.leb_gt in E.
    destruct cur as [|c cur].
    + apply IH. apply Forall_app. split; [exact Hchunks|].
      repeat constructor. intros ->. lia.
    + destruct (0 <? overlap); apply IH; apply Forall_app;
        (split; [exact Hchunks | repeat constructor; discriminate]).
Qed.

Lemma splitBySentences_from_nonempty sentences : forall chunks currentChunk,
  Forall (fun c => c <> []) chunks ->
  Forall (fun c => c <> [])
    (splitBySentences_from encode maxTokens overlap sentences chunks currentChunk).
Proof.
  induction sentences as [|sentence rest IH]; intros chunks cur Hchunks.
  - simpl. destruct cur; [exact Hchunks|].
    apply Forall_app. split; [exact Hchunks | repeat constructor; discriminate].
  - cbn [splitBySentences_from].
    destruct (countTokens encode _ <=? maxTokens) eqn:E; [now apply IH|].
    destruct cur as [|c cur].
    + apply IH. apply Forall_app. split; [exact Hchunks|].
      apply splitArbitrarily_from_nonempty. constructor.
    + destruct (0 <? overlap); apply IH; apply Forall_app;
        (split; [exact Hchunks | repeat constructor; discriminate]).
Qed.

Lemma splitByParagraphs_from_nonempty paragraphs : forall chunks currentChunk,
  Forall (fun c => c <> []) chunks ->
  Forall (fun c => c <> [])
    (splitByParagraphs_from encode maxTokens overlap paragraphs chunks currentChunk).
Proof.
  induction paragraphs as [|paragraph rest IH]; intros chunks cur Hchunks.
  - simpl. destruct cur; [exact Hchunks|].
    apply Forall_app. split; [exact Hchunks | repeat constructor; discriminate].
  - cbn [splitByParagraphs_from].
    destruct (countTokens encode _ <=? maxTokens) eqn:E; [now apply IH|].
    destruct cur as [|c cur].
    + apply IH. apply Forall_app. split; [exact Hchunks|].
      apply splitBySentences_from_nonempty. constructor.
    + destruct (0 <? overlap); apply IH; apply Forall_app;
        (split; [exact Hchunks | repeat constructor; discriminate]).
Qed.

End Splitters.

Lemma splitText_nonempty clean opts :
  countTokens encode [] <= maxTokens opts ->
  Forall (fun c => c <> []) (splitText encode clean opts).
Proof.
  intros Hempty. unfold splitText.
  destruct (preserveParagraphs opts); [|destruct (preserveSentences opts)].
  - apply splitByParagraphs_from_nonempty; [exact Hempty | constructor].
  - apply splitBySentences_from_nonempty; [exact Hempty | constructor].
  - apply splitArbitrarily_from_nonempty; [exact Hempty | constructor].
Qed.

Lemma describe_ordered clean source textChunks : forall i currentPos,
  Forall (fun c => c <> []) textChunks ->
  Forall (fun c => i <= index c /\ currentPos <= startChar c)
    (describe encode clean source textChunks i currentPos) /\
  StronglySorted before (describe encode clean source textChunks i currentPos).
Proof.
  induction textChunks as [|c rest IH]; intros i pos Hne; cbn [describe].
  - split; constructor.
  - inversion Hne as [|? ? Hc Hrest]; subst.
    set (startPos := indexOfFrom c clean pos).
    assert (Hstart : pos <= match startPos with Some p => p | None => pos end).
    { unfold startPos. destruct (indexOfFrom c clean pos) as [p|] eqn:E; [|lia].
      eapply indexOfFrom_ge; eauto. }
    cbn [endChar].
    destruct (IH (S i) (match startPos with
                        | Some p => p + length c
                        | None => pos + length c
                        end) Hrest) as (Hlow & Hsorted).
    split.
    + constructor; [cbn [index startChar]; lia|].
      eapply Forall_impl; [exact Hlow|]. intros x [Hi Hp]. split; [lia|].
      destruct startPos; lia.
    + constructor; [exact Hsorted|].
      eapply Forall_impl; [exact Hlow|]. intros x [Hi Hp].
      unfold before. cbn [index endChar]. split; [lia|]. exact Hp.
Qed.

(** X20.  When the empty text counts within the token bound, [chunkText]
    returns its chunks in the order of the document: the indices increase,
    and the position range of a chunk ends before the range of the next one
    starts, also where the chunks overlap in their text. *)
Theorem chunkText_positions (text source : str) (opts : ChunkingOptions)
  (Hempty : countTokens encode [] <= maxTokens opts) :
  StronglySorted before (chunkText encode text source opts).
Proof.
  unfold chunkText.
  assert (Hone : forall clean,
            StronglySorted before
              [ {| content := clean; index := 0; source := source; startChar := 0;
                   endChar := length clean; tokenCount := countTokens encode clean;
                   wordCount := length (split_ws clean); chunkType := paragraphChunk;
                   quality := calculateQuality clean |} ]).
  { intros clean. repeat constructor. }
  destruct (cleanText text) as [|c clean] eqn:E; [apply Hone|].
  destruct (countTokens encode (c :: clean) <=? maxTokens opts); [apply Hone|].
  apply StronglySorted_filter.
  apply (describe_ordered (c :: clean) source _ 0 0), splitText_nonempty, Hempty.
Qed.

(** *** Several documents *)

Lemma mapi_from_indices (chunks : list TextChunk) : forall i,
  map index (mapi_from (fun k chunk => withIndex chunk k) i chunks) = seq i (length chunks).
Proof. induction chunks as [|c l IH]; intros i; simpl; [reflexivity | now rewrite IH]. Qed.

Lemma mapi_from_app {A B} (f : nat -> A -> B) l1 : forall l2 i,
  mapi_from f i (l1 ++ l2) = mapi_from f i l1 ++ mapi_from f (i + length l1) l2.
Proof.
  induction l1 as [|x l1 IH]; intros l2 i; simpl.
  - now rewrite Nat.add_0_r.
  - rewrite IH. do 3 f_equal. lia.
Qed.

Lemma chunkDocuments_from_spec documents options : forall allChunks globalIndex,
  chunkDocuments_from encode documents options allChunks globalIndex
  = allChunks
    ++ mapi_from (fun k chunk => withIndex chunk k) globalIndex
         (concat (map (fun doc => chunkText encode (doc_content doc) (doc_source doc) options)
                    documents)).
Proof.
  induction documents as [|doc rest IH]; intros allChunks globalIndex; simpl.
  - now rewrite app_nil_r.
  - rewrite IH, mapi_from_app, <- app_assoc. reflexivity.
Qed.

(** X21.  [chunkDocuments] returns the chunks of the documents one document
    after the other, each chunk as [chunkText] made it but for its index:
    the indices of the result are 0, 1, 2, ... without a gap. *)
Theorem chunkDocuments_renumbers (documents : list Document) (options : ChunkingOptions) :
  let perDocument :=
    map (fun doc => chunkText encode (doc_content doc) (doc_source doc) options)
      documents in
  chunkDocuments encode documents options
  = mapi (fun k chunk => withIndex chunk k) (concat perDocument) /\
  map index (chunkDocuments encode documents options)
  = seq 0 (length (concat perDocument)) /\
  map content (chunkDocuments encode documents options)
  = map content (concat perDocument).
Proof.
  cbv zeta. unfold chunkDocuments. rewrite chunkDocuments_from_spec. cbn [app].
  split; [reflexivity|]. split; [apply mapi_from_indices|].
  apply mapi_from_fmap. reflexivity.
Qed.

End Positions.

Lemma chunkText_positions_witness :
  map (fun c => (index c, startChar c, endChar c))
    (chunkText noTokenizer fourSentences (lit "notes.md") sentenceChunks)
  = [ (0, 0, 23); (1, 24, 47); (2, 48, 87) ] /\
  StronglySorted before
    (chunkText noTokenizer fourSentences (lit "notes.md") sentenceChunks).
Proof.
  split; [vm_compute; reflexivity|].
  apply (chunkText_positions noTokenizer fourSentences (lit "notes.md") sentenceChunks).
  vm_compute. lia.
Defined.

(** *** Quality of a chunk *)

Local Open Scope Q_scope.

(** X22.  [calculateQuality] is at most 1 and at least the double
    [0.5 - 0.2 - 0.2], which is 0.09999999999999998: just below 0.1, and
    above 0, so that the lower clamp is never reached.  The text "1a 2b 3c"
    has this lowest quality. *)
Theorem calculateQuality_range (text : str) :
  lowestQuality <= calculateQuality text <= 1 /\
  0.0999 < lowestQuality < 0.1 /\
  calculateQuality (lit "1a 2b 3c") == lowestQuality.
Proof.
  split; [|split; [split; apply Qlt_alt; vm_compute; reflexivity
                  | apply Qeq_bool_iff; vm_compute; reflexivity]].
  unfold calculateQuality. cbv zeta.
  destruct text as [|c text];
    repeat match goal with
           | |- context [if ?b then _ else _] => destruct b
           end;
    split; apply Qle_bool_iff; vm_compute; reflexivity.
Qed.

End PositionFacts.

Module CleanTextFacts.

Import TextChunker TextFacts Corpus.

Lemma eqc_eq a b : eqc a b = true <-> a = b.
Proof. apply Ascii.eqb_eq. Qed.

Lemma eqc_neq a b : eqc a b = false <-> a <> b.
Proof. apply Ascii.eqb_neq. Qed.

(** *** Carriage returns *)

Lemma replaceCR_clean s : Forall (fun c => c <> carriageReturn) (replaceCR s).
Proof.
  unfold replaceCR. induction s as [|c s IH]; simpl; constructor; [|exact IH].
  destruct (eqc c carriageReturn) eqn:E; [discriminate | now apply eqc_neq].
Qed.

Lemma replaceCR_id s : Forall (fun c => c <> carriageReturn) s -> replaceCR s = s.
Proof.
  unfold replaceCR. induction 1 as [|c s Hc _ IH]; simpl; [reflexivity|].
  apply eqc_neq in Hc. now rewrite Hc, IH.
Qed.

Lemma replaceCRLF_id s : Forall (fun c => c <> carriageReturn) s -> replaceCRLF s = s.
Proof.
  induction 1 as [|c s Hc _ IH]; [reflexivity|].
  cbn [replaceCRLF]. destruct s as [|d s]; [reflexivity|].
  apply eqc_neq in Hc. rewrite Hc. cbn [andb]. now rewrite IH.
Qed.

Lemma collapseNewlines_go_Forall (P : ascii -> Prop) s : forall run,
  P newline -> Forall P s -> Forall P (collapseNewlines_go run s).
Proof.
  induction s as [|c s IH]; intros run Hn Hs; simpl.
  - apply Forall_forall. intros x Hx. apply list_elem_of_In, repeat_spec in Hx. now subst.
  - inversion Hs as [|? ? Hc Hs']; subst.
    destruct (isNewline c); [now apply IH|].
    apply Forall_app. split.
    + apply Forall_forall. intros x Hx. apply list_elem_of_In, repeat_spec in Hx. now subst.
    + constructor; [exact Hc | now apply IH].
Qed.

Lemma dropWhile_suffix {A} (p : A -> bool) l : exists pre, l = pre ++ dropWhile p l.
Proof.
  induction l as [|x l (pre & IH)]; simpl; [now exists []|].
  destruct (p x); [|now exists []].
  exists (x :: pre). simpl. now f_equal.
Qed.

Lemma trim_infix s : exists pre post, s = pre ++ trim s ++ post.
Proof.
  unfold trim, trimEnd, trimStart.
  destruct (dropWhile_suffix isSpace s) as (pre & Hs).
  destruct (dropWhile_suffix isSpace (rev (dropWhile isSpace s))) as (w & Hr).
  exists pre, (rev w). rewrite <- rev_app_distr, <- Hr, rev_involutive. exact Hs.
Qed.

Lemma trim_Forall (P : ascii -> Prop) s : Forall P s -> Forall P (trim s).
Proof.
  destruct (trim_infix s) as (pre & post & E). intros H. rewrite E in H.
  apply Forall_app in H as [_ H]. now apply Forall_app in H as [H _].
Qed.

(** *** Runs of newlines *)

Lemma shortRuns_less s : forall run run',
  run' <= run -> shortRuns run s = true -> shortRuns run' s = true.
Proof.
  induction s as [|c s IH]; intros run run' Hle; simpl; [auto|].
  destruct (isNewline c); [|auto].
  intros H. apply andb_true_iff in H as [H1 H2]. apply Nat.ltb_lt in H1.
  apply andb_true_iff. split; [apply Nat.ltb_lt; lia|].
  apply (IH (S run)); [lia | exact H2].
Qed.

Lemma shortRuns_suffix a : forall run b,
  shortRuns run (a ++ b) = true -> shortRuns 0 b = true.
Proof.
  induction a as [|c a IH]; intros run b; simpl.
  - apply shortRuns_less. lia.
  - destruct (isNewline c); [|apply IH].
    intros H. apply andb_true_iff in H as [_ H]. now apply IH in H.
Qed.

Lemma shortRuns_prefix a : forall run b,
  shortRuns run (a ++ b) = true -> shortRuns run a = true.
Proof.
  induction a as [|c a IH]; intros run b; simpl; [reflexivity|].
  destruct (isNewline c); [|apply IH].
  intros H. apply andb_true_iff in H as [H1 H2].
  apply andb_true_iff. split; [exact H1 | now apply IH in H2].
Qed.

Lemma shortRuns_trim s : shortRuns 0 s = true -> shortRuns 0 (trim s) = true.
Proof.
  destruct (trim_infix s) as (pre & post & E). intros H. rewrite E in H.
  apply shortRuns_suffix in H. now apply shortRuns_prefix in H.
Qed.

Lemma isNewline_newline : isNewline newline = true.
Proof. reflexivity. Qed.

Lemma shortRuns_newlines m t :
  m <= 2 -> shortRuns 0 (repeat newline m ++ t) = shortRuns m t.
Proof.
  intros Hm. destruct m as [|[|[|m]]]; [reflexivity | reflexivity | reflexivity | lia].
Qed.

Lemma collapseNewlines_go_short s : forall run,
  shortRuns 0 (collapseNewlines_go run s) = true.
Proof.
  induction s as [|c s IH]; intros run; cbn [collapseNewlines_go].
  - rewrite <- (app_nil_r (repeat newline (Nat.min run 2))).
    rewrite shortRuns_newlines by lia. reflexivity.
  - destruct (isNewline c) eqn:E; [apply IH|].
    rewrite shortRuns_newlines by lia. cbn [shortRuns]. rewrite E. apply IH.
Qed.

Lemma collapseNewlines_go_id s : forall run,
  run <= 2 -> shortRuns run s = true ->
  collapseNewlines_go run s = repeat newline run ++ s.
Proof.
  induction s as [|c s IH]; intros run Hrun; cbn [collapseNewlines_go shortRuns].
  - intros _. rewrite Nat.min_l by lia. now rewrite app_nil_r.
  - destruct (isNewline c) eqn:E.
    + intros H. apply andb_true_iff in H as [H1 H2]. apply Nat.ltb_lt in H1.
      rewrite IH by (try lia; exact H2).
      apply eqc_eq in E. subst c.
      cbn [repeat]. rewrite repeat_cons, <- app_assoc. reflexivity.
    + intros H. rewrite Nat.min_l by lia. rewrite (IH 0) by (try lia; exact H).
      reflexivity.
Qed.

(** *** White space at the ends *)

Lemma dropWhile_fixed {A} (p : A -> bool) x l : p x = false -> dropWhile p (x :: l) = x :: l.
Proof. intros H. simpl. now rewrite H. Qed.

Lemma dropWhile_idempotent {A} (p : A -> bool) l :
  dropWhile p (dropWhile p l) = dropWhile p l.
Proof.
  destruct (dropWhile p l) as [|x l'] eqn:E; [reflexivity|].
  apply dropWhile_fixed. eapply dropWhile_head; eauto.
Qed.

Lemma trim_idempotent s : trim (trim s) = trim s.
Proof.
  unfold trim, trimEnd, trimStart.
  set (u := dropWhile isSpace s).
  set (v := dropWhile isSpace (rev u)).
  assert (Hstart : dropWhile isSpace (rev v) = rev v).
  { destruct (rev v) as [|x t] eqn:E; [reflexivity|].
    apply dropWhile_fixed.
    destruct (dropWhile_suffix isSpace (rev u)) as (w & Hw). fold v in Hw.
    apply (f_equal (@rev ascii)) in Hw. rewrite rev_involutive, rev_app_distr, E in Hw.
    simpl in Hw. unfold u in Hw. eapply dropWhile_head; eauto. }
  rewrite Hstart, rev_involutive. unfold v. now rewrite dropWhile_idempotent.
Qed.

(** X23.  The text [chunkText] works on after [cleanText] has no carriage
    return and no run of three newlines, neither starts nor ends with white
    space, and cleaning it again changes nothing. *)
Theorem cleanText_normal_form (text : str) :
  let clean := cleanText text in
  Forall (fun c => c <> carriageReturn) clean /\
  shortRuns 0 clean = true /\
  trim clean = clean /\
  cleanText clean = clean.
Proof.
  cbv zeta.
  assert (Hcr : Forall (fun c => c <> carriageReturn) (cleanText text)).
  { apply trim_Forall, collapseNewlines_go_Forall; [discriminate | apply replaceCR_clean]. }
  assert (Hruns : shortRuns 0 (cleanText text) = true).
  { apply shortRuns_trim, collapseNewlines_go_short. }
  assert (Htrim : trim (cleanText text) = cleanText text) by apply trim_idempotent.
  split; [exact Hcr|]. split; [exact Hruns|]. split; [exact Htrim|].
  unfold cleanText at 1.
  rewrite (replaceCRLF_id _ Hcr), (replaceCR_id _ Hcr).
  unfold collapseNewlines. rewrite (collapseNewlines_go_id _ 0) by (try lia; exact Hruns).
  exact Htrim.
Qed.

End CleanTextFacts.

Module OutlineFacts.

Import Config SemanticChunker SemanticChunkerFacts TextFacts NumFacts Outline.

(** *** Importance *)

(** X24.  [calculateImportance] returns 0.6, 0.8 or 1, or, for a content of
    fewer than 100 characters, one of the doubles [0.6 - 0.2] and
    [0.8 - 0.2]: these are 0.39999999999999997, below the level [LOW], and
    0.6000000000000001, above the level [MEDIUM].  The level [MINIMAL] is
    never given. *)
Theorem calculateImportance_levels (content : str) (section : DocSection) :
  let importance := calculateImportance content section in
  (importance == MEDIUM \/ importance == HIGH \/ importance == CRITICAL
   \/ importance == dsub MEDIUM (double 0.2)
   \/ importance == dsub HIGH (double 0.2))%Q /\
  (dsub MEDIUM (double 0.2) < LOW /\ MEDIUM < dsub HIGH (double 0.2))%Q /\
  (MINIMAL < importance <= CRITICAL)%Q.
Proof.
  cbv zeta. unfold calculateImportance. cbv zeta.
  split; [|split; [split; apply Qlt_alt; vm_compute; reflexivity|]].
  - destruct (bool_decide (sec_type section = HEADING));
      destruct (existsb _ keyPhrases);
      destruct (length content <? 100);
      first [ left; apply Qeq_bool_iff; vm_compute; reflexivity
            | right; left; apply Qeq_bool_iff; vm_compute; reflexivity
            | right; right; left; apply Qeq_bool_iff; vm_compute; reflexivity
            | right; right; right; left; apply Qeq_bool_iff; vm_compute; reflexivity
            | right; right; right; right; apply Qeq_bool_iff; vm_compute; reflexivity ].
  - destruct (bool_decide (sec_type section = HEADING));
      destruct (existsb _ keyPhrases);
      destruct (length content <? 100);
      (split; [apply Qlt_alt | apply Qle_bool_iff]; vm_compute; reflexivity).
Qed.

(** *** Relationships *)

Lemma addChunkRelationships_from_lookup chunks : forall previous i c,
  chunks !! i = Some c ->
  addChunkRelationships_from previous chunks !! i
  = Some (withRelationships c
            (match i with
             | O => match previous with Some p => [siblingOf p] | None => [] end
             | S j => match chunks !! j with Some p => [siblingOf p] | None => [] end
             end
             ++ match chunks !! S i with Some n => [siblingOf n] | None => [] end)).
Proof.
  induction chunks as [|chunk rest IH]; intros previous i c Hi; [discriminate|].
  cbn [addChunkRelationships_from].
  destruct i as [|i].
  - injection Hi as ->. simpl. destruct rest; reflexivity.
  - simpl in Hi. simpl lookup at 1. rewrite (IH (Some chunk) i c Hi).
    destruct i; reflexivity.
Qed.

Lemma addChunkRelationships_from_length chunks : forall previous,
  length (addChunkRelationships_from previous chunks) = length chunks.
Proof. induction chunks as [|c l IH]; intros p; simpl; [reflexivity | now rewrite IH]. Qed.

(** X25.  [addChunkRelationships] changes nothing but the relationships: the
    chunk at index [i] receives a sibling relationship to the chunk at
    [i - 1] and one to the chunk at [i + 1], where they exist, so that two
    chunks that follow each other refer to each other. *)
Theorem addChunkRelationships_links (chunks : list SemanticChunk) :
  let linked := addChunkRelationships chunks in
  length linked = length chunks /\
  (forall i c, chunks !! i = Some c ->
     linked !! i = Some (withRelationships c (neighbours chunks i))) /\
  (forall i a b a' b',
     chunks !! i = Some a -> chunks !! S i = Some b ->
     linked !! i = Some a' -> linked !! S i = Some b' ->
     siblingOf b ∈ chunk_relationships a' /\ siblingOf a ∈ chunk_relationships b').
Proof.
  cbv zeta. unfold addChunkRelationships.
  assert (Hlookup : forall i c, chunks !! i = Some c ->
            addChunkRelationships_from None chunks !! i
            = Some (withRelationships c (neighbours chunks i))).
  { intros i c Hi. rewrite (addChunkRelationships_from_lookup chunks None i c Hi).
    unfold neighbours. destruct i; reflexivity. }
  split; [apply addChunkRelationships_from_length|]. split; [exact Hlookup|].
  intros i a b a' b' Ha Hb Ha' Hb'.
  rewrite (Hlookup i a Ha) in Ha'. rewrite (Hlookup (S i) b Hb) in Hb'.
  injection Ha' as <-. injection Hb' as <-.
  unfold neighbours. cbn [withRelationships chunk_relationships].
  rewrite Hb, Ha. split.
  - apply elem_of_app. right. apply elem_of_app. right. left.
  - apply elem_of_app. right. apply elem_of_app. left. left.
Qed.

(** *** The structure of a document *)

Lemma updateCurrent_snoc f before current :
  updateCurrent f (before ++ [current]) = before ++ [f current].
Proof. unfold updateCurrent. rewrite rev_app_distr. simpl. now rewrite rev_involutive. Qed.

Lemma sections_last (sections : list DocSection) :
  sections <> [] -> exists before current, sections = before ++ [current].
Proof.
  intros H. destruct (exists_last H) as (before & current & E). eauto.
Qed.

Lemma parseLines_spec lines : forall i title sections,
  flat sections -> headed sections ->
  let structure := parseLines lines i title sections in
  concat (map sec_content (ds_sections structure))
  = concat (map sec_content sections)
    ++ concat (map (fun line => line ++ [newline]) (bodyLines_from i lines)) /\
  flat (ds_sections structure) /\
  headed (ds_sections structure).
Proof.
  induction lines as [|raw rest IH]; intros i title sections Hflat Hhead; cbv zeta.
  - simpl. rewrite app_nil_r. auto.
  - cbn [parseLines bodyLines_from].
    destruct (trim raw) as [|c line] eqn:E; [apply IH; assumption|].
    destruct ((i =? 0) || startsWith (lit "# ") (c :: line)); [apply IH; assumption|].
    destruct (headerMatch (c :: line)) as [[level sectionTitle]|].
    + (* a header *)
      destruct sections as [|s sections'] eqn:Es.
      * destruct (IH (S i) title ([] ++ [mkSection sectionTitle level [] [] HEADING]))
          as (H1 & H2 & H3).
        { apply Forall_singleton. constructor. }
        { apply Forall_singleton. now left. }
        cbv zeta in *. rewrite H1. simpl. auto.
      * rewrite <- Es in *. assert (Hne : sections <> []) by (subst; discriminate).
        clear Es. destruct (level =? 2).
        -- destruct (IH (S i) title (sections ++ [mkSection sectionTitle level [] [] HEADING]))
             as (H1 & H2 & H3).
           { apply Forall_app. split; [exact Hflat|]. apply Forall_singleton. constructor. }
           { apply Forall_app. split; [exact Hhead|]. apply Forall_singleton. now left. }
           cbv zeta in *. rewrite H1, map_app, concat_app. simpl.
           rewrite !app_nil_r. auto.
        -- destruct (sections_last sections Hne) as (before & current & ->).
           rewrite updateCurrent_snoc.
           apply Forall_app in Hflat as [Hf1 Hf2]. apply Forall_app in Hhead as [Hh1 Hh2].
           pose proof (proj1 (Forall_singleton _ _) Hf2) as Hfc.
           pose proof (proj1 (Forall_singleton _ _) Hh2) as Hhc. cbv beta in Hfc, Hhc.
           destruct (IH (S i) title
                       (before ++ [addSubsection (mkSection sectionTitle level [] [] HEADING)
                                     current])) as (H1 & H2 & H3).
           { apply Forall_app. split; [exact Hf1|]. apply Forall_singleton. simpl.
             apply Forall_app. split; [exact Hfc|].
             apply Forall_singleton. split; reflexivity. }
           { apply Forall_app. split; [exact Hh1|]. apply Forall_singleton. exact Hhc. }
           cbv zeta in *. rewrite H1, !map_app, !concat_app. simpl. auto.
    + (* a line of content *)
      destruct sections as [|s sections'] eqn:Es.
      * destruct (IH (S i) title [addContent (c :: line) (mkSection (lit "Content") 1 [] [] PARAGRAPH)])
          as (H1 & H2 & H3).
        { apply Forall_singleton. constructor. }
        { apply Forall_singleton. right. auto. }
        cbv zeta in *. rewrite H1. simpl. rewrite !app_nil_r, <- !app_assoc. auto.
      * rewrite <- Es in *. assert (Hne : sections <> []) by (subst; discriminate).
        clear Es.
        destruct (sections_last sections Hne) as (before & current & ->).
        rewrite updateCurrent_snoc.
        apply Forall_app in Hflat as [Hf1 Hf2]. apply Forall_app in Hhead as [Hh1 Hh2].
        pose proof (proj1 (Forall_singleton _ _) Hf2) as Hfc.
           pose proof (proj1 (Forall_singleton _ _) Hh2) as Hhc. cbv beta in Hfc, Hhc.
        destruct (IH (S i) title (before ++ [addContent (c :: line) current]))
          as (H1 & H2 & H3).
        { apply Forall_app. split; [exact Hf1|]. apply Forall_singleton. exact Hfc. }
        { apply Forall_app. split; [exact Hh1|]. apply Forall_singleton. exact Hhc. }
        cbv zeta in *. rewrite H1, !map_app, !concat_app. simpl.
        rewrite !app_nil_r, <- !app_assoc. split; [|auto].
        do 2 f_equal. simpl. now rewrite <- app_assoc.
Qed.

(** X26.  [parseDocumentStructure] files every line that is neither blank,
    nor a title line, nor a section header under the top-level section that
    is open when the line is read: the contents of the top-level sections,
    one after the other, are these lines in the order of the document.  A
    subsection keeps its title only, it has no content and no subsections;
    a top-level section is a header section or the default section
    [Content]. *)
Theorem parseDocumentStructure_files_lines (content : str) :
  let sections := ds_sections (parseDocumentStructure content) in
  concat (map sec_content sections)
  = concat (map (fun line => line ++ [newline]) (bodyLines content)) /\
  flat sections /\ headed sections.
Proof.
  cbv zeta. unfold parseDocumentStructure, bodyLines.
  destruct (parseLines_spec (split_lines content) 0 (lit "Untitled Document") [])
    as (H1 & H2 & H3); [constructor | constructor |].
  cbv zeta in *. rewrite H1. auto.
Qed.

End OutlineFacts.

Module IdentifierFacts.

Import Config SemanticChunker SemanticChunkerFacts TextFacts NumFacts Outline OutlineFacts.

(** *** Decimal numerals *)

Lemma pretty_N_char_digit (x : N) : isDigit (pretty_N_char x) = true.
Proof. unfold pretty_N_char. repeat case_match; reflexivity. Qed.

Lemma pretty_N_go_digits (x : N) : forall s,
  digits (lit s) -> digits (lit (pretty_N_go x s)).
Proof.
  induction (N.lt_wf_0 x) as [x _ IH]; intros s Hs.
  assert (x = 0 \/ 0 < x)%N as [->|Hx] by lia.
  - now rewrite pretty_N_go_0.
  - rewrite pretty_N_go_step by exact Hx. apply IH.
    + now apply N.div_lt.
    + constructor; [apply pretty_N_char_digit | exact Hs].
Qed.

Lemma pretty_nat_digits (n : nat) : digits (lit (pretty n)).
Proof.
  unfold pretty, pretty_nat, pretty, pretty_N.
  destruct (decide (N.of_nat n = 0%N)).
  - repeat constructor.
  - apply pretty_N_go_digits. constructor.
Qed.

Lemma lit_inj (s t : string) : lit s = lit t -> s = t.
Proof.
  intros H. rewrite <- (string_of_list_ascii_of_string s), <- (string_of_list_ascii_of_string t).
  unfold lit in H. now rewrite H.
Qed.

Lemma digits_then_mark (a b r1 r2 : str) (mark : ascii) :
  digits a -> digits b -> isDigit mark = false ->
  a ++ mark :: r1 = b ++ mark :: r2 -> a = b /\ r1 = r2.
Proof.
  intros Ha. revert b. induction Ha as [|c a Hc Ha IH]; intros b Hb Hm E.
  - destruct Hb as [|d b Hd Hb]; simpl in E.
    + injection E as ->. auto.
    + injection E as -> _. congruence.
  - destruct Hb as [|d b Hd Hb]; simpl in E.
    + injection E as -> _. congruence.
    + injection E as -> E. destruct (IH b Hb Hm E) as [-> ->]. auto.
Qed.

Lemma chunkIdentifier_inj (i j : nat) (t u : Z) :
  chunkIdentifier i t = chunkIdentifier j u -> i = j /\ t = u.
Proof.
  unfold chunkIdentifier. intros E. apply app_inv_head in E.
  change (lit "_" ++ lit (pretty t)) with ("_"%char :: lit (pretty t)) in E.
  change (lit "_" ++ lit (pretty u)) with ("_"%char :: lit (pretty u)) in E.
  apply digits_then_mark in E as [Ei Et];
    [|apply pretty_nat_digits|apply pretty_nat_digits|reflexivity].
  split.
  - apply (inj pretty). now apply lit_inj.
  - apply (inj pretty). now apply lit_inj.
Qed.

(** *** Identifiers *)

Lemma identified_nil clock first k : identified clock first k [].
Proof. intros j c H. discriminate. Qed.

Lemma identified_app clock first k (a b : list SemanticChunk) :
  identified clock first k a ->
  identified clock (first + length a) (k + 2 * length a) b ->
  identified clock first k (a ++ b).
Proof.
  intros Ha Hb j c Hj. destruct (decide (j < length a)) as [L|L].
  - rewrite lookup_app_l in Hj by exact L. now apply Ha.
  - rewrite lookup_app_r in Hj by lia. rewrite (Hb _ _ Hj).
    f_equal; [|f_equal]; lia.
Qed.

Lemma identified_one clock first k (c : SemanticChunk) :
  chunk_id c = chunkIdentifier first (clock k) -> identified clock first k [c].
Proof.
  intros E [|j] c' Hj; [|destruct j; discriminate].
  injection Hj as <-. now rewrite Nat.add_0_r, Nat.mul_0_r, Nat.add_0_r.
Qed.

Section Identifiers.

Variable clock : nat -> Z.

Lemma chunkSection_from_identified optimalSize source metadata section si start paragraphs :
  forall chunks currentChunk currentTokens pi k,
    exists new,
      chunkSection_from clock optimalSize source metadata section si start
        paragraphs chunks currentChunk currentTokens pi k
      = (chunks ++ new, k + 2 * length new) /\
      identified clock (start + length chunks) k new.
Proof.
  induction paragraphs as [|p rest IH]; intros chunks cur tokens pi k.
  - cbn [chunkSection_from]. destruct (notBlank cur).
    + eexists [_]. split.
      * unfold createChunk, dateNow. cbv beta iota zeta.
        apply (f_equal2 pair); [reflexivity | simpl; lia].
      * apply identified_one. reflexivity.
    + exists []. rewrite app_nil_r. split; [f_equal; simpl; lia | apply identified_nil].
  - cbn [chunkSection_from].
    destruct ((optimalSize <? tokens + estimateTokenCount p)
              && match cur with [] => false | _ :: _ => true end).
    + unfold createChunk at 1, dateNow. cbv beta iota zeta.
      match goal with
      | |- context [chunkSection_from _ _ _ _ _ _ _ _ (chunks ++ [?c]) ?cur' ?t' ?pi' ?k'] =>
          destruct (IH (chunks ++ [c]) cur' t' pi' k') as (new & E & Hnew); exists (c :: new)
      end.
      split.
      * rewrite E, <- app_assoc. simpl. f_equal. lia.
      * apply (identified_app clock _ _ [_] new).
        -- apply identified_one. reflexivity.
        -- rewrite length_app in Hnew. simpl in *.
           replace (start + length chunks + 1) with (start + (length chunks + 1)) by lia.
           replace (k + 2) with (S (S k)) by lia. exact Hnew.
    + cbv beta iota zeta. apply IH.
Qed.

Lemma chunkSection_identified section source metadata si start k :
  exists new,
    chunkSection clock section source metadata si start k = (new, k + 2 * length new) /\
    identified clock start k new.
Proof.
  unfold chunkSection. destruct (trim (sec_content section)) as [|c t].
  - exists []. split; [f_equal; simpl; lia | apply identified_nil].
  - match goal with
    | |- context [chunkSection_from _ ?o _ _ _ _ _ ?ps [] [] 0 0 k] =>
        destruct (chunkSection_from_identified o source metadata section si start ps [] [] 0 0 k)
          as (new & E & Hnew)
    end.
    exists new. simpl in *. rewrite Nat.add_0_r in *. auto.
Qed.

Lemma semanticChunking_from_identified source metadata sections :
  forall si chunks k,
    exists new,
      semanticChunking_from clock source metadata sections si chunks k
      = (chunks ++ new, k + 2 * length new) /\
      identified clock (length chunks) k new.
Proof.
  induction sections as [|section rest IH]; intros si chunks k.
  - exists []. simpl. rewrite app_nil_r. split; [f_equal; lia | apply identified_nil].
  - cbn [semanticChunking_from].
    destruct (chunkSection_identified section source metadata si (length chunks) k)
      as (first & E & Hfirst).
    rewrite E.
    destruct (IH (S si) (chunks ++ first) (k + 2 * length first)) as (more & E' & Hmore).
    exists (first ++ more). rewrite E', <- app_assoc, length_app. split.
    + f_equal. lia.
    + apply identified_app; [exact Hfirst|]. now rewrite length_app in Hmore.
Qed.

Lemma addChunkRelationships_from_ids chunks : forall previous,
  map chunk_id (addChunkRelationships_from previous chunks) = map chunk_id chunks.
Proof.
  induction chunks as [|c l IH]; intros p; simpl; [reflexivity | now rewrite IH].
Qed.

Lemma identified_NoDup first k (chunks : list SemanticChunk) :
  identified clock first k chunks -> NoDup (map chunk_id chunks).
Proof.
  intros H. apply NoDup_alt. intros i j x Hi Hj.
  change (map chunk_id chunks) with (chunk_id <$> chunks) in *.
  rewrite list_lookup_fmap in Hi, Hj.
  destruct (chunks !! i) as [a|] eqn:Ea; [|discriminate].
  destruct (chunks !! j) as [b|] eqn:Eb; [|discriminate].
  simpl in Hi, Hj. injection Hi as Hi. injection Hj as Hj.
  rewrite (H _ _ Ea) in Hi. rewrite (H _ _ Eb) in Hj.
  rewrite <- Hj in Hi. apply chunkIdentifier_inj in Hi as [Hi _]. lia.
Qed.

(** X27.  [chunkDocument] reads the clock twice for each chunk it returns,
    and the chunk at index [i] has the identifier [chunk_<i>_<t>] where [t]
    is the reading of the clock taken for it.  The identifiers of the
    chunks of one document are therefore pairwise different, also when the
    clock stands still. *)
Theorem chunkDocument_identifiers (content source : str) (metadata : CallerMetadata)
    (k : nat) :
  let chunks := fst (chunkDocument clock content source metadata k) in
  snd (chunkDocument clock content source metadata k) = k + 2 * length chunks /\
  (forall i c, chunks !! i = Some c ->
     chunk_id c = chunkIdentifier i (clock (k + 2 * i))) /\
  NoDup (map chunk_id chunks).
Proof.
  cbv zeta. unfold chunkDocument, semanticChunking.
  destruct (semanticChunking_from_identified source metadata
              (ds_sections (parseDocumentStructure content)) 0 [] k)
    as (new & E & Hnew).
  rewrite E. cbn [fst snd app]. unfold addChunkRelationships.
  rewrite addChunkRelationships_from_length, addChunkRelationships_from_ids.
  split; [reflexivity|]. split.
  - intros i c Hi.
    assert (Hid : map chunk_id (addChunkRelationships_from None new) !! i
                  = Some (chunk_id c)).
    { change (map chunk_id ?l) with (chunk_id <$> l).
      now rewrite list_lookup_fmap, Hi. }
    rewrite addChunkRelationships_from_ids in Hid.
    change (map chunk_id new) with (chunk_id <$> new) in Hid.
    rewrite list_lookup_fmap in Hid.
    destruct (new !! i) as [c'|] eqn:Ec; [|discriminate].
    simpl in Hid. injection Hid as <-. apply (Hnew i c' Ec).
  - exact (identified_NoDup 0 k new Hnew).
Qed.

Lemma chunkSection_from_every (P : SemanticChunk -> Prop) optimalSize source metadata
    section si start paragraphs :
  (forall content pi ci k, P (fst (createChunk clock content source metadata section si pi ci k))) ->
  forall chunks currentChunk currentTokens pi k,
    Forall P chunks ->
    Forall P (fst (chunkSection_from clock optimalSize source metadata section si start
                     paragraphs chunks currentChunk currentTokens pi k)).
Proof.
  intros HP. induction paragraphs as [|p rest IH]; intros chunks cur tokens pi k Hchunks.
  - cbn [chunkSection_from]. destruct (notBlank cur); [|exact Hchunks].
    apply Forall_app. split; [exact Hchunks|]. apply Forall_singleton.
    apply (HP (trim cur) pi (start + length chunks) k).
  - cbn [chunkSection_from].
    destruct ((optimalSize <? tokens + estimateTokenCount p)
              && match cur with [] => false | _ :: _ => true end).
    + cbv beta iota zeta. apply IH. apply Forall_app. split; [exact Hchunks|].
      apply Forall_singleton. apply (HP (trim cur) pi (start + length chunks) k).
    + cbv beta iota zeta. apply IH. exact Hchunks.
Qed.

Lemma semanticChunking_from_every (P : SemanticChunk -> Prop) source metadata sections :
  (forall content section si pi ci k,
     P (fst (createChunk clock content source metadata section si pi ci k))) ->
  forall si chunks k,
    Forall P chunks ->
    Forall P (fst (semanticChunking_from clock source metadata sections si chunks k)).
Proof.
  intros HP. induction sections as [|section rest IH]; intros si chunks k Hchunks.
  - exact Hchunks.
  - cbn [semanticChunking_from].
    destruct (chunkSection clock section source metadata si (length chunks) k)
      as [sectionChunks k'] eqn:E.
    apply IH. apply Forall_app. split; [exact Hchunks|].
    replace sectionChunks
      with (fst (chunkSection clock section source metadata si (length chunks) k))
      by now rewrite E.
    unfold chunkSection. destruct (trim (sec_content section)); [constructor|].
    apply chunkSection_from_every; [intros; apply HP | constructor].
Qed.

(** X28.  In the chunks [chunkDocument] returns, every relationship of a
    chunk is a sibling relationship of strength 0.8 whose target is the
    identifier of the chunk just before or just after it: it refers to a
    chunk of the same document, and never to the chunk itself. *)
Theorem chunkDocument_relationships (content source : str) (metadata : CallerMetadata)
    (k : nat) :
  let chunks := fst (chunkDocument clock content source metadata k) in
  forall i c r,
    chunks !! i = Some c -> r ∈ chunk_relationships c ->
    rel_type r = sibling /\ (strength r == 0.8)%Q /\
    targetChunkId r <> chunk_id c /\
    exists j other,
      chunks !! j = Some other /\ targetChunkId r = chunk_id other /\
      (S j = i \/ j = S i).
Proof.
  cbv zeta. unfold chunkDocument, semanticChunking.
  pose proof (semanticChunking_from_every (fun c => chunk_relationships c = [])
                source metadata (ds_sections (parseDocumentStructure content))
                (fun _ _ _ _ _ _ => eq_refl) 0 [] k (List.Forall_nil _)) as Hfresh.
  destruct (semanticChunking_from_identified source metadata
              (ds_sections (parseDocumentStructure content)) 0 [] k)
    as (new & E & Hnew).
  rewrite E in *. cbn [fst snd app] in *. clear E.
  pose proof (identified_NoDup 0 k new Hnew) as Hdistinct.
  unfold addChunkRelationships. intros i c r Hi Hr.
  assert (Hlinked : forall n a, new !! n = Some a ->
            addChunkRelationships_from None new !! n
            = Some (withRelationships a (neighbours new n))).
  { intros n a Hn. rewrite (addChunkRelationships_from_lookup new None n a Hn).
    unfold neighbours. destruct n; reflexivity. }
  assert (Hdiff : forall n m a b, new !! n = Some a -> new !! m = Some b -> n <> m ->
            chunk_id a <> chunk_id b).
  { intros n m a b Hn Hm Hnm Eid. apply Hnm.
    apply (proj1 (NoDup_alt _) Hdistinct n m (chunk_id a)).
    - change (map chunk_id new) with (chunk_id <$> new).
      now rewrite list_lookup_fmap, Hn.
    - change (map chunk_id new) with (chunk_id <$> new).
      now rewrite list_lookup_fmap, Hm, Eid. }
  destruct (new !! i) as [a|] eqn:Ea.
  2:{ apply lookup_ge_None in Ea. apply lookup_lt_Some in Hi.
      rewrite addChunkRelationships_from_length in Hi. lia. }
  rewrite (Hlinked i a Ea) in Hi. injection Hi as <-.
  cbn [withRelationships chunk_relationships chunk_id] in *.
  rewrite (proj1 (Forall_lookup _ _) Hfresh i a Ea) in Hr. cbn [app] in Hr.
  unfold neighbours in Hr. apply elem_of_app in Hr as [Hr|Hr].
  - destruct i as [|j]; [inversion Hr|].
    destruct (new !! j) as [p|] eqn:Ep; [|inversion Hr].
    apply list_elem_of_singleton in Hr as ->.
    split; [reflexivity|]. split; [reflexivity|]. split.
    + cbn [siblingOf targetChunkId]. apply (Hdiff j (S j) p a Ep Ea). lia.
    + exists j, (withRelationships p (neighbours new j)).
      split; [apply (Hlinked j p Ep)|]. split; [reflexivity | now left].
  - destruct (new !! S i) as [n|] eqn:En; [|inversion Hr].
    apply list_elem_of_singleton in Hr as ->.
    split; [reflexivity|]. split; [reflexivity|]. split.
    + cbn [siblingOf targetChunkId]. apply (Hdiff (S i) i n a En Ea). lia.
    + exists (S i), (withRelationships n (neighbours new (S i))).
      split; [apply (Hlinked (S i) n En)|]. split; [reflexivity | now right].
Qed.

End Identifiers.

Lemma chunkDocument_relationships_witness :
  exists c r,
    fst (chunkDocument sampleClock shortDocument (lit "notes.md") noMetadata 0) !! 0
    = Some c /\
    r ∈ chunk_relationships c /\
    rel_type r = sibling /\ (strength r == 0.8)%Q /\
    targetChunkId r <> chunk_id c /\
    exists j other,
      fst (chunkDocument sampleClock shortDocument (lit "notes.md") noMetadata 0) !! j
      = Some other /\
      targetChunkId r = chunk_id other /\ (S j = 0 \/ j = 1).
Proof.
  eexists _, _.
  split; [vm_compute; reflexivity|].
  split; [cbn [chunk_relationships]; left|].
  apply (chunkDocument_relationships sampleClock shortDocument (lit "notes.md")
           noMetadata 0 0).
  - vm_compute. reflexivity.
  - cbn [chunk_relationships]. left.
Defined.

End IdentifierFacts.
